(** * Live translation relay: connection registry and segment fan-out

    A shallow embedding of the WebSocket server of the translator
    repository: [registerRoutes] (the [connection], [message] and [close]
    handlers over the module-level [activeConnections] map), the in-memory
    record store [MemStorage], and the three OpenAI wrappers
    [transcribeAudio], [translateText] and [generateSpeech].

    Modelling conventions.
    - A JavaScript string is the list of its UTF-16 code units.
    - A [WebSocket] object is named by a natural number; its [readyState]
      and the variables its handlers close over ([sessionId], [eventId],
      [language], [enableAudio]) live in the [sockets] table.
    - [activeConnections : Map<number, EventConnection[]>] is a [gmap].
      The insertion-ordered [Map]s of [MemStorage] that are iterated
      ([participants], [translations]) are association lists.
    - Everything the server does to the outside world is appended to a
      chronological [trace] of effects: frames actually transmitted,
      transports closed, records created, and each call to an external
      service together with the answer it got.  The external services are
      arbitrary functions of the history so far, so two calls with equal
      arguments may answer differently.
    - One handler invocation is one atomic [step]: the events that could
      arrive while a handler is suspended at an [await] are not interleaved
      with it, and the per-language jobs of one segment run to completion
      in the order of [uniqueLanguages].
    - [ws.send] on a transport that is not [OPEN] transmits nothing and
      does not throw (the sockets here are server side, never
      [CONNECTING]).

    Beside the relay, the development covers the rest of the files it
    lives in.
    - [Store] is the whole of the [MemStorage] class, users and events
      included, with every [Map] an association list in insertion
      order.
    - [Api] is the REST half of [registerRoutes].  A request is taken
      after decoding: a path id is the result of [parseInt] ([None] for
      [NaN]), a body is the outcome of its schema's [parse].
    - [Hook] is the client's [useWebSocket] as a transition system over
      the sockets it has made and the timer it holds; a reconnect delay
      is kept symbolic.
    - [Page] is the way the participant page folds the frames it
      receives into the list it shows. *)

From Stdlib Require Import ZArith NArith String Ascii.
From stdpp Require Import gmap list sorting.

#[local] Set Warnings "-clear-no-such-hyp".

Local Open Scope Z_scope.

(** ** JavaScript strings *)

Abbreviation jsstring := (list N).

Definition str (s : string) : jsstring :=
  (λ a, N_of_ascii a) <$> list_ascii_of_string s.

Definition English : jsstring := Eval cbv in str "English".
Definition nova : jsstring := Eval cbv in str "nova".
Definition Unknown_error : jsstring := Eval cbv in str "Unknown error".

(** [WhiteSpace] and [LineTerminator] code units, the ones
    [String.prototype.trim] strips. *)
Definition isWhiteSpace (c : N) : bool :=
  ((9 <=? c) && (c <=? 13) || (c =? 32) || (c =? 160) || (c =? 5760)
   || (8192 <=? c) && (c <=? 8202) || (c =? 8232) || (c =? 8233)
   || (c =? 8239) || (c =? 8287) || (c =? 12288) || (c =? 65279))%N.

Fixpoint trimStart (s : jsstring) : jsstring :=
  match s with
  | c :: s' => if isWhiteSpace c then trimStart s' else s
  | [] => []
  end.

Definition trim (s : jsstring) : jsstring :=
  reverse (trimStart (reverse (trimStart s))).

(** [x || d] on a string: the empty string is falsy. *)
Definition orString (x : option jsstring) (d : jsstring) : jsstring :=
  match x with
  | Some (c :: s) => c :: s
  | _ => d
  end.

(** ** Arrays *)

(** [Array.prototype.findIndex]; [None] stands for [-1]. *)
Fixpoint findIndex {A} (p : A → bool) (l : list A) : option nat :=
  match l with
  | [] => None
  | x :: l' => if p x then Some O else S <$> findIndex p l'
  end.

(** [l.splice(i, 1)] *)
Definition splice1 {A} (i : nat) (l : list A) : list A :=
  take i l ++ drop (S i) l.

(** [Array.from(new Set(l))]: first occurrences, in order. *)
Definition uniqueOf (l : list jsstring) : list jsstring :=
  foldl (λ acc x, if decide (x ∈ acc) then acc else acc ++ [x]) [] l.

(** A stable sort, as [Array.prototype.sort] is: [insertBy] puts [x]
    after the elements that do not compare greater. *)
Fixpoint insertBy {A} (gt : A → A → bool) (x : A) (l : list A) : list A :=
  match l with
  | [] => [x]
  | y :: l' => if gt y x then x :: y :: l' else y :: insertBy gt x l'
  end.

Definition sortBy {A} (gt : A → A → bool) (l : list A) : list A :=
  foldl (λ acc x, insertBy gt x acc) [] l.

(** ** Data model *)

Inductive readyState := CONNECTING | OPEN | CLOSING | CLOSED.

Global Instance readyState_eq_dec : EqDecision readyState.
Proof. solve_decision. Defined.

(** [interface EventConnection] *)
Record EventConnection := mkEventConnection {
  ws : nat;
  language : jsstring;
  sessionId : jsstring;
  enableAudio : bool;
  isOrganizer : bool
}.

Global Instance EventConnection_eq_dec : EqDecision EventConnection.
Proof. solve_decision. Defined.

(** Rows of the shared schema. *)
Record Event := mkEvent {
  ev_id : Z;
  ev_name : jsstring;
  ev_description : option jsstring;
  organizerId : Z;
  supportedLanguages : list jsstring;
  enableAudioTranslation : option bool
}.

Record Participant := mkParticipant {
  p_id : Z;
  p_eventId : Z;
  p_sessionId : jsstring;
  p_language : option jsstring;
  createdAt : Z
}.

Record Translation := mkTranslation {
  tr_id : Z;
  tr_eventId : Z;
  originalText : jsstring;
  translatedText : option jsstring;
  tr_language : jsstring;
  timestamp : Z
}.

Global Instance Translation_eq_dec : EqDecision Translation.
Proof. solve_decision. Defined.

Global Instance Participant_eq_dec : EqDecision Participant.
Proof. solve_decision. Defined.

Global Instance Event_eq_dec : EqDecision Event.
Proof. solve_decision. Defined.

(** ** Frames *)

(** What an outbound [error] frame says; the rendering of the text is
    left out. *)
Inductive errorText :=
  | Invalid_message_format
  | Missing_eventId_in_join_request
  | Event_not_found (id : Z)
  | Missing_eventId_or_audio_data
  | Audio_data_must_be_a_string
  | Only_organizers_can_broadcast_audio
  | Thrown (message : jsstring).

Inductive status := processing | skipped | transcribed | complete.

(** The [message] of a [processing_status] frame. *)
Inductive statusNote :=
  | Audio_received
  | Audio_chunk_too_small
  | Audio_transcribed_successfully
  | No_speech_detected
  | Processing_complete (successful failed : nat).

Record details := mkDetails {
  successfulTranslations : nat;
  failedTranslations : nat;
  totalLanguages : nat
}.

Inductive message :=
  | connection_established
  | session_joined (sid : jsstring) (eid : Z) (lang : jsstring) (org : bool)
  | event_info (e : Event)
  | recent_translations (ts : list Translation)
  | translation (t : Translation) (original : jsstring) (originalLanguage : jsstring)
  | audio_translation (audioBase64 : jsstring) (text : jsstring)
  | participant_count (count : nat)
  | processing_status (st : status) (note : statusNote)
      (transcription : option jsstring) (d : option details)
  | error (e : errorText).

(** The [audioBase64] field of an inbound [audio_data] frame. *)
Inductive audioField :=
  | AudioAbsent
  | AudioNotString (truthy : bool)
  | AudioString (s : jsstring).

(** The inbound frames, decoded.  [eventId] is an integral JSON number
    when present, for which [parseInt] is the identity. *)
Inductive clientMessage :=
  | join (eventId : option Z) (sid : option jsstring) (lang : option jsstring)
      (audio : option bool) (organizer : option bool)
  | update_language (lang : jsstring)
  | toggle_audio (audio : bool)
  | audio_data (eventId : option Z) (audioBase64 : audioField)
  | unknown_type.

Inductive frame :=
  | NotJSON
  | Parsed (m : clientMessage).

(** ** Effects *)

Inductive apiResult (A : Type) :=
  | Rejected (message : jsstring)
  | Resolved (a : A).
Arguments Rejected {A} message.
Arguments Resolved {A} a.

Inductive effect :=
  | ENanoid (id : jsstring)
  | EWhisper (audioBase64 : jsstring) (r : apiResult jsstring)
  | EChat (text targetLanguage : jsstring) (r : apiResult (option jsstring))
  | ESpeech (input voice : jsstring) (r : apiResult jsstring)
  | ECreateTranslation (t : Translation)
  | ECreateParticipant (p : Participant)
  | ESend (w : nat) (m : message)
  | EClose (w : nat).

Global Instance errorText_eq_dec : EqDecision errorText.
Proof. solve_decision. Defined.
Global Instance status_eq_dec : EqDecision status.
Proof. solve_decision. Defined.
Global Instance statusNote_eq_dec : EqDecision statusNote.
Proof. solve_decision. Defined.
Global Instance details_eq_dec : EqDecision details.
Proof. solve_decision. Defined.
Global Instance message_eq_dec : EqDecision message.
Proof. solve_decision. Defined.
Global Instance apiResult_eq_dec {A} `{EqDecision A} : EqDecision (apiResult A).
Proof. solve_decision. Defined.
Global Instance effect_eq_dec : EqDecision effect.
Proof. solve_decision. Defined.

(** ** Server state *)

(** A transport and the variables of its [connection] callback. *)
Record Socket := mkSocket {
  state : readyState;
  var_sessionId : jsstring;
  var_eventId : Z;
  var_language : jsstring;
  var_enableAudio : bool
}.

Record MemStorage := mkMemStorage {
  events : gmap Z Event;
  participants : list (Z * Participant);
  translations : list (Z * Translation);
  participantCurrentId : Z;
  translationCurrentId : Z
}.

Record State := mkState {
  activeConnections : gmap Z (list EventConnection);
  sockets : gmap nat Socket;
  storage : MemStorage;
  trace : list effect
}.

Definition with_connections (f : gmap Z (list EventConnection) → gmap Z (list EventConnection))
    (s : State) : State :=
  mkState (f (activeConnections s)) (sockets s) (storage s) (trace s).

Definition with_sockets (f : gmap nat Socket → gmap nat Socket) (s : State) : State :=
  mkState (activeConnections s) (f (sockets s)) (storage s) (trace s).

Definition with_storage (f : MemStorage → MemStorage) (s : State) : State :=
  mkState (activeConnections s) (sockets s) (f (storage s)) (trace s).

Definition emit (e : effect) (s : State) : State :=
  mkState (activeConnections s) (sockets s) (storage s) (trace s ++ [e]).

(** [Map.prototype.set] on an insertion-ordered map. *)
Fixpoint mapSet {V} (k : Z) (v : V) (m : list (Z * V)) : list (Z * V) :=
  match m with
  | [] => [(k, v)]
  | (k', v') :: m' => if decide (k' = k) then (k, v) :: m' else (k', v') :: mapSet k v m'
  end.

Definition mapGet {V} (k : Z) (m : list (Z * V)) : option V :=
  snd <$> find (λ kv, bool_decide (kv.1 = k)) m.

(** ** [MemStorage] *)

Definition getEvent (id : Z) (st : MemStorage) : option Event :=
  events st !! id.

Definition getParticipantBySessionId (sid : jsstring) (st : MemStorage) : option Participant :=
  find (λ p, bool_decide (p_sessionId p = sid)) (snd <$> participants st).

Definition updateParticipant (id : Z) (lang : jsstring) (st : MemStorage) : MemStorage :=
  match mapGet id (participants st) with
  | None => st
  | Some existing =>
      let updated :=
        mkParticipant (p_id existing) (p_eventId existing) (p_sessionId existing)
          (Some lang) (createdAt existing) in
      mkMemStorage (events st) (mapSet id updated (participants st))
        (translations st) (participantCurrentId st) (translationCurrentId st)
  end.

(** descending [timestamp], then [slice(0, limit)] *)
Definition getRecentTranslations (eid : Z) (limit : nat) (st : MemStorage) : list Translation :=
  take limit
    (sortBy (λ a b, timestamp a <? timestamp b)
       (filter (λ t, tr_eventId t = eid) (snd <$> translations st))).

(** ** Transports *)

Definition readyStateOf (w : nat) (s : State) : option readyState :=
  state <$> sockets s !! w.

Definition isOPEN (w : nat) (s : State) : bool :=
  bool_decide (readyStateOf w s = Some OPEN).

Definition ws_send (w : nat) (m : message) (s : State) : State :=
  if isOPEN w s then emit (ESend w m) s else s.

Definition setReadyState (r : readyState) (k : Socket) : Socket :=
  mkSocket r (var_sessionId k) (var_eventId k) (var_language k) (var_enableAudio k).

Definition ws_close (w : nat) (s : State) : State :=
  emit (EClose w) (with_sockets (alter (setReadyState CLOSING) w) s).

(** [x] when it is a truthy number. *)
Definition truthyNumber (x : option Z) : option Z :=
  match x with
  | Some z => if decide (z = 0) then None else Some z
  | None => None
  end.

Record jobResult := mkJobResult {
  job_language : jsstring;
  success : bool;
  job_error : option jsstring
}.

(** ** The inputs of the server *)

Inductive input :=
  | Connection (w : nat)
  | Message (w : nat) (f : frame)
  | Close (w : nat).

(** * The record store, complete

    [class MemStorage implements IStorage], with its four tables and
    their counters, over the rows of the shared schema.  The server
    above uses a part of it; here is the whole class.

    - A [Map] is the list of its entries in insertion order.
    - An insert type has a field that may be left out as an [option],
      and one that may be [null] as an [option] again.
    - [new Date()] is the argument [now] of the methods that call it.
    - The [Participant] and [Translation] rows are the records above;
      their nullable columns hold [None] for [null] and for a field
      that was left out. *)

Module Store.

(** [Map.prototype.has] and [Map.prototype.delete] *)
Definition mapHas {V} (k : Z) (m : list (Z * V)) : bool :=
  bool_decide (k ∈ m.*1).

Definition mapDelete {V} (k : Z) (m : list (Z * V)) : list (Z * V) :=
  filter (λ kv, kv.1 ≠ k) m.

(** ** Rows and insert types *)

Record User := mkUser {
  u_id : Z;
  username : jsstring;
  password : jsstring
}.

Record InsertUser := mkInsertUser {
  iu_username : jsstring;
  iu_password : jsstring
}.

Record InsertEvent := mkInsertEvent {
  name : jsstring;
  description : option (option jsstring);
  eventType : option (option jsstring);
  date : option (option jsstring);
  time : option (option jsstring);
  location : option (option jsstring);
  organizerId : Z;
  supportedLanguages : option (list jsstring);
  audioConfig : option (option jsstring);
  enableAudioTranslation : option (option bool)
}.

(** [Partial<InsertEvent>] *)
Record PartialInsertEvent := mkPartialInsertEvent {
  new_name : option jsstring;
  new_description : option (option jsstring);
  new_eventType : option (option jsstring);
  new_date : option (option jsstring);
  new_time : option (option jsstring);
  new_location : option (option jsstring);
  new_organizerId : option Z;
  new_supportedLanguages : option (list jsstring);
  new_audioConfig : option (option jsstring);
  new_enableAudioTranslation : option (option bool)
}.

(** An [Event] row: [{ ...insertEvent, id, createdAt }]. *)
Record Event := mkEvent {
  e_id : Z;
  fields : InsertEvent;
  e_createdAt : Z
}.

Record InsertParticipant := mkInsertParticipant {
  ip_eventId : Z;
  ip_sessionId : jsstring;
  ip_language : option (option jsstring)
}.

(** [Partial<InsertParticipant>] *)
Record PartialInsertParticipant := mkPartialInsertParticipant {
  new_eventId : option Z;
  new_sessionId : option jsstring;
  new_language : option (option jsstring)
}.

Record InsertTranslation := mkInsertTranslation {
  it_eventId : Z;
  it_originalText : jsstring;
  it_translatedText : option (option jsstring);
  it_language : jsstring
}.

Global Instance User_eq_dec : EqDecision User.
Proof. solve_decision. Defined.
Global Instance InsertEvent_eq_dec : EqDecision InsertEvent.
Proof. solve_decision. Defined.
Global Instance store_Event_eq_dec : EqDecision Event.
Proof. solve_decision. Defined.

(** [{ ...a, ...b }] at one field: the value of [b] when [b] has the
    field. *)
Definition spread {A} (a b : option A) : option A :=
  match b with
  | Some x => Some x
  | None => a
  end.

(** [{ ...existingEvent, ...eventUpdate }] *)
Definition updatedEvent (existingEvent : Event) (eventUpdate : PartialInsertEvent)
    : Event :=
  let old := fields existingEvent in
  mkEvent (e_id existingEvent)
    (mkInsertEvent
       (default (name old) (new_name eventUpdate))
       (spread (description old) (new_description eventUpdate))
       (spread (eventType old) (new_eventType eventUpdate))
       (spread (date old) (new_date eventUpdate))
       (spread (time old) (new_time eventUpdate))
       (spread (location old) (new_location eventUpdate))
       (default (organizerId old) (new_organizerId eventUpdate))
       (spread (supportedLanguages old) (new_supportedLanguages eventUpdate))
       (spread (audioConfig old) (new_audioConfig eventUpdate))
       (spread (enableAudioTranslation old) (new_enableAudioTranslation eventUpdate)))
    (e_createdAt existingEvent).

(** [{ ...existingParticipant, ...participantUpdate }] *)
Definition updatedParticipant (existingParticipant : Participant)
    (participantUpdate : PartialInsertParticipant) : Participant :=
  mkParticipant (p_id existingParticipant)
    (default (p_eventId existingParticipant) (new_eventId participantUpdate))
    (default (p_sessionId existingParticipant) (new_sessionId participantUpdate))
    (default (p_language existingParticipant) (new_language participantUpdate))
    (createdAt existingParticipant).

(** ** The class *)

Record MemStorage := mkMemStorage {
  users : list (Z * User);
  events : list (Z * Event);
  participants : list (Z * Participant);
  translations : list (Z * Translation);
  userCurrentId : Z;
  eventCurrentId : Z;
  participantCurrentId : Z;
  translationCurrentId : Z
}.

(** [constructor()] *)
Definition new : MemStorage := mkMemStorage [] [] [] [] 1 1 1 1.

Definition with_users (m : list (Z * User)) (next : Z) (st : MemStorage) : MemStorage :=
  mkMemStorage m (events st) (participants st) (translations st)
    next (eventCurrentId st) (participantCurrentId st) (translationCurrentId st).

Definition with_events (m : list (Z * Event)) (next : Z) (st : MemStorage) : MemStorage :=
  mkMemStorage (users st) m (participants st) (translations st)
    (userCurrentId st) next (participantCurrentId st) (translationCurrentId st).

Definition with_participants (m : list (Z * Participant)) (next : Z) (st : MemStorage)
    : MemStorage :=
  mkMemStorage (users st) (events st) m (translations st)
    (userCurrentId st) (eventCurrentId st) next (translationCurrentId st).

Definition with_translations (m : list (Z * Translation)) (next : Z) (st : MemStorage)
    : MemStorage :=
  mkMemStorage (users st) (events st) (participants st) m
    (userCurrentId st) (eventCurrentId st) (participantCurrentId st) next.

(** *** User methods *)

Definition getUser (id : Z) (st : MemStorage) : option User :=
  mapGet id (users st).

Definition getUserByUsername (name : jsstring) (st : MemStorage) : option User :=
  find (λ user, bool_decide (username user = name)) (snd <$> users st).

Definition createUser (insertUser : InsertUser) (st : MemStorage) : User * MemStorage :=
  let id := userCurrentId st in
  let user := mkUser id (iu_username insertUser) (iu_password insertUser) in
  (user, with_users (mapSet id user (users st)) (id + 1) st).

(** *** Event methods *)

Definition createEvent (insertEvent : InsertEvent) (now : Z) (st : MemStorage)
    : Event * MemStorage :=
  let id := eventCurrentId st in
  let event := mkEvent id insertEvent now in
  (event, with_events (mapSet id event (events st)) (id + 1) st).

Definition getEvent (id : Z) (st : MemStorage) : option Event :=
  mapGet id (events st).

Definition getAllEvents (st : MemStorage) : list Event :=
  snd <$> events st.

Definition getEventsByOrganizer (organizer : Z) (st : MemStorage) : list Event :=
  filter (λ event, organizerId (fields event) = organizer) (snd <$> events st).

Definition updateEvent (id : Z) (eventUpdate : PartialInsertEvent) (st : MemStorage)
    : option Event * MemStorage :=
  match mapGet id (events st) with
  | None => (None, st)
  | Some existingEvent =>
      let updated := updatedEvent existingEvent eventUpdate in
      (Some updated, with_events (mapSet id updated (events st)) (eventCurrentId st) st)
  end.

Definition deleteEvent (id : Z) (st : MemStorage) : bool * MemStorage :=
  (mapHas id (events st),
   with_events (mapDelete id (events st)) (eventCurrentId st) st).

(** *** Participant methods *)

Definition createParticipant (insertParticipant : InsertParticipant) (now : Z)
    (st : MemStorage) : Participant * MemStorage :=
  let id := participantCurrentId st in
  let participant :=
    mkParticipant id (ip_eventId insertParticipant) (ip_sessionId insertParticipant)
      (mjoin (ip_language insertParticipant)) now in
  (participant,
   with_participants (mapSet id participant (participants st)) (id + 1) st).

Definition getParticipant (id : Z) (st : MemStorage) : option Participant :=
  mapGet id (participants st).

Definition getParticipantBySessionId (sid : jsstring) (st : MemStorage)
    : option Participant :=
  find (λ participant, bool_decide (p_sessionId participant = sid))
    (snd <$> participants st).

Definition getParticipantsByEvent (eventId : Z) (st : MemStorage) : list Participant :=
  filter (λ participant, p_eventId participant = eventId) (snd <$> participants st).

Definition updateParticipant (id : Z) (participantUpdate : PartialInsertParticipant)
    (st : MemStorage) : option Participant * MemStorage :=
  match mapGet id (participants st) with
  | None => (None, st)
  | Some existingParticipant =>
      let updated := updatedParticipant existingParticipant participantUpdate in
      (Some updated,
       with_participants (mapSet id updated (participants st))
         (participantCurrentId st) st)
  end.

(** *** Translation methods *)

Definition createTranslation (insertTranslation : InsertTranslation) (now : Z)
    (st : MemStorage) : Translation * MemStorage :=
  let id := translationCurrentId st in
  let translation :=
    mkTranslation id (it_eventId insertTranslation)
      (it_originalText insertTranslation)
      (mjoin (it_translatedText insertTranslation))
      (it_language insertTranslation) now in
  (translation,
   with_translations (mapSet id translation (translations st)) (id + 1) st).

(** ascending [timestamp] *)
Definition getTranslationsByEvent (eventId : Z) (st : MemStorage) : list Translation :=
  sortBy (λ a b, timestamp b <? timestamp a)
    (filter (λ translation, tr_eventId translation = eventId)
       (snd <$> translations st)).

(** descending [timestamp], then [slice(0, limit)] *)
Definition getRecentTranslations (eventId : Z) (limit : nat) (st : MemStorage)
    : list Translation :=
  take limit
    (sortBy (λ a b, timestamp a <? timestamp b)
       (filter (λ translation, tr_eventId translation = eventId)
          (snd <$> translations st))).

End Store.

(** * The HTTP routes

    The handlers [registerRoutes] gives to [app.post], [app.get],
    [app.put] and [app.delete], over the store.  A request is given
    decoded: a path or query number is what [parseInt] made of it
    ([None] is [NaN]; for the query, also a parameter that is missing
    or empty), a body is the outcome of the schema's [parse]. *)

Module Api.

(** What a [catch] clause can be handed. *)
Inductive thrown :=
  | ErrorInstance (message : jsstring)
  | StringValue (s : jsstring)
  | ObjectValue (message : option jsstring)
  | OtherValue.

(** [getErrorMessage]; an [ObjectValue] carries its [message] when it
    has one that is a string. *)
Definition getErrorMessage (error : thrown) : jsstring :=
  match error with
  | ErrorInstance message => message
  | StringValue s => s
  | ObjectValue (Some message) => message
  | _ => Unknown_error
  end.

Inductive request :=
  | POST_events (body : apiResult Store.InsertEvent)
  | GET_events (organizerId : option Z)
  | GET_event (id : option Z)
  | PUT_event (id : option Z) (body : apiResult Store.PartialInsertEvent)
  | DELETE_event (id : option Z)
  | POST_participants (body : apiResult Store.InsertParticipant)
  | GET_participants (eventId : option Z)
  | GET_translations (eventId : option Z).

(** What [res.json] is given. *)
Inductive json :=
  | AnEvent (event : Store.Event)
  | Events (events : list Store.Event)
  | AParticipant (participant : Participant)
  | Participants (participants : list Participant)
  | Translations (translations : list Translation)
  | AMessage (message : jsstring)
  | Success.

Record response := mkResponse {
  statusCode : nat;
  body : json
}.

Definition Event_not_found : jsstring := Eval cbv in str "Event not found".

Definition notFound : response := mkResponse 404 (AMessage Event_not_found).

(** [status(400)] with the message of what [parse] threw, a
    [ZodError]. *)
Definition badRequest (message : jsstring) : response :=
  mkResponse 400 (AMessage (getErrorMessage (ErrorInstance message))).

Definition handle (now : Z) (r : request) (st : Store.MemStorage)
    : response * Store.MemStorage :=
  match r with
  | POST_events (Rejected message) => (badRequest message, st)
  | POST_events (Resolved validatedData) =>
      let '(newEvent, st) := Store.createEvent validatedData now st in
      (mkResponse 201 (AnEvent newEvent), st)
  | GET_events organizerId =>
      match truthyNumber organizerId with
      | Some organizer =>
          (mkResponse 200 (Events (Store.getEventsByOrganizer organizer st)), st)
      | None => (mkResponse 200 (Events (Store.getAllEvents st)), st)
      end
  | GET_event id =>
      match id ≫= λ eventId, Store.getEvent eventId st with
      | Some event => (mkResponse 200 (AnEvent event), st)
      | None => (notFound, st)
      end
  | PUT_event _ (Rejected message) => (badRequest message, st)
  | PUT_event id (Resolved validatedData) =>
      match id with
      | Some eventId =>
          match Store.updateEvent eventId validatedData st with
          | (Some updatedEvent, st) => (mkResponse 200 (AnEvent updatedEvent), st)
          | (None, st) => (notFound, st)
          end
      | None => (notFound, st)
      end
  | DELETE_event id =>
      match id with
      | Some eventId =>
          match Store.deleteEvent eventId st with
          | (true, st) => (mkResponse 200 Success, st)
          | (false, st) => (notFound, st)
          end
      | None => (notFound, st)
      end
  | POST_participants (Rejected message) => (badRequest message, st)
  | POST_participants (Resolved validatedData) =>
      let '(newParticipant, st) := Store.createParticipant validatedData now st in
      (mkResponse 201 (AParticipant newParticipant), st)
  | GET_participants eventId =>
      (mkResponse 200
         (Participants
            (default [] ((λ id, Store.getParticipantsByEvent id st) <$> eventId))),
       st)
  | GET_translations eventId =>
      (mkResponse 200
         (Translations
            (default [] ((λ id, Store.getTranslationsByEvent id st) <$> eventId))),
       st)
  end.

(** Requests served in turn, each with the time it is served at. *)
Fixpoint serve (requests : list (Z * request)) (st : Store.MemStorage)
    : list response * Store.MemStorage :=
  match requests with
  | [] => ([], st)
  | (now, r) :: requests =>
      let '(answer, st) := handle now r st in
      let '(answers, st) := serve requests st in
      (answer :: answers, st)
  end.

End Api.

(** * The client's connection

    The hook [useWebSocket] as a transition system.  The browser's
    [WebSocket] objects and timers are numbered in the order the hook
    makes them.  The properties of the hook ([autoReconnect],
    [reconnectAttempts]) do not change while it is mounted;
    [constructs] says whether [new WebSocket(url)] returns for its
    [url] rather than throws.  The callbacks the hook is given
    ([onOpen], [onMessage], [onClose], [onError]) are the caller's and
    are left out. *)

Module Hook.

(** The second argument of a [setTimeout]: [Backoff n] is
    [reconnectInterval * Math.pow(1.5, n)], [Flat] is
    [reconnectInterval]. *)
Inductive delay :=
  | Backoff (exponent : nat)
  | Flat.

Inductive effect :=
  | NewSocket (k : nat)
  | CloseSocket (k : nat)
  | SetTimeout (timer : nat) (d : delay)
  | ClearTimeout (timer : nat).

Record Props := mkProps {
  autoReconnect : bool;
  reconnectAttempts : Z;
  constructs : bool
}.

Record State := mkState {
  sockets : list readyState;
  ws_current : option nat;
  reconnectCount : nat;
  reconnectTimeoutRef : option nat;
  pending : list bool;
  connected : option nat;
  error : bool;
  effects : list effect
}.

(** The hook before its effect has run. *)
Definition initial : State := mkState [] None 0 None [] None false [].

(** What happens to the hook: its functions are called, an event of one
    of its sockets is delivered, a timer goes off. *)
Inductive event :=
  | Connect
  | Disconnect
  | Opened (k : nat)
  | Received (k : nat)
  | Failed (k : nat)
  | Closed (k : nat)
  | Fired (timer : nat).

Section Mounted.

Variable props : Props.

Definition mayRetry (s : State) : bool :=
  autoReconnect props && (Z.of_nat (reconnectCount s) <? reconnectAttempts props).

(** [reconnectCount.current += 1] and
    [reconnectTimeoutRef.current = setTimeout(() => connect(), d)] *)
Definition retryAfter (d : delay) (s : State) : State :=
  let timer := length (pending s) in
  mkState (sockets s) (ws_current s) (S (reconnectCount s)) (Some timer)
    (pending s ++ [true]) (connected s) (error s)
    (effects s ++ [SetTimeout timer d]).

Definition currentIsOpen (s : State) : bool :=
  bool_decide (ws_current s ≫= (λ k, sockets s !! k) = Some OPEN).

Definition connect (s : State) : State :=
  if currentIsOpen s then s
  else if constructs props then
    let k := length (sockets s) in
    mkState (sockets s ++ [CONNECTING]) (Some k) (reconnectCount s)
      (reconnectTimeoutRef s) (pending s) (connected s) (error s)
      (effects s ++ [NewSocket k])
  else
    let s := mkState (sockets s) (ws_current s) (reconnectCount s)
               (reconnectTimeoutRef s) (pending s) (connected s) true (effects s) in
    if mayRetry s then retryAfter Flat s else s.

Definition disconnect (s : State) : State :=
  let s :=
    match reconnectTimeoutRef s with
    | Some timer =>
        mkState (sockets s) (ws_current s) (reconnectCount s) None
          (<[timer := false]> (pending s)) (connected s) (error s)
          (effects s ++ [ClearTimeout timer])
    | None => s
    end in
  match ws_current s with
  | Some k =>
      if currentIsOpen s then
        mkState (<[k := CLOSING]> (sockets s)) (ws_current s) (reconnectCount s)
          (reconnectTimeoutRef s) (pending s) (connected s) (error s)
          (effects s ++ [CloseSocket k])
      else s
  | None => s
  end.

(** [socket.onopen] *)
Definition onopen (k : nat) (s : State) : State :=
  mkState (sockets s) (ws_current s) 0 (reconnectTimeoutRef s) (pending s)
    (Some k) false (effects s).

(** [socket.onclose] *)
Definition onclose (s : State) : State :=
  let s := mkState (sockets s) (ws_current s) (reconnectCount s)
             (reconnectTimeoutRef s) (pending s) None (error s) (effects s) in
  if mayRetry s then retryAfter (Backoff (reconnectCount s)) s else s.

(** [socket.onerror] *)
Definition onerror (s : State) : State :=
  mkState (sockets s) (ws_current s) (reconnectCount s) (reconnectTimeoutRef s)
    (pending s) (connected s) true (effects s).

Definition setSocket (k : nat) (r : readyState) (s : State) : State :=
  mkState (<[k := r]> (sockets s)) (ws_current s) (reconnectCount s)
    (reconnectTimeoutRef s) (pending s) (connected s) (error s) (effects s).

(** An event of a socket is delivered in the states the browser
    delivers it in; a timer goes off once, unless it was cleared. *)
Definition step (s : State) (e : event) : State :=
  match e with
  | Connect => connect s
  | Disconnect => disconnect s
  | Opened k =>
      if decide (sockets s !! k = Some CONNECTING)
      then onopen k (setSocket k OPEN s) else s
  | Received k => s
  | Failed k =>
      match sockets s !! k with
      | Some CLOSED | None => s
      | Some _ => onerror s
      end
  | Closed k =>
      match sockets s !! k with
      | Some CLOSED | None => s
      | Some _ => onclose (setSocket k CLOSED s)
      end
  | Fired timer =>
      if decide (pending s !! timer = Some true)
      then connect
             (mkState (sockets s) (ws_current s) (reconnectCount s)
                (reconnectTimeoutRef s) (<[timer := false]> (pending s))
                (connected s) (error s) (effects s))
      else s
  end.

Definition run (s : State) (events : list event) : State := foldl step s events.

End Mounted.

(** The delays of the timers set in a trace. *)
Definition timeouts (Δ : list effect) : list delay :=
  omap (λ e, match e with SetTimeout _ d => Some d | _ => None end) Δ.

(** The effects of [s'] that [s] did not have yet. *)
Definition added (s s' : State) : list effect :=
  drop (length (effects s)) (effects s').

Definition isOpened (e : event) : bool :=
  match e with Opened _ => true | _ => false end.

End Hook.

(** * The participant's page

    The two updates of the list of translations that the page shows,
    from the handler of the incoming frames. *)

Module Page.

(** [case "recent_translations"]: the list is replaced by the
    translations of the frame, oldest first. *)
Definition onRecentTranslations (translations : list Translation) : list Translation :=
  sortBy (λ a b, timestamp b <? timestamp a) translations.

(** [case "translation"]: the translation is added at the end unless
    the list has one with its id. *)
Definition onTranslation (prev : list Translation) (incoming : Translation)
    : list Translation :=
  if existsb (λ t, bool_decide (tr_id t = tr_id incoming)) prev then prev
  else prev ++ [incoming].

Inductive frame :=
  | RecentTranslations (translations : list Translation)
  | ATranslation (incoming : Translation).

Definition receive (shown : list Translation) (f : frame) : list Translation :=
  match f with
  | RecentTranslations translations => onRecentTranslations translations
  | ATranslation incoming => onTranslation shown incoming
  end.

End Page.

(** ** Well-formed stores *)

(** The rows of a table sit under their own ids, one row per id, and
    the ids are below the counter of the table. *)
Definition tableOk {V} (idOf : V → Z) (m : list (Z * V)) (next : Z) : Prop :=
  NoDup m.*1 ∧ Forall (λ kv, idOf kv.2 = kv.1 ∧ kv.1 < next) m.

Definition wellFormed (st : Store.MemStorage) : Prop :=
  tableOk Store.u_id (Store.users st) (Store.userCurrentId st)
  ∧ tableOk Store.e_id (Store.events st) (Store.eventCurrentId st)
  ∧ tableOk p_id (Store.participants st) (Store.participantCurrentId st)
  ∧ tableOk tr_id (Store.translations st) (Store.translationCurrentId st).

(** The events that the answers to [POST /api/events] report as
    created. *)
Definition createdEvents (answers : list Api.response) : list Store.Event :=
  omap (λ answer,
          match Api.body answer with
          | Api.AnEvent event =>
              if (Api.statusCode answer =? 201)%nat then Some event else None
          | _ => None
          end) answers.

(** An update that names no field. *)
Definition noChange : Store.PartialInsertEvent :=
  Store.mkPartialInsertEvent None None None None None None None None None None.

(** ** A concrete event

    The services of the examples: transcription answers "Hello", the
    translation into French fails, the translation into German comes
    back with no content, any other translation is "Hola", and speech
    synthesis succeeds. *)

Module Example.

Definition Hello : jsstring := Eval cbv in str "Hello".
Definition Hola : jsstring := Eval cbv in str "Hola".
Definition Spanish : jsstring := Eval cbv in str "Spanish".
Definition French : jsstring := Eval cbv in str "French".
Definition German : jsstring := Eval cbv in str "German".
Definition sound : jsstring := Eval cbv in str "UklGRg==".

Definition nanoid (h : list effect) : jsstring := str "V1StGXR8_Z5jdHi6B-myT".
Definition Date_now (h : list effect) : Z := 1700000000000 + Z.of_nat (length h).
Definition base64Length (a : jsstring) : nat := (length a * 3 / 4)%nat.
Definition whisper (h : list effect) (a : jsstring) : apiResult jsstring :=
  Resolved Hello.
Definition chat (h : list effect) (text lang : jsstring)
    : apiResult (option jsstring) :=
  if decide (lang = French) then Rejected (str "model overloaded")
  else if decide (lang = German) then Resolved None
  else Resolved (Some Hola).
Definition speech (h : list effect) (text voice : jsstring) : apiResult jsstring :=
  Resolved sound.
Definition toLowerCase (s : jsstring) : jsstring :=
  (λ c, if ((65 <=? c) && (c <=? 90))%N then (c + 32)%N else c) <$> s.

(** A transcription service that hears nothing. *)
Definition silence (h : list effect) (a : jsstring) : apiResult jsstring :=
  Resolved (str "  ").

Definition conference : Event :=
  mkEvent 1 (str "Conference") None 7 [English; Spanish; French] (Some true).

Definition store : MemStorage := mkMemStorage {[1 := conference]} [] [] 1 1.

(** A transport connects and joins event 1. *)
Definition joins (w : nat) (sid : string) (lang : option jsstring)
    (audio organizer : option bool) : list input :=
  [Connection w;
   Message w (Parsed (join (Some 1) (Some (str sid)) lang audio organizer))].

(** A payload of 160 characters, and the frame that submits it for
    event 1 on transport 1. *)
Definition segment : jsstring := replicate 160 65%N.

Definition spoken : input :=
  Message 1 (Parsed (audio_data (Some 1) (AudioString segment))).

(** The organizer and one listener each in Spanish and French. *)
Definition threeLanguages : list input :=
  joins 1 "organizer-1" None None (Some true)
  ++ joins 2 "p-es" (Some Spanish) None None
  ++ joins 3 "p-fr" (Some French) None None.

(** A in English, B in Spanish with audio, C in Spanish without; A is
    the organizer. *)
Definition scenario : list input :=
  joins 1 "A" None None (Some true)
  ++ joins 2 "B" (Some Spanish) (Some true) None
  ++ joins 3 "C" (Some Spanish) None None.

(** The organizer and two Spanish listeners who both enabled audio. *)
Definition twoListeners : list input :=
  joins 1 "organizer-1" None None (Some true)
  ++ joins 2 "p-1" (Some Spanish) (Some true) None
  ++ joins 3 "p-2" (Some Spanish) (Some true) None.

(** The organizer and one listener in German. *)
Definition germanListener : list input :=
  joins 1 "organizer-1" None None (Some true)
  ++ joins 2 "p-de" (Some German) None None.

(** One session joining twice, on transport 1 and then on transport 2. *)
Definition rejoin : list input :=
  joins 1 "s" (Some Spanish) None None ++ joins 2 "s" (Some Spanish) None None.


(** The organizer of event 1 on transport 1, a Spanish listener of
    event 1 on transport 2, and the join of transport 2 to event 2 under
    the session id of the organizer. *)
Definition borrowed : list input :=
  joins 1 "organizer-1" None None (Some true)
  ++ joins 2 "p-es" (Some Spanish) None None
  ++ [Message 2 (Parsed (join (Some 2) (Some (str "organizer-1")) (Some Spanish)
                           None None))].

(** A speech service whose first call fails. *)
Definition hoarse (h : list effect) (text voice : jsstring) : apiResult jsstring :=
  if existsb (λ e, match e with ESpeech _ _ _ => true | _ => false end) h
  then Resolved sound
  else Rejected (str "quota exceeded").

(** A transcription service that is out of order. *)
Definition deaf (h : list effect) (a : jsstring) : apiResult jsstring :=
  Rejected (str "timeout").

(** A chunk of ten characters. *)
Definition blip : jsstring := replicate 10 65%N.

(** The organizer alone, and a second transport that has connected. *)
Definition lobby : list input :=
  joins 1 "organizer-1" None None (Some true) ++ [Connection 2].

(** The body of a request for a new event, an update that renames an
    event, and the body of a request for a new participant. *)
Definition proposal : Store.InsertEvent :=
  Store.mkInsertEvent (str "Conference") None None None None None 7
    (Some [English; Spanish]) None (Some (Some true)).

Definition renaming : Store.PartialInsertEvent :=
  Store.mkPartialInsertEvent (Some (str "Summit")) None None None None None None
    None None None.

Definition visitor : Store.InsertParticipant :=
  Store.mkInsertParticipant 1 (str "p-es") (Some (Some Spanish)).

(** The body of a request for a participant of an event 7. *)
Definition stranger : Store.InsertParticipant :=
  Store.mkInsertParticipant 7 (str "p-7") None.

(** A store with one event, made by one request. *)
Definition opened : Store.MemStorage :=
  (Api.handle 1700000000000 (Api.POST_events (Resolved proposal)) Store.new).2.

(** The hook with the properties it has by default, for a [url] that
    is well formed; a server that cannot be reached; a server that
    answers. *)
Definition defaults : Hook.Props := Hook.mkProps true 5 true.

Definition outage : list Hook.event :=
  [Hook.Connect; Hook.Failed 0; Hook.Closed 0; Hook.Fired 0; Hook.Failed 1;
   Hook.Closed 1].

Definition online : Hook.State :=
  Hook.run defaults Hook.initial [Hook.Connect; Hook.Opened 0].

End Example.

(** * The server *)

Section Server.

(** The collaborators outside the repository.  Each sees the history
    so far. *)
Variable nanoid : list effect → jsstring.
Variable Date_now : list effect → Z.
(** [Buffer.from(s, 'base64').length] *)
Variable base64Length : jsstring → nat.
(** [openai.audio.transcriptions.create], its [.text] *)
Variable whisper : list effect → jsstring → apiResult jsstring.
(** [openai.chat.completions.create], its
    [.choices[0].message.content] ([None] is [null]) *)
Variable chat : list effect → jsstring → jsstring → apiResult (option jsstring).
(** [openai.audio.speech.create], base64 of the body; arguments are
    the input and the voice *)
Variable speech : list effect → jsstring → jsstring → apiResult jsstring.
Variable toLowerCase : jsstring → jsstring.

(** ** Storage writes *)

Definition createParticipant (eid : Z) (sid : jsstring) (lang : jsstring) (s : State)
    : Participant * State :=
  let st := storage s in
  let id := participantCurrentId st in
  let participant := mkParticipant id eid sid (Some lang) (Date_now (trace s)) in
  (participant,
   emit (ECreateParticipant participant)
     (with_storage (λ st, mkMemStorage (events st)
        (mapSet id participant (participants st)) (translations st)
        (id + 1) (translationCurrentId st)) s)).

Definition createTranslation (eid : Z) (original : jsstring)
    (translated : option jsstring) (lang : jsstring) (s : State)
    : Translation * State :=
  let st := storage s in
  let id := translationCurrentId st in
  let t := mkTranslation id eid original translated lang (Date_now (trace s)) in
  (t,
   emit (ECreateTranslation t)
     (with_storage (λ st, mkMemStorage (events st) (participants st)
        (mapSet id t (translations st))
        (participantCurrentId st) (id + 1)) s)).

(** ** The OpenAI wrappers *)

Definition rethrow (what : string) (message : jsstring) : jsstring :=
  str what ++ orString (Some message) Unknown_error.

(** The temporary file the audio goes through is not modelled. *)
Definition transcribeAudio (audioBase64 : jsstring) (s : State)
    : apiResult jsstring * State :=
  if (base64Length audioBase64 <? 100)%nat then (Resolved [], s)
  else
    let r := whisper (trace s) audioBase64 in
    let s := emit (EWhisper audioBase64 r) s in
    match r with
    | Resolved text => (Resolved text, s)
    | Rejected m => (Rejected (rethrow "Failed to transcribe audio: " m), s)
    end.

Definition translateText (text targetLanguage : jsstring) (s : State)
    : apiResult jsstring * State :=
  let r := chat (trace s) text targetLanguage in
  let s := emit (EChat text targetLanguage r) s in
  match r with
  | Resolved content => (Resolved (orString content text), s)
  | Rejected m => (Rejected (rethrow "Failed to translate text: " m), s)
  end.

(** The third parameter is accepted and not used. *)
Definition generateSpeech (text voice lang : jsstring) (s : State)
    : apiResult jsstring * State :=
  let r := speech (trace s) text voice in
  let s := emit (ESpeech text voice r) s in
  match r with
  | Resolved audio => (Resolved audio, s)
  | Rejected m => (Rejected (rethrow "Failed to generate speech: " m), s)
  end.

(** ** [case 'join'] *)

(** The presence push: [participant_count] to every open transport of
    the group. *)
Definition broadcastCount (connections : list EventConnection) (s : State) : State :=
  let participantCount := length (filter (λ c, isOrganizer c = false) connections) in
  foldl (λ s conn,
           if isOPEN (ws conn) s
           then ws_send (ws conn) (participant_count participantCount) s
           else s)
        s connections.

(** "Check if session already exists and remove old connection if
    needed". *)
Definition supersede (eid : Z) (sid : jsstring) (s : State) : State :=
  match activeConnections s !! eid with
  | None => s
  | Some connections =>
      match findIndex (λ c, bool_decide (sessionId c = sid)) connections with
      | None => s
      | Some existingConnectionIndex =>
          match connections !! existingConnectionIndex with
          | None => s
          | Some oldConnection =>
              let s := if isOPEN (ws oldConnection) s
                       then ws_close (ws oldConnection) s else s in
              with_connections
                (<[eid := splice1 existingConnectionIndex connections]>) s
          end
      end
  end.

Definition pushConnection (eid : Z) (c : EventConnection) (s : State) : State :=
  with_connections (alter (λ l, l ++ [c]) eid) s.

Definition ensureGroup (eid : Z) (s : State) : State :=
  match activeConnections s !! eid with
  | Some _ => s
  | None => with_connections (<[eid := []]>) s
  end.

Definition setVars (w : nat) (sid : jsstring) (eid : Z) (lang : jsstring)
    (audio : bool) (s : State) : State :=
  with_sockets (alter (λ k, mkSocket (state k) sid eid lang audio) w) s.

(** The registry part of the join, which runs without suspension. *)
Definition register (w : nat) (eid : Z) (sid lang : jsstring)
    (audio organizer : bool) (s : State) : State :=
  pushConnection eid (mkEventConnection w lang sid audio organizer)
    (supersede eid sid (ensureGroup eid (setVars w sid eid lang audio s))).

Definition resolveSessionId (sid : option jsstring) (s : State) : jsstring * State :=
  match sid with
  | Some (c :: r) => (c :: r, s)
  | _ => let id := nanoid (trace s) in (id, emit (ENanoid id) s)
  end.

(** The participant record, then what the joiner is told, then the
    presence push.  The code awaits the store at each of these; as a
    step is atomic here, no other frame is handled between the look-up
    of the participant and its creation, so nothing is stated of how
    many rows a session gets when joins overlap. *)
Definition announceJoin (w : nat) (eid : Z) (sid lang : jsstring)
    (organizer : bool) (s : State) : State :=
  let s :=
    if organizer then s
    else match getParticipantBySessionId sid (storage s) with
         | Some _ => s
         | None => (createParticipant eid sid lang s).2
         end in
  let s := ws_send w (recent_translations (getRecentTranslations eid 10 (storage s))) s in
  let s :=
    match getEvent eid (storage s) with
    | Some event => ws_send w (event_info event) s
    | None => ws_send w (error (Event_not_found eid)) s
    end in
  let s := ws_send w (session_joined sid eid lang organizer) s in
  broadcastCount (default [] (activeConnections s !! eid)) s.

Definition handleJoin (w : nat) (eventId : option Z) (sid lang : option jsstring)
    (audio organizer : option bool) (s : State) : State :=
  match truthyNumber eventId with
  | None => ws_send w (error Missing_eventId_in_join_request) s
  | Some eid =>
      let '(sid, s) := resolveSessionId sid s in
      let lang := orString lang English in
      let audio := default false audio in
      let organizer := default false organizer in
      announceJoin w eid sid lang organizer
        (register w eid sid lang audio organizer s)
  end.

(** ** [case 'update_language'] and [case 'toggle_audio'] *)

Definition setLanguage (lang : jsstring) (c : EventConnection) : EventConnection :=
  mkEventConnection (ws c) lang (sessionId c) (enableAudio c) (isOrganizer c).

Definition setEnableAudio (audio : bool) (c : EventConnection) : EventConnection :=
  mkEventConnection (ws c) (language c) (sessionId c) audio (isOrganizer c).

(** [connections[connectionIndex] = f(connections[connectionIndex])]
    for the entry of the session, when there is one. *)
Definition updateEntry (f : EventConnection → EventConnection) (eid : Z)
    (sid : jsstring) (s : State) : State :=
  match activeConnections s !! eid with
  | None => s
  | Some connections =>
      match findIndex (λ c, bool_decide (sessionId c = sid)) connections with
      | None => s
      | Some connectionIndex =>
          with_connections (<[eid := alter f connectionIndex connections]>) s
      end
  end.

Definition handleUpdateLanguage (w : nat) (k : Socket) (lang : jsstring) (s : State) : State :=
  let s := setVars w (var_sessionId k) (var_eventId k) lang (var_enableAudio k) s in
  let s := updateEntry (setLanguage lang) (var_eventId k) (var_sessionId k) s in
  match getParticipantBySessionId (var_sessionId k) (storage s) with
  | Some participant => with_storage (updateParticipant (p_id participant) lang) s
  | None => s
  end.

Definition handleToggleAudio (w : nat) (k : Socket) (audio : bool) (s : State) : State :=
  let s := setVars w (var_sessionId k) (var_eventId k) (var_language k) audio s in
  updateEntry (setEnableAudio audio) (var_eventId k) (var_sessionId k) s.

(** ** [case 'audio_data'] *)

(** The body of the loop over [clientsForLanguage]. *)
Definition deliver (transcription translatedText targetLanguage : jsstring)
    (translationRecord : Translation) (s : State) (client : EventConnection) : State :=
  if isOPEN (ws client) s then
    let s := ws_send (ws client) (translation translationRecord transcription English) s in
    if enableAudio client then
      match generateSpeech translatedText nova (toLowerCase (take 2 targetLanguage)) s with
      | (Resolved audioBase64, s) =>
          ws_send (ws client) (audio_translation audioBase64 translatedText) s
      | (Rejected _, s) => s
      end
    else s
  else s.

(** One element of [translationPromises]. *)
Definition languageJob (audioEventId : Z) (transcription : jsstring)
    (eventConnections : list EventConnection) (targetLanguage : jsstring)
    (s : State) : jobResult * State :=
  match translateText transcription targetLanguage s with
  | (Rejected m, s) => (mkJobResult targetLanguage false (Some m), s)
  | (Resolved translatedText, s) =>
      let '(translationRecord, s) :=
        createTranslation audioEventId transcription (Some translatedText)
          targetLanguage s in
      let clientsForLanguage :=
        filter (λ c, language c = targetLanguage) eventConnections in
      (mkJobResult targetLanguage true None,
       foldl (deliver transcription translatedText targetLanguage translationRecord)
         s clientsForLanguage)
  end.

(** [Promise.allSettled(translationPromises)].  The code starts the
    jobs together and they take turns at their awaits; here they run
    one after the other, in the order of the list.  What is stated of
    the calls and frames of different languages is stated up to their
    order. *)
Fixpoint runJobs (job : jsstring → State → jobResult * State)
    (targets : list jsstring) (s : State) : list jobResult * State :=
  match targets with
  | [] => ([], s)
  | targetLanguage :: rest =>
      let '(r, s) := job targetLanguage s in
      let '(rs, s) := runJobs job rest s in
      (r :: rs, s)
  end.

Definition sendOriginal (translationRecord : Translation) (transcription : jsstring)
    (s : State) (client : EventConnection) : State :=
  if isOPEN (ws client) s
  then ws_send (ws client) (translation translationRecord transcription English) s
  else s.

(** From the record of the original to the completion status. *)
Definition fanOut (w : nat) (audioEventId : Z) (transcription : jsstring)
    (s : State) : State :=
  let '(translationRecord, s) :=
    createTranslation audioEventId transcription None English s in
  let s := ws_send w (processing_status transcribed Audio_transcribed_successfully
                        (Some transcription) None) s in
  let eventConnections := default [] (activeConnections s !! audioEventId) in
  let uniqueLanguages := uniqueOf (language <$> eventConnections) in
  let clientsForEnglish := filter (λ c, language c = English) eventConnections in
  let s := foldl (sendOriginal translationRecord transcription) s clientsForEnglish in
  let '(translationResults, s) :=
    runJobs (languageJob audioEventId transcription eventConnections)
      (filter (λ lang, lang ≠ English) uniqueLanguages) s in
  let successful := length (filter (λ r, success r = true) translationResults) in
  let failed := length (filter (λ r, success r = false) translationResults) in
  ws_send w (processing_status complete (Processing_complete successful failed)
               (Some transcription)
               (Some (mkDetails successful failed (length uniqueLanguages)))) s.

Definition isEmptyTranscription (transcription : jsstring) : bool :=
  bool_decide (transcription = []) || (length (trim transcription) =? 0)%nat.

(** The [try] block of the case. *)
Definition processAudio (w : nat) (audioEventId : Z) (audioBase64 : jsstring)
    (s : State) : State :=
  if (length audioBase64 <? 50)%nat then
    ws_send w (processing_status skipped Audio_chunk_too_small None None) s
  else
    let s := ws_send w (processing_status processing Audio_received None None) s in
    match transcribeAudio audioBase64 s with
    | (Rejected m, s) => ws_send w (error (Thrown m)) s
    | (Resolved transcription, s) =>
        if isEmptyTranscription transcription then
          ws_send w (processing_status complete No_speech_detected None None) s
        else fanOut w audioEventId transcription s
    end.

(** [activeConnections.get(audioEventId)?.find(c => c.sessionId === sessionId)] *)
Definition senderConnection (audioEventId : Z) (sid : jsstring) (s : State)
    : option EventConnection :=
  activeConnections s !! audioEventId
    ≫= find (λ c, bool_decide (sessionId c = sid)).

Definition handleAudioData (w : nat) (k : Socket) (eventId : option Z)
    (audioBase64 : audioField) (s : State) : State :=
  match truthyNumber eventId with
  | None => ws_send w (error Missing_eventId_or_audio_data) s
  | Some audioEventId =>
      match audioBase64 with
      | AudioAbsent | AudioNotString false | AudioString [] =>
          ws_send w (error Missing_eventId_or_audio_data) s
      | AudioNotString true => ws_send w (error Audio_data_must_be_a_string) s
      | AudioString audio =>
          match getEvent audioEventId (storage s) with
          | None => ws_send w (error (Event_not_found audioEventId)) s
          | Some _ =>
              match senderConnection audioEventId (var_sessionId k) s with
              | Some (mkEventConnection _ _ _ _ true) =>
                  processAudio w audioEventId audio s
              | _ => ws_send w (error Only_organizers_can_broadcast_audio) s
              end
          end
      end
  end.

(** ** [ws.on('message')] *)

Definition handleMessage (w : nat) (k : Socket) (f : frame) (s : State) : State :=
  match f with
  | NotJSON => ws_send w (error Invalid_message_format) s
  | Parsed (join eventId sid lang audio organizer) =>
      handleJoin w eventId sid lang audio organizer s
  | Parsed (update_language lang) => handleUpdateLanguage w k lang s
  | Parsed (toggle_audio audio) => handleToggleAudio w k audio s
  | Parsed (audio_data eventId audioBase64) => handleAudioData w k eventId audioBase64 s
  | Parsed unknown_type => s
  end.

(** ** [ws.on('close')] *)

Definition handleClose (k : Socket) (s : State) : State :=
  let eid := var_eventId k in
  if decide (eid = 0) then s
  else
    match activeConnections s !! eid with
    | None => s
    | Some connections =>
        let updatedConnections :=
          filter (λ c, sessionId c ≠ var_sessionId k) connections in
        if (0 <? length updatedConnections)%nat then
          broadcastCount updatedConnections
            (with_connections (<[eid := updatedConnections]>) s)
        else with_connections (delete eid) s
    end.

(** ** The server as a transition system *)


Definition newSocket : Socket := mkSocket OPEN [] 0 English false.

Definition step (s : State) (i : input) : State :=
  match i with
  | Connection w =>
      match sockets s !! w with
      | Some _ => s
      | None =>
          ws_send w connection_established (with_sockets (<[w := newSocket]>) s)
      end
  | Message w f =>
      match sockets s !! w with
      | Some k => if decide (state k = CLOSED) then s else handleMessage w k f s
      | None => s
      end
  | Close w =>
      match sockets s !! w with
      | Some k =>
          if decide (state k = CLOSED) then s
          else handleClose k (with_sockets (alter (setReadyState CLOSED) w) s)
      | None => s
      end
  end.

Definition run (s : State) (inputs : list input) : State := foldl step s inputs.

Definition startUp (st : MemStorage) : State := mkState ∅ ∅ st [].

(** The effects of one step. *)
Definition effectsOf (s : State) (i : input) : list effect :=
  drop (length (trace s)) (trace (step s i)).

(** ** The vocabulary of the statements *)


(** ** Reasoning about traces *)

(** [advance s Δ]: the state [s] after the effects [Δ], nothing else
    changed. *)
Definition advance (s : State) (Δ : list effect) : State :=
  mkState (activeConnections s) (sockets s) (storage s) (trace s ++ Δ).

(** Which transports are open in [s]. *)
Definition opens (s : State) : nat → bool := λ w, isOPEN w s.

Definition sendEffects (op : nat → bool) (w : nat) (m : message) : list effect :=
  if op w then [ESend w m] else [].

(** *** The shape of a delivery *)

Definition speechEffects (w : nat) (translatedText : jsstring)
    (r : apiResult jsstring) : list effect :=
  ESpeech translatedText nova r ::
  match r with
  | Resolved audioBase64 => [ESend w (audio_translation audioBase64 translatedText)]
  | Rejected _ => []
  end.

(** What [deliver] does for one client, given the answer [r] of the
    speech service should it be asked. *)
Definition deliverEffects (op : nat → bool) (transcription translatedText : jsstring)
    (translationRecord : Translation) (c : EventConnection)
    (r : apiResult jsstring) : list effect :=
  if op (ws c) then
    ESend (ws c) (translation translationRecord transcription English) ::
    (if enableAudio c then speechEffects (ws c) translatedText r else [])
  else [].

Fixpoint deliverAll (op : nat → bool) (transcription translatedText : jsstring)
    (translationRecord : Translation) (cs : list EventConnection)
    (rs : list (apiResult jsstring)) : list effect :=
  match cs, rs with
  | c :: cs, r :: rs =>
      deliverEffects op transcription translatedText translationRecord c r
      ++ deliverAll op transcription translatedText translationRecord cs rs
  | _, _ => []
  end.

(** *** The shape of a language job *)

(** [this.translations.set(id, translation)] with
    [id = this.translationCurrentId++]. *)
Definition storeTranslation (t : Translation) (st : MemStorage) : MemStorage :=
  mkMemStorage (events st) (participants st)
    (mapSet (translationCurrentId st) t (translations st))
    (participantCurrentId st) (translationCurrentId st + 1).

Definition put_storage (st : MemStorage) (s : State) : State :=
  with_storage (λ _, st) s.

Inductive JobRun (op : nat → bool) (eid : Z) (t : jsstring)
    (conns : list EventConnection) (l : jsstring)
    : MemStorage → jobResult → list effect → MemStorage → Prop :=
  | job_rejected st m :
      JobRun op eid t conns l st
        (mkJobResult l false (Some (rethrow "Failed to translate text: " m)))
        [EChat t l (Rejected m)] st
  | job_resolved st content ts rs :
      let tt := orString content t in
      let rec := mkTranslation (translationCurrentId st) eid t (Some tt) l ts in
      let clients := filter (λ c, language c = l) conns in
      length rs = length clients →
      JobRun op eid t conns l st (mkJobResult l true None)
        (EChat t l (Resolved content) :: ECreateTranslation rec ::
           deliverAll op t tt rec clients rs)
        (storeTranslation rec st).

Inductive JobsRun (op : nat → bool) (eid : Z) (t : jsstring)
    (conns : list EventConnection)
    : list jsstring → MemStorage → list jobResult → list effect → MemStorage → Prop :=
  | jobs_nil st : JobsRun op eid t conns [] st [] [] st
  | jobs_cons l ls st r Δ st1 rs Δs st2 :
      JobRun op eid t conns l st r Δ st1 →
      JobsRun op eid t conns ls st1 rs Δs st2 →
      JobsRun op eid t conns (l :: ls) st (r :: rs) (Δ ++ Δs) st2.

(** *** The shape of a segment *)

Definition transcribedStatus (t : jsstring) : message :=
  processing_status transcribed Audio_transcribed_successfully (Some t) None.

Definition completion (t : jsstring) (rs : list jobResult) (total : nat) : message :=
  let successful := length (filter (λ r, success r = true) rs) in
  let failed := length (filter (λ r, success r = false) rs) in
  processing_status complete (Processing_complete successful failed) (Some t)
    (Some (mkDetails successful failed total)).

Definition originalEffects (op : nat → bool) (rec : Translation) (t : jsstring)
    (cs : list EventConnection) : list effect :=
  flat_map (λ c, sendEffects op (ws c) (translation rec t English)) cs.

Definition targetsOf (conns : list EventConnection) : list jsstring :=
  filter (λ lang, lang ≠ English) (uniqueOf (language <$> conns)).

Inductive FanOutRun (op : nat → bool) (w : nat) (eid : Z) (t : jsstring)
    (conns : list EventConnection) (st : MemStorage)
    : list effect → MemStorage → Prop :=
  | fan_out_run ts rs Δjobs st' :
      let rec := mkTranslation (translationCurrentId st) eid t None English ts in
      JobsRun op eid t conns (targetsOf conns) (storeTranslation rec st) rs Δjobs st' →
      FanOutRun op w eid t conns st
        (ECreateTranslation rec ::
         sendEffects op w (transcribedStatus t)
         ++ originalEffects op rec t (filter (λ c, language c = English) conns)
         ++ Δjobs
         ++ sendEffects op w (completion t rs (length (uniqueOf (language <$> conns)))))
        st'.

(** *** The outcomes of an [audio_data] frame *)

Definition processingStatus : message :=
  processing_status processing Audio_received None None.

Definition skippedStatus : message :=
  processing_status skipped Audio_chunk_too_small None None.

Definition noSpeech : message :=
  processing_status complete No_speech_detected None None.

(** The frame passes the checks that precede the [try] block. *)
Definition Accepted (s : State) (w : nat) (eid : Z) (a : jsstring) : Prop :=
  ∃ k c, sockets s !! w = Some k ∧ state k ≠ CLOSED ∧ eid ≠ 0 ∧ a ≠ []
         ∧ is_Some (getEvent eid (storage s))
         ∧ senderConnection eid (var_sessionId k) s = Some c
         ∧ isOrganizer c = true.

Definition audioFrame (w : nat) (eventId : option Z) (audioBase64 : audioField) : input :=
  Message w (Parsed (audio_data eventId audioBase64)).

Inductive AudioOutcome (s : State) (w : nat)
    : option Z → audioField → list effect → MemStorage → Prop :=
  | ao_ignored eventId ab :
      AudioOutcome s w eventId ab [] (storage s)
  | ao_refused eventId ab e :
      AudioOutcome s w eventId ab (sendEffects (opens s) w (error e)) (storage s)
  | ao_skipped eid a :
      Accepted s w eid a → (length a < 50)%nat →
      AudioOutcome s w (Some eid) (AudioString a)
        (sendEffects (opens s) w skippedStatus) (storage s)
  | ao_failed eid a m :
      Accepted s w eid a → (50 ≤ length a)%nat →
      AudioOutcome s w (Some eid) (AudioString a)
        (sendEffects (opens s) w processingStatus
         ++ EWhisper a (Rejected m)
         :: sendEffects (opens s) w
              (error (Thrown (rethrow "Failed to transcribe audio: " m))))
        (storage s)
  | ao_small eid a :
      Accepted s w eid a → (50 ≤ length a)%nat → (base64Length a < 100)%nat →
      AudioOutcome s w (Some eid) (AudioString a)
        (sendEffects (opens s) w processingStatus ++ sendEffects (opens s) w noSpeech)
        (storage s)
  | ao_silent eid a t :
      Accepted s w eid a → (50 ≤ length a)%nat →
      isEmptyTranscription t = true →
      AudioOutcome s w (Some eid) (AudioString a)
        (sendEffects (opens s) w processingStatus
         ++ EWhisper a (Resolved t) :: sendEffects (opens s) w noSpeech)
        (storage s)
  | ao_fanout eid a t Δ st' :
      Accepted s w eid a → (50 ≤ length a)%nat →
      isEmptyTranscription t = false →
      FanOutRun (opens s) w eid t (default [] (activeConnections s !! eid))
        (storage s) Δ st' →
      AudioOutcome s w (Some eid) (AudioString a)
        (sendEffects (opens s) w processingStatus ++ EWhisper a (Resolved t) :: Δ)
        st'.

(** ** Observations on a trace *)

Definition chatCalls (Δ : list effect) : list (jsstring * jsstring) :=
  omap (λ e, match e with EChat t l _ => Some (t, l) | _ => None end) Δ.

Definition rejectedChats (Δ : list effect) : list jsstring :=
  omap (λ e, match e with EChat _ l (Rejected _) => Some l | _ => None end) Δ.

Definition speechCalls (Δ : list effect) : list (jsstring * jsstring) :=
  omap (λ e, match e with ESpeech t v _ => Some (t, v) | _ => None end) Δ.

Definition created (Δ : list effect) : list Translation :=
  omap (λ e, match e with ECreateTranslation t => Some t | _ => None end) Δ.

Definition sentTo (w : nat) (Δ : list effect) : list message :=
  omap (λ e, match e with
             | ESend w' m => if decide (w' = w) then Some m else None
             | _ => None
             end) Δ.

Definition isAudio (m : message) : bool :=
  match m with audio_translation _ _ => true | _ => false end.

(** The record is in the store under its id, and the id has been
    handed out. *)
Definition Kept (rec : Translation) (st : MemStorage) : Prop :=
  mapGet (tr_id rec) (translations st) = Some rec
  ∧ tr_id rec < translationCurrentId st.

(** *** The kinds of effect a fan-out has *)

Definition fanOutKind (e : effect) : Prop :=
  match e with
  | ESend _ _ | ESpeech _ _ _ | EChat _ _ _ | ECreateTranslation _ => True
  | _ => False
  end.

(** *** Languages that were served *)

(** The job of language [l] translated, stored and delivered. *)
Definition Served (op : nat → bool) (eid : Z) (t : jsstring)
    (conns : list EventConnection) (l : jsstring) (Δ : list effect)
    (st' : MemStorage) : Prop :=
  ∃ content rec,
    tr_eventId rec = eid ∧ originalText rec = t
    ∧ translatedText rec = Some (orString content t) ∧ tr_language rec = l
    ∧ EChat t l (Resolved content) ∈ Δ
    ∧ ECreateTranslation rec ∈ Δ
    ∧ Kept rec st'
    ∧ ∀ c, c ∈ conns → language c = l → op (ws c) = true →
           ESend (ws c) (translation rec t English) ∈ Δ.

Definition resolvedChats (Δ : list effect) : list (jsstring * jsstring) :=
  omap (λ e, match e with
             | EChat t l (Resolved content) => Some (l, orString content t)
             | _ => None
             end) Δ.

(** The speech calls of a segment: for each translated language, in
    turn, one per open audio-enabled connection of that language. *)
Definition speechPlan (op : nat → bool) (conns : list EventConnection)
    (resolved : list (jsstring * jsstring)) : list (jsstring * jsstring) :=
  flat_map (λ '(l, translated),
              (λ _, (translated, nova)) <$>
                filter (λ c, op (ws c) && enableAudio c = true)
                  (filter (λ c, language c = l) conns))
           resolved.

(** The [audio_translation] frames of a trace, each with the transport
    it was sent to, and the answers of the speech calls that resolved,
    each with the text of its call. *)
Definition audioFrames (Δ : list effect) : list (nat * (jsstring * jsstring)) :=
  omap (λ e, match e with
             | ESend w (audio_translation audioBase64 text) =>
                 Some (w, (audioBase64, text))
             | _ => None
             end) Δ.

Definition resolvedSpeech (Δ : list effect) : list (jsstring * jsstring) :=
  omap (λ e, match e with
             | ESpeech text _ (Resolved audioBase64) => Some (audioBase64, text)
             | _ => None
             end) Δ.

(** What a speech call made for a client leaves in the trace, from the
    text frame that precedes it: the call with its answer [r] and, when
    it resolved, the audio frame to the client's transport. *)
Definition spokenTo (w : nat) (translationRecord : Translation)
    (transcription translatedText : jsstring) (r : apiResult jsstring) : list effect :=
  [ESend w (translation translationRecord transcription English);
   ESpeech translatedText nova r]
  ++ match r with
     | Resolved audioBase64 => [ESend w (audio_translation audioBase64 translatedText)]
     | Rejected _ => []
     end.

(** *** The trace of a segment, taken apart *)

Definition sourceRecord (st : MemStorage) (eid : Z) (t : jsstring) (ts : Z)
    : Translation :=
  mkTranslation (translationCurrentId st) eid t None English ts.

(** Everything up to the first language job. *)
Definition segmentPrefix (op : nat → bool) (w : nat) (a t : jsstring)
    (rec : Translation) (conns : list EventConnection) : list effect :=
  sendEffects op w processingStatus
  ++ [EWhisper a (Resolved t)]
  ++ [ECreateTranslation rec]
  ++ sendEffects op w (transcribedStatus t)
  ++ originalEffects op rec t (filter (λ c, language c = English) conns).

(** *** The completion status *)

(** The [details] of the completion statuses sent to [w]. *)
Definition aggregates (w : nat) (Δ : list effect) : list details :=
  omap (λ e, match e with
             | ESend w' (processing_status complete _ _ (Some d)) =>
                 if decide (w' = w) then Some d else None
             | _ => None
             end) Δ.

(** The claim that the reported total is the number of languages
    attempted, as a property of a step. *)
Definition TotalIsAttempted (s : State) (w : nat) (eid : Z) (a : jsstring) : Prop :=
  ∀ d, d ∈ aggregates w (effectsOf s (audioFrame w (Some eid) (AudioString a))) →
       totalLanguages d
       = size ((list_to_set (language <$> default [] (activeConnections s !! eid))
                : gset jsstring) ∖ {[English]}).

(** *** A resolved translation call and what follows it *)

Definition ServedWith (op : nat → bool) (eid : Z) (t : jsstring)
    (conns : list EventConnection) (l : jsstring) (content : option jsstring)
    (Δ : list effect) (st' : MemStorage) : Prop :=
  ∃ rec,
    tr_eventId rec = eid ∧ originalText rec = t
    ∧ translatedText rec = Some (orString content t) ∧ tr_language rec = l
    ∧ ECreateTranslation rec ∈ Δ
    ∧ Kept rec st'
    ∧ ∀ c, c ∈ conns → language c = l → op (ws c) = true →
           ESend (ws c) (translation rec t English) ∈ Δ.

(** The claim of one synthesis per target language, as a property of a
    step. *)
Definition SynthesizedOncePerLanguage (s : State) (w : nat) (eid : Z)
    (a : jsstring) : Prop :=
  (length (speechCalls (effectsOf s (audioFrame w (Some eid) (AudioString a))))
   ≤ length (targetsOf (default [] (activeConnections s !! eid))))%nat.

Definition isDelivery (m : message) : bool :=
  match m with
  | translation _ _ _ | audio_translation _ _ => true
  | _ => false
  end.

(** The [translation] and [audio_translation] frames sent to [w]. *)
Definition deliveries (w : nat) (Δ : list effect) : list message :=
  omap (λ e, match e with
             | ESend w' m =>
                 if decide (w' = w) then (if isDelivery m then Some m else None)
                 else None
             | _ => None
             end) Δ.

(** ** The registry *)

(** The entries of an event; no entry when the event has no group. *)
Definition group (eid : Z) (s : State) : list EventConnection :=
  default [] (activeConnections s !! eid).

Definition removeFirst (sid : jsstring) (conns : list EventConnection)
    : list EventConnection :=
  match findIndex (λ c, bool_decide (sessionId c = sid)) conns with
  | Some i => splice1 i conns
  | None => conns
  end.

(** The registry after a join, as a function of the registry before. *)
Definition joinGroup (eid : Z) (c : EventConnection)
    (m : gmap Z (list EventConnection)) : gmap Z (list EventConnection) :=
  <[eid := removeFirst (sessionId c) (default [] (m !! eid)) ++ [c]]> m.

(** [s'] differs from [s] by effects and store only. *)
Definition evolves (s s' : State) : Prop :=
  ∃ st' Δ, s' = advance (put_storage st' s) Δ.

(** *** The invariant of the registry *)

(** No group is empty, and no group holds two entries of one session. *)
Definition goodGroups (m : gmap Z (list EventConnection)) : Prop :=
  ∀ eid conns, m !! eid = Some conns →
               conns ≠ [] ∧ NoDup (sessionId <$> conns).

(** *** Supersession *)

(** [k'] is the socket [k] with, at most, its transport closing. *)
Definition sameVars (k k' : Socket) : Prop :=
  var_eventId k' = var_eventId k ∧ var_sessionId k' = var_sessionId k
  ∧ (state k' = state k ∨ state k' = CLOSING).


(** ** Presence *)

(** [connections.filter(c => !c.isOrganizer).length] *)
Definition participantCount (conns : list EventConnection) : nat :=
  length (filter (λ c, isOrganizer c = false) conns).

(** The presence push to the members [conns] of a group. *)
Definition countEffects (op : nat → bool) (conns : list EventConnection)
    : list effect :=
  flat_map (λ c, sendEffects op (ws c) (participant_count (participantCount conns)))
    conns.

(** ** What a joiner is told *)

Definition eventReply (eid : Z) (st : MemStorage) : message :=
  match getEvent eid st with
  | Some event => event_info event
  | None => error (Event_not_found eid)
  end.

(** The frames of [announceJoin]: what the store holds of the event
    for the joiner, the confirmation, and the presence push to the
    members [conns]. *)
Definition joinReplies (op : nat → bool) (w : nat) (eid : Z) (sid lang : jsstring)
    (organizer : bool) (st : MemStorage) (conns : list EventConnection)
    : list effect :=
  sendEffects op w (recent_translations (getRecentTranslations eid 10 st))
  ++ sendEffects op w (eventReply eid st)
  ++ sendEffects op w (session_joined sid eid lang organizer)
  ++ countEffects op conns.

(** The effects of a join other than frames. *)
Definition quiet (e : effect) : Prop :=
  match e with
  | ENanoid _ | EClose _ | ECreateParticipant _ => True
  | _ => False
  end.

(** ** Frames the handlers refuse *)

Inductive Malformed (st : MemStorage) : frame → errorText → Prop :=
  | not_json :
      Malformed st NotJSON Invalid_message_format
  | join_without_event eventId sid lang audio organizer :
      truthyNumber eventId = None →
      Malformed st (Parsed (join eventId sid lang audio organizer))
        Missing_eventId_in_join_request
  | audio_without_event eventId ab :
      truthyNumber eventId = None →
      Malformed st (Parsed (audio_data eventId ab)) Missing_eventId_or_audio_data
  | audio_without_payload eventId ab :
      ab = AudioAbsent ∨ ab = AudioNotString false ∨ ab = AudioString [] →
      Malformed st (Parsed (audio_data eventId ab)) Missing_eventId_or_audio_data
  | audio_not_a_string eid :
      eid ≠ 0 →
      Malformed st (Parsed (audio_data (Some eid) (AudioNotString true)))
        Audio_data_must_be_a_string
  | audio_for_no_event eid c a :
      eid ≠ 0 → getEvent eid st = None →
      Malformed st (Parsed (audio_data (Some eid) (AudioString (c :: a))))
        (Event_not_found eid).

(** ** The participant table *)

(** The store after the participant step of a join at time [now]: a
    record is made for a session that has none, unless the joiner is
    an organizer. *)
Definition recordParticipant (eid : Z) (sid lang : jsstring) (organizer : bool)
    (now : Z) (st : MemStorage) : MemStorage :=
  if organizer then st
  else match getParticipantBySessionId sid st with
       | Some _ => st
       | None =>
           let id := participantCurrentId st in
           mkMemStorage (events st)
             (mapSet id (mkParticipant id eid sid (Some lang) now) (participants st))
             (translations st) (id + 1) (translationCurrentId st)
       end.

Definition sessionsOf (st : MemStorage) : list jsstring :=
  (λ kv, p_sessionId kv.2) <$> participants st.

(** The rows of the participant table are stored under their own ids,
    one row per id. *)
Definition ownIds (m : list (Z * Participant)) : Prop :=
  NoDup m.*1 ∧ Forall (λ kv, p_id kv.2 = kv.1) m.

(** [st'] has what [st] has: the records kept in [st] are kept in
    [st'], and the participants of [st'] have distinct sessions when
    those of [st] do. *)
Definition extends (st st' : MemStorage) : Prop :=
  (NoDup (sessionsOf st) → NoDup (sessionsOf st'))
  ∧ ∀ rec, Kept rec st → Kept rec st'.

(** [s'] comes after [s]: its trace continues that of [s], its store
    extends that of [s], and it keeps the records created in
    between. *)
Definition Grows (s s' : State) : Prop :=
  ∃ Δ, trace s' = trace s ++ Δ
       ∧ extends (storage s) (storage s')
       ∧ ∀ rec, ECreateTranslation rec ∈ Δ → Kept rec (storage s').

Definition recordFree (Δ : list effect) : Prop :=
  ∀ rec, ECreateTranslation rec ∉ Δ.

(** * Proofs *)

Ltac state_eq :=
  unfold put_storage, advance, with_storage; simpl;
  rewrite <- ?app_assoc; reflexivity.

(** ** States that differ by effects *)

Lemma advance_nil s : advance s [] = s.
Proof. destruct s; unfold advance; simpl; by rewrite app_nil_r. Qed.

Lemma advance_advance s Δ1 Δ2 : advance (advance s Δ1) Δ2 = advance s (Δ1 ++ Δ2).
Proof. unfold advance; simpl; by rewrite app_assoc. Qed.

Lemma emit_advance e s : emit e s = advance s [e].
Proof. reflexivity. Qed.

Lemma isOPEN_sockets w s s' : sockets s' = sockets s → isOPEN w s' = isOPEN w s.
Proof. unfold isOPEN, readyStateOf; by intros ->. Qed.

Lemma isOPEN_advance w s Δ : isOPEN w (advance s Δ) = isOPEN w s.
Proof. by apply isOPEN_sockets. Qed.

Lemma isOPEN_with_storage w f s : isOPEN w (with_storage f s) = isOPEN w s.
Proof. by apply isOPEN_sockets. Qed.

Lemma ws_send_advance w m s : ws_send w m s = advance s (sendEffects (opens s) w m).
Proof.
  unfold ws_send, sendEffects, opens; destruct (isOPEN w s); [done|by rewrite advance_nil].
Qed.

Lemma with_storage_advance f s Δ :
  with_storage f (advance s Δ) = advance (with_storage f s) Δ.
Proof. reflexivity. Qed.

Lemma effects_of_advance s s0 Δ i :
  step s i = advance s0 Δ → trace s0 = trace s → effectsOf s i = Δ.
Proof.
  intros H1 H2; unfold effectsOf; rewrite H1; simpl; rewrite H2.
  by rewrite drop_app_length.
Qed.

(** ** The handlers produce the shapes *)

Lemma deliver_advance t tt l rec s c :
  ∃ r, deliver t tt l rec s c = advance s (deliverEffects (opens s) t tt rec c r).
Proof.
  unfold deliver, deliverEffects, opens.
  destruct (isOPEN (ws c) s) eqn:Hop; [|exists (Rejected []); by rewrite advance_nil].
  rewrite ws_send_advance. unfold sendEffects, opens. rewrite Hop.
  destruct (enableAudio c); [|by exists (Rejected [])].
  unfold generateSpeech.
  set (r := speech _ _ _). exists r. rewrite emit_advance, advance_advance.
  destruct r; simpl; [done|].
  rewrite ws_send_advance. unfold sendEffects, opens.
  rewrite isOPEN_advance, Hop. by rewrite advance_advance.
Qed.

Lemma deliver_all_advance t tt l rec cs : ∀ s,
  ∃ rs, length rs = length cs ∧
    foldl (deliver t tt l rec) s cs = advance s (deliverAll (opens s) t tt rec cs rs).
Proof.
  induction cs as [|c cs IH]; intros s; simpl.
  - exists []. by rewrite advance_nil.
  - destruct (deliver_advance t tt l rec s c) as [r ->].
    destruct (IH (advance s (deliverEffects (opens s) t tt rec c r))) as (rs & Hlen & ->).
    exists (r :: rs). split; [simpl; by rewrite Hlen|].
    by rewrite advance_advance.
Qed.

Lemma put_storage_id s : put_storage (storage s) s = s.
Proof. by destruct s. Qed.

Lemma createTranslation_advance eid o tt l s :
  let t := mkTranslation (translationCurrentId (storage s)) eid o tt l
             (Date_now (trace s)) in
  createTranslation eid o tt l s
  = (t, advance (put_storage (storeTranslation t (storage s)) s) [ECreateTranslation t]).
Proof. reflexivity. Qed.

Lemma languageJob_run eid t conns l s :
  ∃ r Δ st',
    languageJob eid t conns l s = (r, advance (put_storage st' s) Δ)
    ∧ JobRun (opens s) eid t conns l (storage s) r Δ st'.
Proof.
  unfold languageJob, translateText.
  set (a := chat _ _ _). rewrite emit_advance.
  destruct a as [m|content].
  - eexists _, _, (storage s). rewrite put_storage_id. split; [done|]. constructor.
  - rewrite createTranslation_advance.
    set (rec := mkTranslation _ _ _ _ _ _).
    destruct (deliver_all_advance t (orString content t) l rec
                (filter (λ c, language c = l) conns)
                (advance (put_storage (storeTranslation rec (storage (advance s [EChat t l (Resolved content)])))
                            (advance s [EChat t l (Resolved content)]))
                         [ECreateTranslation rec])) as (rs & Hlen & ->).
    eexists _, _, _. split.
    + f_equal. state_eq.
    + simpl. by apply job_resolved.
Qed.

Lemma runJobs_run eid t conns targets : ∀ s,
  ∃ rs Δ st',
    runJobs (languageJob eid t conns) targets s = (rs, advance (put_storage st' s) Δ)
    ∧ JobsRun (opens s) eid t conns targets (storage s) rs Δ st'.
Proof.
  induction targets as [|l ls IH]; intros s; simpl.
  - exists [], [], (storage s). rewrite put_storage_id, advance_nil.
    split; [done|constructor].
  - destruct (languageJob_run eid t conns l s) as (r & Δ & st1 & -> & Hjob).
    destruct (IH (advance (put_storage st1 s) Δ)) as (rs & Δs & st2 & -> & Hjobs).
    exists (r :: rs), (Δ ++ Δs), st2. split.
    + f_equal. state_eq.
    + econstructor; [exact Hjob|exact Hjobs].
Qed.

Lemma sendOriginal_advance rec t cs : ∀ s,
  foldl (sendOriginal rec t) s cs = advance s (originalEffects (opens s) rec t cs).
Proof.
  induction cs as [|c cs IH]; intros s; simpl; [by rewrite advance_nil|].
  rewrite IH. unfold sendOriginal. rewrite ws_send_advance. unfold sendEffects.
  change (isOPEN (ws c) s) with (opens s (ws c)).
  destruct (opens s (ws c)) eqn:Hop; [state_eq|reflexivity].
Qed.

Lemma fanOut_run w eid t s :
  ∃ Δ st',
    fanOut w eid t s = advance (put_storage st' s) Δ
    ∧ FanOutRun (opens s) w eid t (default [] (activeConnections s !! eid))
        (storage s) Δ st'.
Proof.
  unfold fanOut. rewrite createTranslation_advance.
  set (rec := mkTranslation _ _ _ _ _ _).
  rewrite ws_send_advance, advance_advance.
  set (s1 := advance _ _).
  change (activeConnections s1 !! eid) with (activeConnections s !! eid).
  set (conns := default [] (activeConnections s !! eid)).
  rewrite sendOriginal_advance.
  set (s2 := advance s1 _).
  destruct (runJobs_run eid t conns (targetsOf conns) s2)
    as (rs & Δ & st' & Hrun & Hjobs).
  unfold targetsOf in Hrun at 1. rewrite Hrun.
  rewrite ws_send_advance.
  eexists _, st'. split; [|eapply (fan_out_run _ _ _ _ _ _ _ rs Δ st'); exact Hjobs].
  subst s2 s1. state_eq.
Qed.

Lemma processAudio_outcome s w eid a :
  Accepted s w eid a →
  ∃ Δ st',
    processAudio w eid a s = advance (put_storage st' s) Δ
    ∧ AudioOutcome s w (Some eid) (AudioString a) Δ st'.
Proof.
  intros Hacc. unfold processAudio.
  destruct (length a <? 50)%nat eqn:Hlen.
  { apply Nat.ltb_lt in Hlen. rewrite ws_send_advance.
    eexists _, (storage s). rewrite put_storage_id.
    split; [|by apply ao_skipped]. done. }
  apply Nat.ltb_ge in Hlen.
  rewrite ws_send_advance. unfold transcribeAudio.
  destruct (base64Length a <? 100)%nat eqn:Hbuf.
  { apply Nat.ltb_lt in Hbuf.
    replace (isEmptyTranscription []) with true by done.
    rewrite ws_send_advance, advance_advance.
    eexists _, (storage s). rewrite put_storage_id.
    split; [|by apply ao_small]. state_eq. }
  set (r := whisper _ _). rewrite emit_advance, advance_advance.
  destruct r as [m|t].
  { rewrite ws_send_advance, advance_advance.
    eexists _, (storage s). rewrite put_storage_id. split; [|by apply ao_failed].
    state_eq. }
  destruct (isEmptyTranscription t) eqn:Hempty.
  { rewrite ws_send_advance, advance_advance.
    eexists _, (storage s). rewrite put_storage_id. split; [|by apply ao_silent].
    state_eq. }
  set (s1 := advance s _).
  destruct (fanOut_run w eid t s1) as (Δ & st' & -> & Hrun).
  eexists _, st'. split; [|by apply ao_fanout].
  subst s1. state_eq.
Qed.

Lemma audio_step s w eventId ab :
  ∃ Δ st',
    step s (audioFrame w eventId ab) = advance (put_storage st' s) Δ
    ∧ AudioOutcome s w eventId ab Δ st'.
Proof.
  assert (Hnone : ∃ Δ st', s = advance (put_storage st' s) Δ
                           ∧ AudioOutcome s w eventId ab Δ st').
  { exists [], (storage s). rewrite put_storage_id, advance_nil.
    split; [done|constructor]. }
  assert (Herr : ∀ e, ∃ Δ st',
             ws_send w (error e) s = advance (put_storage st' s) Δ
             ∧ AudioOutcome s w eventId ab Δ st').
  { intros e. eexists _, (storage s). rewrite put_storage_id, ws_send_advance.
    split; [done|constructor]. }
  unfold audioFrame, step.
  destruct (sockets s !! w) as [k|] eqn:Hk; [|done].
  destruct (decide (state k = CLOSED)) as [|Hopen]; [done|].
  unfold handleMessage, handleAudioData, truthyNumber.
  destruct eventId as [eid|]; [|by apply Herr].
  destruct (decide (eid = 0)) as [|Heid]; [by apply Herr|].
  destruct ab as [|[|]|a]; try by apply Herr.
  destruct a as [|c0 a]; [by apply Herr|].
  destruct (getEvent eid (storage s)) as [ev|] eqn:Hev; [|by apply Herr].
  destruct (senderConnection eid (var_sessionId k) s) as [c|] eqn:Hc; [|by apply Herr].
  destruct c as [cw cl cs ca [|]]; [|by apply Herr].
  apply processAudio_outcome.
  exists k, (mkEventConnection cw cl cs ca true).
  rewrite Hev. repeat split; eauto.
Qed.

(** ** Observations of a concatenated trace *)

Lemma chatCalls_app Δ1 Δ2 : chatCalls (Δ1 ++ Δ2) = chatCalls Δ1 ++ chatCalls Δ2.
Proof. apply omap_app. Qed.

Lemma rejectedChats_app Δ1 Δ2 :
  rejectedChats (Δ1 ++ Δ2) = rejectedChats Δ1 ++ rejectedChats Δ2.
Proof. apply omap_app. Qed.

Lemma speechCalls_app Δ1 Δ2 : speechCalls (Δ1 ++ Δ2) = speechCalls Δ1 ++ speechCalls Δ2.
Proof. apply omap_app. Qed.

Lemma created_app Δ1 Δ2 : created (Δ1 ++ Δ2) = created Δ1 ++ created Δ2.
Proof. apply omap_app. Qed.

Lemma sentTo_app w Δ1 Δ2 : sentTo w (Δ1 ++ Δ2) = sentTo w Δ1 ++ sentTo w Δ2.
Proof. apply omap_app. Qed.

Lemma chatCalls_send op w m : chatCalls (sendEffects op w m) = [].
Proof. unfold sendEffects; by destruct (op w). Qed.

Lemma rejectedChats_send op w m : rejectedChats (sendEffects op w m) = [].
Proof. unfold sendEffects; by destruct (op w). Qed.

Lemma speechCalls_send op w m : speechCalls (sendEffects op w m) = [].
Proof. unfold sendEffects; by destruct (op w). Qed.

Lemma created_send op w m : created (sendEffects op w m) = [].
Proof. unfold sendEffects; by destruct (op w). Qed.

Lemma sentTo_send op w w' m :
  sentTo w' (sendEffects op w m) = if decide (w = w') then (if op w then [m] else []) else [].
Proof.
  unfold sendEffects; destruct (op w); simpl; by destruct (decide (w = w')).
Qed.

Lemma deliverAll_quiet op t tt rec cs : ∀ rs,
  chatCalls (deliverAll op t tt rec cs rs) = []
  ∧ rejectedChats (deliverAll op t tt rec cs rs) = []
  ∧ created (deliverAll op t tt rec cs rs) = [].
Proof.
  induction cs as [|c cs IH]; intros [|r rs]; simpl; try done.
  rewrite chatCalls_app, rejectedChats_app, created_app.
  destruct (IH rs) as (-> & -> & ->).
  unfold deliverEffects, speechEffects.
  destruct (op (ws c)), (enableAudio c), r; done.
Qed.

Lemma originalEffects_quiet op rec t cs :
  chatCalls (originalEffects op rec t cs) = []
  ∧ rejectedChats (originalEffects op rec t cs) = []
  ∧ created (originalEffects op rec t cs) = []
  ∧ speechCalls (originalEffects op rec t cs) = [].
Proof.
  induction cs as [|c cs IH]; simpl; [done|].
  rewrite chatCalls_app, rejectedChats_app, created_app, speechCalls_app.
  destruct IH as (-> & -> & -> & ->).
  by rewrite chatCalls_send, rejectedChats_send, created_send, speechCalls_send.
Qed.

(** *** What the jobs do, language by language *)

Lemma jobs_chat_calls op eid t conns targets st rs Δ st' :
  JobsRun op eid t conns targets st rs Δ st' →
  chatCalls Δ = (λ l, (t, l)) <$> targets.
Proof.
  induction 1 as [|l ls st r Δ st1 rs Δs st2 Hjob _ IH]; [done|].
  rewrite chatCalls_app, IH, fmap_cons.
  change ((t, l) :: ((λ l, (t, l)) <$> ls)) with ([(t, l)] ++ ((λ l, (t, l)) <$> ls)).
  f_equal. destruct Hjob; simpl; [done|].
  by destruct (deliverAll_quiet op t tt rec clients rs0) as (-> & _).
Qed.

Lemma jobs_languages op eid t conns targets st rs Δ st' :
  JobsRun op eid t conns targets st rs Δ st' →
  job_language <$> rs = targets.
Proof.
  induction 1 as [|l ls st r Δ st1 rs Δs st2 Hjob _ IH]; [done|].
  rewrite fmap_cons, IH. by destruct Hjob.
Qed.

Lemma jobs_rejected op eid t conns targets st rs Δ st' :
  JobsRun op eid t conns targets st rs Δ st' →
  rejectedChats Δ = job_language <$> filter (λ r, success r = false) rs.
Proof.
  induction 1 as [|l ls st r Δ st1 rs Δs st2 Hjob _ IH]; [done|].
  rewrite rejectedChats_app, IH.
  destruct Hjob.
  - by rewrite filter_cons_True, fmap_cons.
  - rewrite filter_cons_False by done.
    change (rejectedChats (EChat t l (Resolved content) :: ECreateTranslation rec
                             :: deliverAll op t tt rec clients rs0))
      with (rejectedChats (deliverAll op t tt rec clients rs0)).
    by destruct (deliverAll_quiet op t tt rec clients rs0) as (_ & -> & _).
Qed.

Lemma jobs_counts op eid t conns targets st rs Δ st' :
  JobsRun op eid t conns targets st rs Δ st' →
  (length (filter (λ r, success r = true) rs)
   + length (filter (λ r, success r = false) rs) = length targets)%nat.
Proof.
  intros H. rewrite <- (jobs_languages _ _ _ _ _ _ _ _ _ H), length_fmap.
  clear. induction rs as [|r rs IH]; [done|].
  destruct (success r) eqn:Hr.
  - rewrite filter_cons_True, (filter_cons_False (λ r, success r = false)) by (by rewrite ?Hr).
    simpl. lia.
  - rewrite filter_cons_False, (filter_cons_True (λ r, success r = false)) by (by rewrite ?Hr).
    simpl. lia.
Qed.

(** *** Deliveries *)

Lemma deliverAll_text op t tt rec cs : ∀ rs c,
  length rs = length cs → c ∈ cs → op (ws c) = true →
  ESend (ws c) (translation rec t English) ∈ deliverAll op t tt rec cs rs.
Proof.
  induction cs as [|c0 cs IH]; intros rs c Hlen Hin Hop; [by apply elem_of_nil in Hin|].
  destruct rs as [|r rs]; [done|]. simpl in Hlen. simpl.
  apply elem_of_app. apply elem_of_cons in Hin as [->|Hin].
  - left. unfold deliverEffects. rewrite Hop. apply elem_of_cons; by left.
  - right. apply IH; [lia|done|done].
Qed.

Lemma deliverAll_sends op t tt rec cs : ∀ rs w m,
  ESend w m ∈ deliverAll op t tt rec cs rs →
  ∃ c, c ∈ cs ∧ ws c = w ∧ op w = true
       ∧ (m = translation rec t English
          ∨ (enableAudio c = true ∧ ∃ a, m = audio_translation a tt)).
Proof.
  induction cs as [|c0 cs IH]; intros [|r rs] w m Hin; simpl in Hin;
    try by apply elem_of_nil in Hin.
  apply elem_of_app in Hin as [Hin|Hin].
  - exists c0. split; [by left|].
    unfold deliverEffects, speechEffects in Hin.
    destruct (op (ws c0)) eqn:Hop; [|by apply elem_of_nil in Hin].
    apply elem_of_cons in Hin as [Heq|Hin].
    { injection Heq as -> ->. eauto. }
    destruct (enableAudio c0) eqn:Ha; [|by apply elem_of_nil in Hin].
    apply elem_of_cons in Hin as [Heq|Hin]; [done|].
    destruct r as [?|au]; [by apply elem_of_nil in Hin|].
    apply list_elem_of_singleton in Hin. injection Hin as -> ->. eauto 10.
  - destruct (IH rs w m Hin) as (c & Hc & ?). exists c. split; [by right|done].
Qed.

Lemma deliverAll_speech op t tt rec cs : ∀ rs,
  length rs = length cs →
  speechCalls (deliverAll op t tt rec cs rs)
  = (λ _, (tt, nova)) <$> filter (λ c, op (ws c) && enableAudio c = true) cs.
Proof.
  induction cs as [|c cs IH]; intros [|r rs] Hlen; simpl in Hlen; try done.
  simpl. rewrite speechCalls_app, IH by lia.
  unfold deliverEffects, speechEffects.
  destruct (op (ws c)) eqn:Hop, (enableAudio c) eqn:Ha; simpl.
  - rewrite filter_cons_True by (by rewrite Hop, Ha). by destruct r.
  - rewrite filter_cons_False by (by rewrite Hop, Ha). done.
  - rewrite filter_cons_False by (by rewrite Hop, Ha). done.
  - rewrite filter_cons_False by (by rewrite Hop, Ha). done.
Qed.

(** *** Records stay in the store *)

Lemma mapGet_mapSet_eq {V} k (v : V) m : mapGet k (mapSet k v m) = Some v.
Proof.
  unfold mapGet. induction m as [|[k' v'] m IH]; simpl.
  - by rewrite bool_decide_eq_true_2.
  - destruct (decide (k' = k)) as [->|Hne]; simpl.
    + by rewrite bool_decide_eq_true_2.
    + by rewrite bool_decide_eq_false_2.
Qed.

Lemma mapGet_mapSet_ne {V} k k' (v : V) m :
  k ≠ k' → mapGet k (mapSet k' v m) = mapGet k m.
Proof.
  intros Hne. unfold mapGet. induction m as [|[k0 v0] m IH]; simpl.
  - by rewrite bool_decide_eq_false_2.
  - destruct (decide (k0 = k')) as [->|Hne0]; simpl.
    + by rewrite !bool_decide_eq_false_2.
    + destruct (bool_decide (k0 = k)); [done|exact IH].
Qed.

Lemma storeTranslation_new rec st :
  tr_id rec = translationCurrentId st → Kept rec (storeTranslation rec st).
Proof.
  intros Hid. split; simpl; [|lia]. rewrite Hid. apply mapGet_mapSet_eq.
Qed.

Lemma storeTranslation_kept rec rec' st :
  Kept rec st → Kept rec (storeTranslation rec' st).
Proof.
  intros [Hget Hlt]. split; simpl; [|lia].
  rewrite mapGet_mapSet_ne; [done|lia].
Qed.

Lemma job_kept op eid t conns l st r Δ st' rec :
  JobRun op eid t conns l st r Δ st' → Kept rec st → Kept rec st'.
Proof. destruct 1; [done|]. apply storeTranslation_kept. Qed.

Lemma jobs_kept op eid t conns targets st rs Δ st' rec :
  JobsRun op eid t conns targets st rs Δ st' → Kept rec st → Kept rec st'.
Proof. induction 1; eauto using job_kept. Qed.

(** *** The kinds of effect in a fan-out *)

Lemma sendEffects_kind op w m e : e ∈ sendEffects op w m → e = ESend w m.
Proof.
  unfold sendEffects. destruct (op w); [|by intros ?%elem_of_nil].
  by intros ?%list_elem_of_singleton.
Qed.

Lemma deliverAll_kinds op t tt rec cs : ∀ rs e,
  e ∈ deliverAll op t tt rec cs rs → fanOutKind e.
Proof.
  induction cs as [|c cs IH]; intros [|r rs] e Hin; simpl in Hin;
    try by apply elem_of_nil in Hin.
  apply elem_of_app in Hin as [Hin|Hin]; [|by eapply IH].
  unfold deliverEffects, speechEffects in Hin.
  destruct (op (ws c)); [|by apply elem_of_nil in Hin].
  apply elem_of_cons in Hin as [->|Hin]; [done|].
  destruct (enableAudio c); [|by apply elem_of_nil in Hin].
  apply elem_of_cons in Hin as [->|Hin]; [done|].
  destruct r; [by apply elem_of_nil in Hin|].
  by apply list_elem_of_singleton in Hin as ->.
Qed.

Lemma originalEffects_sends op rec t cs e :
  e ∈ originalEffects op rec t cs →
  ∃ c, c ∈ cs ∧ op (ws c) = true ∧ e = ESend (ws c) (translation rec t English).
Proof.
  induction cs as [|c cs IH]; simpl; [by intros ?%elem_of_nil|].
  intros [Hin|Hin]%elem_of_app.
  - exists c. unfold sendEffects in Hin.
    destruct (op (ws c)) eqn:Hop; [|by apply elem_of_nil in Hin].
    apply list_elem_of_singleton in Hin. split; [by left|done].
  - destruct (IH Hin) as (c' & ? & ?). exists c'. split; [by right|done].
Qed.

Lemma job_kinds op eid t conns l st r Δ st' e :
  JobRun op eid t conns l st r Δ st' → e ∈ Δ → fanOutKind e.
Proof.
  destruct 1; intros Hin.
  - by apply list_elem_of_singleton in Hin as ->.
  - apply elem_of_cons in Hin as [->|Hin]; [done|].
    apply elem_of_cons in Hin as [->|Hin]; [done|].
    by eapply deliverAll_kinds.
Qed.

Lemma jobs_kinds op eid t conns targets st rs Δ st' e :
  JobsRun op eid t conns targets st rs Δ st' → e ∈ Δ → fanOutKind e.
Proof.
  induction 1; intros Hin; [by apply elem_of_nil in Hin|].
  apply elem_of_app in Hin as [Hin|Hin]; eauto using job_kinds.
Qed.

Lemma fanOut_kinds op w eid t conns st Δ st' e :
  FanOutRun op w eid t conns st Δ st' → e ∈ Δ → fanOutKind e.
Proof.
  destruct 1 as [ts rs Δjobs st' rec Hjobs]. intros Hin.
  apply elem_of_cons in Hin as [->|Hin]; [done|].
  apply elem_of_app in Hin as [Hin|Hin]; [by apply sendEffects_kind in Hin as ->|].
  apply elem_of_app in Hin as [Hin|Hin].
  { by apply originalEffects_sends in Hin as (c & _ & _ & ->). }
  apply elem_of_app in Hin as [Hin|Hin]; [by eapply jobs_kinds|].
  by apply sendEffects_kind in Hin as ->.
Qed.

(** *** From the trace of a step to the shape of the segment *)

Lemma segment_run s w eventId ab a t :
  EWhisper a (Resolved t) ∈ effectsOf s (audioFrame w eventId ab) →
  isEmptyTranscription t = false →
  ∃ eid Δ st',
    eventId = Some eid ∧ ab = AudioString a
    ∧ Accepted s w eid a ∧ (50 ≤ length a)%nat
    ∧ step s (audioFrame w eventId ab)
      = advance (put_storage st' s)
          (sendEffects (opens s) w processingStatus ++ EWhisper a (Resolved t) :: Δ)
    ∧ effectsOf s (audioFrame w eventId ab)
      = sendEffects (opens s) w processingStatus ++ EWhisper a (Resolved t) :: Δ
    ∧ FanOutRun (opens s) w eid t (default [] (activeConnections s !! eid))
        (storage s) Δ st'.
Proof.
  intros Hin Hne.
  destruct (audio_step s w eventId ab) as (Δ & st' & Hstep & Hout).
  rewrite (effects_of_advance _ _ _ _ Hstep eq_refl) in Hin.
  destruct Hout as [| |eid a0 ? ?|eid a0 m ? ?|eid a0 ? ? ?|eid a0 t0 ? ? Ht0
                    |eid a0 t0 Δf st' Hacc Hlen Ht0 Hrun].
  - by apply elem_of_nil in Hin.
  - by apply sendEffects_kind in Hin.
  - by apply sendEffects_kind in Hin.
  - apply elem_of_app in Hin as [Hin|Hin]; [by apply sendEffects_kind in Hin|].
    apply elem_of_cons in Hin as [?|Hin]; [done|by apply sendEffects_kind in Hin].
  - apply elem_of_app in Hin as [Hin|Hin]; by apply sendEffects_kind in Hin.
  - apply elem_of_app in Hin as [Hin|Hin]; [by apply sendEffects_kind in Hin|].
    apply elem_of_cons in Hin as [Heq|Hin]; [|by apply sendEffects_kind in Hin].
    injection Heq as -> ->. congruence.
  - assert (a0 = a ∧ t0 = t) as [-> ->].
    { apply elem_of_app in Hin as [Hin|Hin]; [by apply sendEffects_kind in Hin|].
      apply elem_of_cons in Hin as [Heq|Hin]; [by injection Heq|].
      by apply (fanOut_kinds _ _ _ _ _ _ _ _ _ Hrun) in Hin. }
    exists eid, Δf, st'. repeat split; try done.
    by apply (effects_of_advance _ _ _ _ Hstep).
Qed.

(** *** Served languages *)

Lemma Served_later op eid t conns l Δ0 Δ Δ1 st' :
  Served op eid t conns l Δ st' → Served op eid t conns l (Δ0 ++ Δ ++ Δ1) st'.
Proof.
  intros (content & rec & ? & ? & ? & ? & ? & ? & ? & Hsend).
  exists content, rec. split_and!; try done.
  - apply elem_of_app; right; apply elem_of_app; by left.
  - apply elem_of_app; right; apply elem_of_app; by left.
  - intros c ? ? ?. apply elem_of_app; right; apply elem_of_app; left; eauto.
Qed.

Lemma jobs_served op eid t conns targets st rs Δ st' l :
  JobsRun op eid t conns targets st rs Δ st' →
  l ∈ targets → l ∈ rejectedChats Δ ∨ Served op eid t conns l Δ st'.
Proof.
  induction 1 as [|l0 ls st r Δ st1 rs Δs st2 Hjob Hjobs IH];
    intros Hin; [by apply elem_of_nil in Hin|].
  rewrite rejectedChats_app.
  destruct (decide (l ∈ ls)) as [Hls|Hls].
  { destruct (IH Hls) as [Hrej|Hserved].
    - left. apply elem_of_app. by right.
    - right. rewrite <- (app_nil_r Δs). by apply Served_later. }
  apply elem_of_cons in Hin as [->|Hin]; [|done].
  destruct Hjob as [st m|st content ts rs0 tt rec clients Hlen].
  - left. apply elem_of_app. left. by left.
  - right. exists content, rec. split_and!; try done.
    + apply elem_of_app. left. by left.
    + apply elem_of_app. left. right. by left.
    + eapply jobs_kept; [exact Hjobs|]. by apply storeTranslation_new.
    + intros c Hc Hl Hop. apply elem_of_app. left. right. right.
      apply deliverAll_text; [done| |done].
      apply list_elem_of_filter. done.
Qed.

(** Every frame a job sends goes to an open transport of its own
    language, and audio only where audio is enabled. *)
Lemma jobs_sends op eid t conns targets st rs Δ st' w m :
  JobsRun op eid t conns targets st rs Δ st' →
  ESend w m ∈ Δ →
  ∃ c, c ∈ conns ∧ language c ∈ targets ∧ ws c = w ∧ op w = true
       ∧ ((∃ rec, m = translation rec t English ∧ tr_language rec = language c
                  ∧ is_Some (translatedText rec))
          ∨ (enableAudio c = true ∧ ∃ a tt, m = audio_translation a tt)).
Proof.
  induction 1 as [|l0 ls st r Δ st1 rs Δs st2 Hjob Hjobs IH];
    intros Hin; [by apply elem_of_nil in Hin|].
  apply elem_of_app in Hin as [Hin|Hin].
  - destruct Hjob as [st m0|st content ts rs0 tt rec clients Hlen].
    { by apply list_elem_of_singleton in Hin. }
    apply elem_of_cons in Hin as [?|Hin]; [done|].
    apply elem_of_cons in Hin as [?|Hin]; [done|].
    apply deliverAll_sends in Hin as (c & Hc & ? & ? & Hm).
    apply list_elem_of_filter in Hc as [Hl Hc].
    exists c. split_and!; try done.
    { rewrite Hl. by left. }
    destruct Hm as [->|(? & a & ->)]; [left|right; eauto].
    exists rec. by rewrite Hl.
  - destruct (IH Hin) as (c & ? & ? & ? & ? & ?). exists c. split_and!; try done.
    by right.
Qed.

(** *** Speech calls *)

Lemma resolvedChats_app Δ1 Δ2 :
  resolvedChats (Δ1 ++ Δ2) = resolvedChats Δ1 ++ resolvedChats Δ2.
Proof. apply omap_app. Qed.

Lemma resolvedChats_send op w m : resolvedChats (sendEffects op w m) = [].
Proof. unfold sendEffects; by destruct (op w). Qed.

Lemma deliverAll_resolved op t tt rec cs : ∀ rs,
  resolvedChats (deliverAll op t tt rec cs rs) = [].
Proof.
  induction cs as [|c cs IH]; intros [|r rs]; simpl; try done.
  rewrite resolvedChats_app, IH.
  unfold deliverEffects, speechEffects.
  destruct (op (ws c)), (enableAudio c), r; done.
Qed.

Lemma originalEffects_resolved op rec t cs :
  resolvedChats (originalEffects op rec t cs) = [].
Proof.
  induction cs as [|c cs IH]; simpl; [done|].
  by rewrite resolvedChats_app, IH, resolvedChats_send.
Qed.

Lemma jobs_speech op eid t conns targets st rs Δ st' :
  JobsRun op eid t conns targets st rs Δ st' →
  speechCalls Δ = speechPlan op conns (resolvedChats Δ).
Proof.
  induction 1 as [|l0 ls st r Δ st1 rs Δs st2 Hjob Hjobs IH]; [done|].
  rewrite speechCalls_app, resolvedChats_app. unfold speechPlan.
  rewrite flat_map_app. fold (speechPlan op conns (resolvedChats Δs)).
  rewrite <- IH. f_equal.
  destruct Hjob as [st m0|st content ts rs0 tt rec clients Hlen]; [done|].
  change (speechCalls (EChat t l0 (Resolved content) :: ECreateTranslation rec
                         :: deliverAll op t tt rec clients rs0))
    with (speechCalls (deliverAll op t tt rec clients rs0)).
  change (resolvedChats (EChat t l0 (Resolved content) :: ECreateTranslation rec
                           :: deliverAll op t tt rec clients rs0))
    with ((l0, tt) :: resolvedChats (deliverAll op t tt rec clients rs0)).
  rewrite deliverAll_resolved, deliverAll_speech by done.
  simpl. by rewrite app_nil_r.
Qed.

(** *** Distinct languages *)

Lemma uniqueOf_acc (l : list jsstring) : ∀ acc,
  NoDup acc →
  NoDup (foldl (λ acc x, if decide (x ∈ acc) then acc else acc ++ [x]) acc l)
  ∧ ∀ x, x ∈ foldl (λ acc x, if decide (x ∈ acc) then acc else acc ++ [x]) acc l
         ↔ x ∈ acc ∨ x ∈ l.
Proof.
  induction l as [|y l IH]; intros acc Hnd; simpl.
  - split; [done|]. intros x. rewrite elem_of_nil. tauto.
  - destruct (decide (y ∈ acc)) as [Hy|Hy].
    + destruct (IH acc Hnd) as [? Hiff]. split; [done|].
      intros x. rewrite Hiff, elem_of_cons. naive_solver.
    + assert (NoDup (acc ++ [y])) as Hnd'.
      { apply NoDup_app. split_and!; [done| |apply NoDup_singleton].
        intros x ? ->%list_elem_of_singleton. done. }
      destruct (IH _ Hnd') as [? Hiff]. split; [done|].
      intros x. rewrite Hiff, elem_of_app, list_elem_of_singleton, elem_of_cons.
      tauto.
Qed.

Lemma NoDup_uniqueOf l : NoDup (uniqueOf l).
Proof. apply uniqueOf_acc, NoDup_nil_2. Qed.

Lemma elem_of_uniqueOf l x : x ∈ uniqueOf l ↔ x ∈ l.
Proof.
  unfold uniqueOf. destruct (uniqueOf_acc l [] (NoDup_nil_2)) as [_ ->].
  rewrite elem_of_nil. tauto.
Qed.

Lemma NoDup_targetsOf conns : NoDup (targetsOf conns).
Proof. apply NoDup_filter, NoDup_uniqueOf. Qed.

Lemma elem_of_targetsOf conns l :
  l ∈ targetsOf conns ↔ l ≠ English ∧ ∃ c, c ∈ conns ∧ language c = l.
Proof.
  unfold targetsOf. rewrite list_elem_of_filter, elem_of_uniqueOf, list_elem_of_fmap.
  naive_solver.
Qed.

(** The number of jobs is the number of distinct registered languages
    other than the source language. *)
Lemma length_targetsOf conns :
  length (targetsOf conns)
  = size ((list_to_set (language <$> conns) : gset jsstring) ∖ {[English]}).
Proof.
  rewrite <- (size_list_to_set (C := gset jsstring)) by apply NoDup_targetsOf.
  f_equal. apply set_eq. intros l.
  rewrite elem_of_list_to_set, elem_of_targetsOf, elem_of_difference,
    elem_of_list_to_set, list_elem_of_fmap, elem_of_singleton.
  naive_solver.
Qed.

(** *** The trace of a segment, taken apart *)

Lemma segment_shape s w eid a t :
  let i := audioFrame w (Some eid) (AudioString a) in
  let conns := default [] (activeConnections s !! eid) in
  EWhisper a (Resolved t) ∈ effectsOf s i →
  isEmptyTranscription t = false →
  ∃ ts rs Δjobs st',
    Accepted s w eid a
    ∧ storage (step s i) = st'
    ∧ activeConnections (step s i) = activeConnections s
    ∧ sockets (step s i) = sockets s
    ∧ effectsOf s i
      = segmentPrefix (opens s) w a t (sourceRecord (storage s) eid t ts) conns
        ++ Δjobs
        ++ sendEffects (opens s) w
             (completion t rs (length (uniqueOf (language <$> conns))))
    ∧ JobsRun (opens s) eid t conns (targetsOf conns)
        (storeTranslation (sourceRecord (storage s) eid t ts) (storage s))
        rs Δjobs st'.
Proof.
  intros i conns Hin Hne.
  destruct (segment_run s w _ _ a t Hin Hne)
    as (eid' & Δ & st' & [= <-] & _ & Hacc & Hlen & Hstep & HΔ & Hrun).
  destruct Hrun as [ts rs Δjobs st' rec Hjobs].
  exists ts, rs, Δjobs, st'. split_and!; try done.
  - unfold i. by rewrite Hstep.
  - unfold i. by rewrite Hstep.
  - unfold i. by rewrite Hstep.
  - unfold i. rewrite HΔ. unfold segmentPrefix, sourceRecord.
    rewrite <- ?app_assoc. simpl. rewrite <- ?app_assoc. reflexivity.
Qed.

Lemma segmentPrefix_quiet op w a t rec conns :
  chatCalls (segmentPrefix op w a t rec conns) = []
  ∧ rejectedChats (segmentPrefix op w a t rec conns) = []
  ∧ resolvedChats (segmentPrefix op w a t rec conns) = []
  ∧ speechCalls (segmentPrefix op w a t rec conns) = []
  ∧ created (segmentPrefix op w a t rec conns) = [rec].
Proof.
  unfold segmentPrefix.
  destruct (originalEffects_quiet op rec t
              (filter (λ c, language c = English) conns)) as (H1 & H2 & H3 & H4).
  pose proof (originalEffects_resolved op rec t
                (filter (λ c, language c = English) conns)) as H5.
  rewrite !chatCalls_app, !rejectedChats_app, !resolvedChats_app, !speechCalls_app,
    !created_app.
  rewrite !chatCalls_send, !rejectedChats_send, !resolvedChats_send,
    !speechCalls_send, !created_send.
  by rewrite H1, H2, H3, H4, H5.
Qed.

Lemma segment_projections s w eid a t ts rs Δjobs :
  let conns := default [] (activeConnections s !! eid) in
  let Δ := segmentPrefix (opens s) w a t (sourceRecord (storage s) eid t ts) conns
           ++ Δjobs
           ++ sendEffects (opens s) w
                (completion t rs (length (uniqueOf (language <$> conns)))) in
  chatCalls Δ = chatCalls Δjobs
  ∧ rejectedChats Δ = rejectedChats Δjobs
  ∧ resolvedChats Δ = resolvedChats Δjobs
  ∧ speechCalls Δ = speechCalls Δjobs
  ∧ created Δ = sourceRecord (storage s) eid t ts :: created Δjobs.
Proof.
  intros conns Δ. subst Δ.
  destruct (segmentPrefix_quiet (opens s) w a t
              (sourceRecord (storage s) eid t ts) conns) as (H1 & H2 & H3 & H4 & H5).
  rewrite !chatCalls_app, !rejectedChats_app, !resolvedChats_app, !speechCalls_app,
    !created_app.
  rewrite H1, H2, H3, H4, H5.
  rewrite chatCalls_send, rejectedChats_send, resolvedChats_send, speechCalls_send,
    created_send.
  by rewrite !app_nil_r.
Qed.

(** ** The fan-out of a segment *)

(** C1 — For a segment whose transcription succeeds with non-empty text
    [t], the translation service is called exactly once per distinct
    registered language other than English, [count] calls in all.  When
    exactly one of these calls fails, every other target language is
    still served (its record is created and kept in the store, and its
    text is sent to every open connection of that language), and the
    completion status sent to the submitter reports [count - 1] successful
    and [1] failed translation. *)
Theorem translation_jobs_are_isolated s w eid a t :
  let i := audioFrame w (Some eid) (AudioString a) in
  let Δ := effectsOf s i in
  let conns := default [] (activeConnections s !! eid) in
  let count := size ((list_to_set (language <$> conns) : gset jsstring) ∖ {[English]}) in
  EWhisper a (Resolved t) ∈ Δ →
  isEmptyTranscription t = false →
  chatCalls Δ = (λ l, (t, l)) <$> targetsOf conns
  ∧ length (chatCalls Δ) = count
  ∧ ∀ failedLanguage,
      rejectedChats Δ = [failedLanguage] →
      failedLanguage ∈ targetsOf conns
      ∧ (∀ l, l ∈ targetsOf conns → l ≠ failedLanguage →
              Served (opens s) eid t conns l Δ (storage (step s i)))
      ∧ (isOPEN w s = true →
         ESend w (processing_status complete
                    (Processing_complete (count - 1) 1) (Some t)
                    (Some (mkDetails (count - 1) 1
                             (length (uniqueOf (language <$> conns))))))
           ∈ Δ).
Proof.
  intros i Δ conns count Hin Hne.
  destruct (segment_shape s w eid a t Hin Hne)
    as (ts & rs & Δjobs & st' & Hacc & Hst & _ & _ & HΔ & Hjobs).
  fold i in Hst, HΔ. fold conns in HΔ, Hjobs. fold Δ in HΔ.
  destruct (segment_projections s w eid a t ts rs Δjobs) as (Hc & Hr & _).
  fold conns in Hc, Hr. rewrite <- HΔ in Hc, Hr.
  assert (Hcalls : chatCalls Δ = (λ l, (t, l)) <$> targetsOf conns).
  { rewrite Hc. by eapply jobs_chat_calls. }
  assert (HN : length (targetsOf conns) = count) by apply length_targetsOf.
  split_and!; [done|by rewrite Hcalls, length_fmap|].
  intros fl Hfl. rewrite Hr in Hfl.
  assert (Hfailed : length (filter (λ r, success r = false) rs) = 1%nat).
  { pose proof (jobs_rejected _ _ _ _ _ _ _ _ _ Hjobs) as Hrej.
    rewrite Hfl in Hrej. apply (f_equal length) in Hrej.
    rewrite length_fmap in Hrej. simpl in Hrej. lia. }
  pose proof (jobs_counts _ _ _ _ _ _ _ _ _ Hjobs) as Hcount.
  split_and!.
  - pose proof (jobs_rejected _ _ _ _ _ _ _ _ _ Hjobs) as Hrej.
    rewrite Hfl in Hrej.
    assert (fl ∈ job_language <$> rs) as Hin'.
    { assert (fl ∈ job_language <$> filter (λ r, success r = false) rs) as H0
        by (rewrite <- Hrej; by left).
      apply list_elem_of_fmap in H0 as (r & -> & Hr0).
      apply list_elem_of_filter in Hr0 as [_ Hr0]. by apply list_elem_of_fmap_2. }
    by rewrite (jobs_languages _ _ _ _ _ _ _ _ _ Hjobs) in Hin'.
  - intros l Hl Hlfl.
    destruct (jobs_served _ _ _ _ _ _ _ _ _ l Hjobs Hl) as [Hrej|Hserved].
    + rewrite Hfl in Hrej. by apply list_elem_of_singleton in Hrej.
    + rewrite Hst, HΔ. by apply Served_later.
  - intros Hop. rewrite HΔ. apply elem_of_app; right. apply elem_of_app; right.
    unfold sendEffects, opens. rewrite Hop. apply list_elem_of_singleton.
    unfold completion. rewrite Hfailed.
    replace (length (filter (λ r, success r = true) rs)) with (count - 1)%nat by lia.
    done.
Qed.

(** *** The order of the records *)

Lemma jobs_created op eid t conns targets st rs Δ st' :
  JobsRun op eid t conns targets st rs Δ st' →
  translationCurrentId st ≤ translationCurrentId st'
  ∧ ∀ rec, rec ∈ created Δ →
           translationCurrentId st ≤ tr_id rec
           ∧ is_Some (translatedText rec) ∧ tr_language rec ∈ targets.
Proof.
  induction 1 as [|l ls st r Δ st1 rs Δs st2 Hjob _ [IH1 IH2]].
  - split; [lia|]. by intros rec ?%elem_of_nil.
  - assert (translationCurrentId st ≤ translationCurrentId st1
            ∧ ∀ rec, rec ∈ created Δ →
                     tr_id rec = translationCurrentId st
                     ∧ is_Some (translatedText rec) ∧ tr_language rec = l)
      as [Hle Hrec].
    { destruct Hjob as [st m|st content ts rs0 tt rec clients Hlen].
      - split; [lia|]. by intros rec ?%elem_of_nil.
      - split; [simpl; lia|]. intros rec' Hin.
        change (created (EChat t l (Resolved content) :: ECreateTranslation rec
                           :: deliverAll op t tt rec clients rs0))
          with (rec :: created (deliverAll op t tt rec clients rs0)) in Hin.
        destruct (deliverAll_quiet op t tt rec clients rs0) as (_ & _ & Hq).
        rewrite Hq in Hin. apply list_elem_of_singleton in Hin as ->.
        simpl. eauto. }
    split; [lia|]. intros rec. rewrite created_app.
    intros [Hin|Hin]%elem_of_app.
    + destruct (Hrec _ Hin) as (-> & ? & ->). split_and!; [lia|done|by left].
    + destruct (IH2 _ Hin) as (? & ? & ?). split_and!; [lia|done|by right].
Qed.

(** C4 — For a segment that gets past transcription, the record of the
    original (language English, no translated text) is the first record
    created, before any call to the translation service: nothing
    earlier in the trace of the step is a translation call or a record,
    the record stays in the store, and every record created after it
    for the segment is a translated one with a larger id. *)
Theorem source_record_comes_first s w eid a t :
  let i := audioFrame w (Some eid) (AudioString a) in
  let Δ := effectsOf s i in
  EWhisper a (Resolved t) ∈ Δ →
  isEmptyTranscription t = false →
  ∃ before rec after,
    Δ = before ++ ECreateTranslation rec :: after
    ∧ tr_language rec = English ∧ translatedText rec = None
    ∧ originalText rec = t ∧ tr_eventId rec = eid
    ∧ chatCalls before = [] ∧ created before = []
    ∧ chatCalls after = chatCalls Δ
    ∧ Kept rec (storage (step s i))
    ∧ ∀ rec', rec' ∈ created after →
              tr_id rec < tr_id rec' ∧ is_Some (translatedText rec')
              ∧ tr_language rec' ≠ English.
Proof.
  intros i Δ Hin Hne.
  destruct (segment_shape s w eid a t Hin Hne)
    as (ts & rs & Δjobs & st' & Hacc & Hst & _ & _ & HΔ & Hjobs).
  fold i in Hst, HΔ. fold Δ in HΔ.
  set (conns := default [] (activeConnections s !! eid)) in *.
  set (rec := sourceRecord (storage s) eid t ts) in *.
  set (op := opens s) in *.
  exists (sendEffects op w processingStatus ++ [EWhisper a (Resolved t)]), rec,
    (sendEffects op w (transcribedStatus t)
     ++ originalEffects op rec t (filter (λ c, language c = English) conns)
     ++ Δjobs
     ++ sendEffects op w (completion t rs (length (uniqueOf (language <$> conns))))).
  destruct (originalEffects_quiet op rec t
              (filter (λ c, language c = English) conns)) as (Ho1 & _ & Ho3 & _).
  destruct (jobs_created _ _ _ _ _ _ _ _ _ Hjobs) as [Hle Hrecs].
  split_and!; try done.
  - rewrite HΔ. unfold segmentPrefix. rewrite <- ?app_assoc. reflexivity.
  - by rewrite chatCalls_app, chatCalls_send.
  - by rewrite created_app, created_send.
  - rewrite HΔ. unfold segmentPrefix.
    rewrite !chatCalls_app, !chatCalls_send. by rewrite Ho1.
  - rewrite Hst. eapply jobs_kept; [exact Hjobs|]. by apply storeTranslation_new.
  - intros rec'. rewrite !created_app, !created_send, Ho3. simpl.
    rewrite app_nil_r. intros Hrec'.
    destruct (Hrecs _ Hrec') as (Hid & ? & Hl). simpl in Hid.
    split_and!; [simpl; lia|done|].
    apply elem_of_targetsOf in Hl. tauto.
Qed.

(** *** The completion status *)

Lemma aggregates_app w Δ1 Δ2 : aggregates w (Δ1 ++ Δ2) = aggregates w Δ1 ++ aggregates w Δ2.
Proof. apply omap_app. Qed.

Lemma omap_none {A B} (f : A → option B) (l : list A) :
  (∀ x, x ∈ l → f x = None) → omap f l = [].
Proof.
  induction l as [|x l IH]; intros H; [done|]. simpl.
  rewrite (H x) by (by left). apply IH. intros y Hy. apply H. by right.
Qed.

Lemma aggregates_jobs op eid t conns targets st rs Δ st' w :
  JobsRun op eid t conns targets st rs Δ st' → aggregates w Δ = [].
Proof.
  intros Hjobs. apply omap_none. intros e He.
  destruct e as [| | | | | |w' m|]; try done.
  destruct (jobs_sends _ _ _ _ _ _ _ _ _ _ _ Hjobs He)
    as (c & _ & _ & _ & _ & [(rec & -> & _)|(_ & x & y & ->)]); done.
Qed.

Lemma aggregates_original op rec t cs w : aggregates w (originalEffects op rec t cs) = [].
Proof.
  apply omap_none. intros e He.
  by apply originalEffects_sends in He as (c & _ & _ & ->).
Qed.

Lemma length_filter_partition {A} (P : A → Prop) `{∀ x, Decision (P x)} (l : list A) :
  (length (filter P l) + length (filter (λ x, ¬ P x) l) = length l)%nat.
Proof.
  induction l as [|x l IH]; [done|].
  destruct (decide (P x)).
  - rewrite filter_cons_True, (filter_cons_False (λ x, ¬ P x)) by tauto. simpl. lia.
  - rewrite filter_cons_False, (filter_cons_True (λ x, ¬ P x)) by tauto. simpl. lia.
Qed.

Lemma length_filter_eq_NoDup (x : jsstring) (l : list jsstring) :
  NoDup l →
  length (filter (λ y, y = x) l) = if decide (x ∈ l) then 1%nat else 0%nat.
Proof.
  induction 1 as [|y l Hy Hnd IH]; [done|].
  destruct (decide (y = x)) as [->|Hne].
  - rewrite filter_cons_True by done. simpl. rewrite IH.
    rewrite (decide_True (P := x ∈ x :: l)) by (by left). by rewrite decide_False.
  - rewrite filter_cons_False by done. rewrite IH.
    destruct (decide (x ∈ l)).
    + rewrite decide_True; [done|by right].
    + rewrite decide_False; [done|]. intros [?|?]%elem_of_cons; done.
Qed.

(** The reported total counts the source language too. *)
Lemma length_uniqueOf conns :
  length (uniqueOf (language <$> conns))
  = (length (targetsOf conns)
     + if decide (English ∈ language <$> conns) then 1 else 0)%nat.
Proof.
  unfold targetsOf.
  pose proof (length_filter_partition (λ l, l = English)
                (uniqueOf (language <$> conns))) as Hp.
  rewrite (length_filter_eq_NoDup _ _ (NoDup_uniqueOf _)) in Hp.
  destruct (decide (English ∈ uniqueOf (language <$> conns))) as [Hin|Hin];
    rewrite elem_of_uniqueOf in Hin.
  - rewrite decide_True by done. lia.
  - rewrite decide_False by done. lia.
Qed.

Lemma segment_completion s w eid a t :
  let i := audioFrame w (Some eid) (AudioString a) in
  let Δ := effectsOf s i in
  let conns := default [] (activeConnections s !! eid) in
  EWhisper a (Resolved t) ∈ Δ →
  isEmptyTranscription t = false →
  isOPEN w s = true →
  ∃ d, aggregates w Δ = [d]
       ∧ (∀ w', w' ≠ w → aggregates w' Δ = [])
       ∧ (successfulTranslations d + failedTranslations d
          = length (targetsOf conns))%nat
       ∧ failedTranslations d = length (rejectedChats Δ)
       ∧ totalLanguages d = length (uniqueOf (language <$> conns)).
Proof.
  intros i Δ conns Hin Hne Hop.
  destruct (segment_shape s w eid a t Hin Hne)
    as (ts & rs & Δjobs & st' & Hacc & Hst & _ & _ & HΔ & Hjobs).
  fold i in Hst, HΔ. fold conns in HΔ, Hjobs. fold Δ in HΔ.
  destruct (segment_projections s w eid a t ts rs Δjobs) as (_ & Hr & _).
  fold conns in Hr. rewrite <- HΔ in Hr.
  assert (Hagg : ∀ w',
    aggregates w' Δ
    = if decide (w = w')
      then [mkDetails (length (filter (λ r, success r = true) rs))
              (length (filter (λ r, success r = false) rs))
              (length (uniqueOf (language <$> conns)))]
      else []).
  { intros w'. rewrite HΔ. unfold segmentPrefix.
    rewrite !aggregates_app, (aggregates_jobs _ _ _ _ _ _ _ _ _ w' Hjobs),
      aggregates_original.
    unfold sendEffects, opens. rewrite Hop. simpl.
    by destruct (decide (w = w')). }
  eexists. split_and!.
  - rewrite Hagg. by rewrite decide_True.
  - intros w' Hw'. rewrite Hagg. by rewrite decide_False.
  - simpl. by rewrite (jobs_counts _ _ _ _ _ _ _ _ _ Hjobs).
  - simpl. rewrite Hr, (jobs_rejected _ _ _ _ _ _ _ _ _ Hjobs). by rewrite length_fmap.
  - done.
Qed.

(** C5, as the code has it — When the fan-out of a segment has
    settled, the submitter (its transport open) is sent exactly one
    completion status with counts, and no other connection gets one.
    Its successful and failed counts add up to the number of distinct
    target languages, the failed count is the number of failed
    translation calls, and [totalLanguages] is the number of distinct
    registered languages, the source language included: one more than
    the number of target languages whenever some connection is
    registered in English. *)
Theorem completion_status_counts s w eid a t :
  let i := audioFrame w (Some eid) (AudioString a) in
  let Δ := effectsOf s i in
  let conns := default [] (activeConnections s !! eid) in
  let count := size ((list_to_set (language <$> conns) : gset jsstring) ∖ {[English]}) in
  EWhisper a (Resolved t) ∈ Δ →
  isEmptyTranscription t = false →
  isOPEN w s = true →
  ∃ d, aggregates w Δ = [d]
       ∧ (∀ w', w' ≠ w → aggregates w' Δ = [])
       ∧ (successfulTranslations d + failedTranslations d = count)%nat
       ∧ failedTranslations d = length (rejectedChats Δ)
       ∧ totalLanguages d
         = size (list_to_set (language <$> conns) : gset jsstring)
       ∧ totalLanguages d
         = (count + if decide (English ∈ language <$> conns) then 1 else 0)%nat.
Proof.
  intros i Δ conns count Hin Hne Hop.
  destruct (segment_completion s w eid a t Hin Hne Hop)
    as (d & Hd & Hothers & Hsum & Hfailed & Htotal).
  exists d. split_and!; try done.
  - rewrite Hsum. apply length_targetsOf.
  - rewrite Htotal.
    rewrite <- (size_list_to_set (C := gset jsstring)) by apply NoDup_uniqueOf.
    f_equal. apply set_eq. intros l.
    by rewrite !elem_of_list_to_set, elem_of_uniqueOf.
  - rewrite Htotal, length_uniqueOf. by rewrite length_targetsOf.
Qed.

(** *** A resolved call and what follows it *)

Lemma ServedWith_later op eid t conns l content Δ0 Δ Δ1 st' :
  ServedWith op eid t conns l content Δ st' →
  ServedWith op eid t conns l content (Δ0 ++ Δ ++ Δ1) st'.
Proof.
  intros (rec & ? & ? & ? & ? & ? & ? & Hsend).
  exists rec. split_and!; try done.
  - apply elem_of_app; right; apply elem_of_app; by left.
  - intros c ? ? ?. apply elem_of_app; right; apply elem_of_app; left; eauto.
Qed.

Lemma deliverAll_no_chat op t tt rec cs rs t0 l r :
  EChat t0 l r ∉ deliverAll op t tt rec cs rs.
Proof.
  intros Hin.
  assert ((t0, l) ∈ chatCalls (deliverAll op t tt rec cs rs)) as H.
  { apply list_elem_of_omap. by exists (EChat t0 l r). }
  destruct (deliverAll_quiet op t tt rec cs rs) as (Hq & _).
  rewrite Hq in H. by apply elem_of_nil in H.
Qed.

Lemma jobs_resolved op eid t conns targets st rs Δ st' t0 l content :
  JobsRun op eid t conns targets st rs Δ st' →
  EChat t0 l (Resolved content) ∈ Δ →
  t0 = t ∧ l ∈ targets ∧ ServedWith op eid t conns l content Δ st'.
Proof.
  induction 1 as [|l0 ls st r Δ st1 rs Δs st2 Hjob Hjobs IH];
    intros Hin; [by apply elem_of_nil in Hin|].
  apply elem_of_app in Hin as [Hin|Hin].
  - destruct Hjob as [st m|st content0 ts rs0 tt rec clients Hlen].
    { by apply list_elem_of_singleton in Hin. }
    apply elem_of_cons in Hin as [Heq|Hin].
    2:{ apply elem_of_cons in Hin as [?|Hin]; [done|].
        by apply deliverAll_no_chat in Hin. }
    injection Heq as -> -> ->. split_and!; [done|by left|].
    exists rec. split_and!; try done.
    + apply elem_of_app. left. right. by left.
    + eapply jobs_kept; [exact Hjobs|]. by apply storeTranslation_new.
    + intros c Hc Hl Hop. apply elem_of_app. left. right. right.
      apply deliverAll_text; [done| |done].
      by apply list_elem_of_filter.
  - destruct (IH Hin) as (-> & ? & Hs). split_and!; [done|by right|].
    rewrite <- (app_nil_r Δs). by apply ServedWith_later.
Qed.

Lemma segment_resolved s w eid a t t0 l content :
  let i := audioFrame w (Some eid) (AudioString a) in
  let Δ := effectsOf s i in
  let conns := default [] (activeConnections s !! eid) in
  EWhisper a (Resolved t) ∈ Δ →
  isEmptyTranscription t = false →
  EChat t0 l (Resolved content) ∈ Δ →
  t0 = t ∧ l ∈ targetsOf conns
  ∧ ServedWith (opens s) eid t conns l content Δ (storage (step s i)).
Proof.
  intros i Δ conns Hin Hne Hchat.
  destruct (segment_shape s w eid a t Hin Hne)
    as (ts & rs & Δjobs & st' & Hacc & Hst & _ & _ & HΔ & Hjobs).
  fold i in Hst, HΔ. fold conns in HΔ, Hjobs. fold Δ in HΔ.
  assert (Hchat' : EChat t0 l (Resolved content) ∈ Δjobs).
  { rewrite HΔ in Hchat. unfold segmentPrefix in Hchat.
    repeat (apply elem_of_app in Hchat as [Hchat|Hchat]);
      try (by apply sendEffects_kind in Hchat);
      try (by apply list_elem_of_singleton in Hchat); try done.
    by apply originalEffects_sends in Hchat as (c & _ & _ & ?). }
  destruct (jobs_resolved _ _ _ _ _ _ _ _ _ _ _ _ Hjobs Hchat') as (-> & ? & Hs).
  split_and!; [done|done|]. rewrite Hst, HΔ. by apply ServedWith_later.
Qed.

(** C10 — When the completion call succeeds but its message content is
    [null] or the empty string, [translateText] returns the text it was
    given.  In the pipeline this text is then what is stored as the
    translated text of the target language and sent to its open
    connections. *)
Theorem empty_completion_echoes_source s w eid a t l content text s0 :
  let i := audioFrame w (Some eid) (AudioString a) in
  let Δ := effectsOf s i in
  let conns := default [] (activeConnections s !! eid) in
  content = None ∨ content = Some [] →
  (chat (trace s0) text l = Resolved content →
   (translateText text l s0).1 = Resolved text)
  ∧ (EWhisper a (Resolved t) ∈ Δ →
     isEmptyTranscription t = false →
     EChat t l (Resolved content) ∈ Δ →
     ∃ rec, translatedText rec = Some t ∧ originalText rec = t
            ∧ tr_language rec = l ∧ l ≠ English
            ∧ ECreateTranslation rec ∈ Δ
            ∧ Kept rec (storage (step s i))
            ∧ ∀ c, c ∈ conns → language c = l → isOPEN (ws c) s = true →
                   ESend (ws c) (translation rec t English) ∈ Δ).
Proof.
  intros i Δ conns Hcontent. split.
  - intros Hchat. unfold translateText. rewrite Hchat. simpl.
    by destruct Hcontent as [-> | ->].
  - intros Hin Hne Hchat.
    destruct (segment_resolved s w eid a t t l content Hin Hne Hchat)
      as (_ & Hl & rec & ? & ? & Htt & ? & ? & ? & Hsend).
    exists rec. split_and!; try done.
    + rewrite Htt. by destruct Hcontent as [-> | ->].
    + apply elem_of_targetsOf in Hl. tauto.
Qed.

(** *** Who is sent what *)

(** The frames of a segment: statuses to the submitter, the original
    to open English connections, a translation to open connections of
    a target language, audio to those of them that enabled it. *)
Lemma segment_sends s w eid a t w' m :
  let i := audioFrame w (Some eid) (AudioString a) in
  let Δ := effectsOf s i in
  let conns := default [] (activeConnections s !! eid) in
  EWhisper a (Resolved t) ∈ Δ →
  isEmptyTranscription t = false →
  ESend w' m ∈ Δ →
  isOPEN w' s = true
  ∧ ((w' = w ∧ ∃ st note tr d, m = processing_status st note tr d)
     ∨ (∃ c rec, c ∈ conns ∧ ws c = w' ∧ language c = English
                 ∧ m = translation rec t English ∧ translatedText rec = None
                 ∧ tr_language rec = English)
     ∨ (∃ c, c ∈ conns ∧ ws c = w' ∧ language c ≠ English
             ∧ ((∃ rec, m = translation rec t English
                        ∧ tr_language rec = language c
                        ∧ is_Some (translatedText rec))
                ∨ (enableAudio c = true ∧ ∃ au x, m = audio_translation au x)))).
Proof.
  intros i Δ conns Hin Hne Hsend.
  destruct (segment_shape s w eid a t Hin Hne)
    as (ts & rs & Δjobs & st' & Hacc & Hst & _ & _ & HΔ & Hjobs).
  fold i in Hst, HΔ. fold conns in HΔ, Hjobs. fold Δ in HΔ.
  assert (Hstatus : ∀ m0, ESend w' m ∈ sendEffects (opens s) w m0 →
                          isOPEN w' s = true ∧ w' = w ∧ m = m0).
  { intros m0 H0. unfold sendEffects, opens in H0.
    destruct (isOPEN w s) eqn:Hop; [|by apply elem_of_nil in H0].
    apply list_elem_of_singleton in H0. by injection H0 as -> ->. }
  rewrite HΔ in Hsend. unfold segmentPrefix in Hsend.
  repeat (apply elem_of_app in Hsend as [Hsend|Hsend]);
    try (by apply list_elem_of_singleton in Hsend).
  - apply Hstatus in Hsend as (? & ? & ->). split; [done|]. left. split; [done|].
    by eexists _, _, _, _.
  - apply Hstatus in Hsend as (? & ? & ->). split; [done|]. left. split; [done|].
    by eexists _, _, _, _.
  - apply originalEffects_sends in Hsend as (c & Hc & Hop & Heq).
    injection Heq as -> ->. apply list_elem_of_filter in Hc as [Hl Hc].
    split; [done|]. right; left. by exists c, (sourceRecord (storage s) eid t ts).
  - destruct (jobs_sends _ _ _ _ _ _ _ _ _ _ _ Hjobs Hsend)
      as (c & Hc & Hl & ? & ? & Hm).
    split; [done|]. right; right. exists c. split_and!; try done.
    apply elem_of_targetsOf in Hl. tauto.
  - apply Hstatus in Hsend as (? & ? & ->). split; [done|]. left. split; [done|].
    by eexists _, _, _, _.
Qed.

(** *** Speech calls and audio frames *)

Lemma audioFrames_app Δ1 Δ2 : audioFrames (Δ1 ++ Δ2) = audioFrames Δ1 ++ audioFrames Δ2.
Proof. apply omap_app. Qed.

Lemma resolvedSpeech_app Δ1 Δ2 :
  resolvedSpeech (Δ1 ++ Δ2) = resolvedSpeech Δ1 ++ resolvedSpeech Δ2.
Proof. apply omap_app. Qed.

Lemma audioFrames_send op w m :
  isAudio m = false →
  audioFrames (sendEffects op w m) = [] ∧ resolvedSpeech (sendEffects op w m) = [].
Proof. unfold sendEffects. destruct (op w), m; done. Qed.

Lemma originalEffects_audio op rec t cs :
  audioFrames (originalEffects op rec t cs) = []
  ∧ resolvedSpeech (originalEffects op rec t cs) = [].
Proof.
  induction cs as [|c cs [IH1 IH2]]; simpl; [done|].
  rewrite audioFrames_app, resolvedSpeech_app, IH1, IH2.
  by destruct (audioFrames_send op (ws c) (translation rec t English)) as [-> ->].
Qed.

(** Each audio frame of a delivery carries the answer of a speech call
    that resolved, and each such answer is sent. *)
Lemma deliverAll_answers op t tt rec cs : ∀ rs,
  (audioFrames (deliverAll op t tt rec cs rs)).*2
  = resolvedSpeech (deliverAll op t tt rec cs rs).
Proof.
  induction cs as [|c cs IH]; intros [|r rs]; simpl; try done.
  rewrite audioFrames_app, resolvedSpeech_app, fmap_app, IH. f_equal.
  unfold deliverEffects, speechEffects.
  destruct (op (ws c)), (enableAudio c), r; done.
Qed.

Lemma jobs_answers op eid t conns targets st rs Δ st' :
  JobsRun op eid t conns targets st rs Δ st' →
  (audioFrames Δ).*2 = resolvedSpeech Δ.
Proof.
  induction 1 as [|l0 ls st r Δ st1 rs Δs st2 Hjob Hjobs IH]; [done|].
  rewrite audioFrames_app, resolvedSpeech_app, fmap_app, IH. f_equal.
  destruct Hjob as [st m0|st content ts rs0 tt rec clients Hlen]; [done|].
  apply (deliverAll_answers op t tt rec clients rs0).
Qed.

(** The client [c] of a delivery, when it is open and has audio
    enabled, is sent the text, then the speech service is called, then
    [c] is sent the audio if there is one. *)
Lemma deliverAll_spoken op t tt rec cs : ∀ rs c,
  length rs = length cs → c ∈ cs → op (ws c) = true → enableAudio c = true →
  ∃ r, spokenTo (ws c) rec t tt r `sublist_of` deliverAll op t tt rec cs rs.
Proof.
  induction cs as [|c0 cs IH]; intros rs c Hlen Hin Hop Haudio;
    [by apply elem_of_nil in Hin|].
  destruct rs as [|r rs]; [done|]. simpl in Hlen. simpl.
  apply elem_of_cons in Hin as [->|Hin].
  - exists r. unfold deliverEffects, speechEffects. rewrite Hop, Haudio.
    by apply sublist_inserts_r.
  - destruct (IH rs c) as (r' & Hsub); [lia|done..|].
    exists r'. by apply sublist_inserts_l.
Qed.

Lemma jobs_spoken op eid t conns targets st rs Δ st' l content :
  JobsRun op eid t conns targets st rs Δ st' →
  EChat t l (Resolved content) ∈ Δ →
  ∃ rec,
    tr_language rec = l ∧ translatedText rec = Some (orString content t)
    ∧ ∀ c, c ∈ conns → language c = l → op (ws c) = true → enableAudio c = true →
           ∃ r, spokenTo (ws c) rec t (orString content t) r `sublist_of` Δ.
Proof.
  induction 1 as [|l0 ls st r Δ st1 rs Δs st2 Hjob Hjobs IH];
    intros Hin; [by apply elem_of_nil in Hin|].
  apply elem_of_app in Hin as [Hin|Hin].
  - destruct Hjob as [st m|st content0 ts rs0 tt rec clients Hlen].
    { by apply list_elem_of_singleton in Hin. }
    apply elem_of_cons in Hin as [Heq|Hin].
    2:{ apply elem_of_cons in Hin as [?|Hin]; [done|].
        by apply deliverAll_no_chat in Hin. }
    injection Heq as -> ->. exists rec. split_and!; [done|done|].
    intros c Hc Hl Hop Haudio.
    destruct (deliverAll_spoken op t tt rec clients rs0 c) as (r' & Hsub);
      [done|by apply list_elem_of_filter|done|done|].
    exists r'. apply sublist_inserts_r. by do 2 apply sublist_cons.
  - destruct (IH Hin) as (rec & ? & ? & Hcs). exists rec. split_and!; [done|done|].
    intros c Hc Hl Hop Haudio. destruct (Hcs c Hc Hl Hop Haudio) as (r' & Hsub).
    exists r'. by apply sublist_inserts_l.
Qed.

(** C2, as the code has it — For a segment, the speech service is
    called once for every open, audio-enabled connection of every
    target language whose translation succeeded (with the translated
    text and the voice [nova]), so more than once for a language with
    several such connections, and never for a language whose
    translation failed.  A call is made for one connection: it follows
    the text frame of that connection, and when it resolves its audio
    is sent to that connection.  A call that fails costs that one audio
    frame and nothing else: the audio frames of the segment are the
    answers of the calls that resolved, one for one; whatever the
    speech service answers, every open connection of a translated
    language is sent the text, no [error] frame is sent to anyone, and
    the failed count of the completion status is the number of failed
    translation calls.  The calls and frames of different languages
    are taken up to their order. *)
Theorem synthesis_is_per_connection s w eid a t :
  let i := audioFrame w (Some eid) (AudioString a) in
  let Δ := effectsOf s i in
  let conns := default [] (activeConnections s !! eid) in
  EWhisper a (Resolved t) ∈ Δ →
  isEmptyTranscription t = false →
  speechCalls Δ ≡ₚ speechPlan (opens s) conns (resolvedChats Δ)
  ∧ (∀ l content, EChat t l (Resolved content) ∈ Δ →
       ServedWith (opens s) eid t conns l content Δ (storage (step s i)))
  ∧ (∀ l content, EChat t l (Resolved content) ∈ Δ →
       ∃ rec,
         tr_language rec = l ∧ translatedText rec = Some (orString content t)
         ∧ ∀ c, c ∈ conns → language c = l →
                isOPEN (ws c) s = true → enableAudio c = true →
                ∃ r, spokenTo (ws c) rec t (orString content t) r `sublist_of` Δ)
  ∧ (audioFrames Δ).*2 ≡ₚ resolvedSpeech Δ
  ∧ (∀ w' e, ESend w' (error e) ∉ Δ)
  ∧ (isOPEN w s = true →
     ∃ d, aggregates w Δ = [d]
          ∧ failedTranslations d = length (rejectedChats Δ)).
Proof.
  intros i Δ conns Hin Hne.
  destruct (segment_shape s w eid a t Hin Hne)
    as (ts & rs & Δjobs & st' & Hacc & Hst & _ & _ & HΔ & Hjobs).
  fold i in Hst, HΔ. fold conns in HΔ, Hjobs. fold Δ in HΔ.
  split_and!.
  - destruct (segment_projections s w eid a t ts rs Δjobs) as (_ & _ & Hr & Hs & _).
    fold conns in Hr, Hs. rewrite <- HΔ in Hr, Hs. rewrite Hr, Hs.
    by erewrite jobs_speech.
  - intros l content Hchat.
    by destruct (segment_resolved s w eid a t t l content Hin Hne Hchat) as (_ & _ & ?).
  - intros l content Hchat.
    assert (Hchat' : EChat t l (Resolved content) ∈ Δjobs).
    { rewrite HΔ in Hchat. unfold segmentPrefix in Hchat.
      repeat (apply elem_of_app in Hchat as [Hchat|Hchat]);
        try (by apply sendEffects_kind in Hchat);
        try (by apply list_elem_of_singleton in Hchat); try done.
      by apply originalEffects_sends in Hchat as (c & _ & _ & ?). }
    destruct (jobs_spoken _ _ _ _ _ _ _ _ _ _ _ Hjobs Hchat') as (rec & ? & ? & Hcs).
    exists rec. split_and!; [done|done|].
    intros c Hc Hl Hop Haudio. destruct (Hcs c Hc Hl Hop Haudio) as (r & Hsub).
    exists r. rewrite HΔ. apply sublist_inserts_l. by apply sublist_inserts_r.
  - rewrite HΔ. unfold segmentPrefix.
    rewrite !audioFrames_app, !resolvedSpeech_app.
    destruct (originalEffects_audio (opens s) (sourceRecord (storage s) eid t ts) t
                (filter (λ c, language c = English) conns)) as [-> ->].
    destruct (audioFrames_send (opens s) w processingStatus eq_refl) as [-> ->].
    destruct (audioFrames_send (opens s) w (transcribedStatus t) eq_refl) as [-> ->].
    destruct (audioFrames_send (opens s) w
                (completion t rs (length (uniqueOf (language <$> conns)))) eq_refl)
      as [-> ->].
    simpl. rewrite !app_nil_r. by erewrite jobs_answers.
  - intros w' e Hsend.
    destruct (segment_sends s w eid a t w' _ Hin Hne Hsend)
      as (_ & [(_ & ? & ? & ? & ? & ?)
              |[(c & rec & _ & _ & _ & ? & _)
               |(c & _ & _ & _ & [(rec & ? & _)|(_ & ? & ? & ?)])]]); done.
  - intros Hop.
    destruct (segment_completion s w eid a t Hin Hne Hop)
      as (d & ? & _ & _ & ? & _).
    by exists d.
Qed.

(** *** The three-connection scenario *)

Lemma segmentPrefix_kinds op w a t rec conns e :
  e ∈ segmentPrefix op w a t rec conns →
  match e with EChat _ _ _ | ESpeech _ _ _ => False | _ => True end.
Proof.
  unfold segmentPrefix. intros Hin.
  repeat (apply elem_of_app in Hin as [Hin|Hin]).
  - by apply sendEffects_kind in Hin as ->.
  - by apply list_elem_of_singleton in Hin as ->.
  - by apply list_elem_of_singleton in Hin as ->.
  - by apply sendEffects_kind in Hin as ->.
  - by apply originalEffects_sends in Hin as (c & _ & _ & ->).
Qed.

Lemma originalEffects_text op rec t cs c :
  c ∈ cs → op (ws c) = true →
  ESend (ws c) (translation rec t English) ∈ originalEffects op rec t cs.
Proof.
  intros Hc Hop. induction Hc as [c cs|c c' cs _ IH]; simpl; apply elem_of_app.
  - left. unfold sendEffects. rewrite Hop. by left.
  - right. by apply IH.
Qed.

Lemma deliveries_app w Δ1 Δ2 : deliveries w (Δ1 ++ Δ2) = deliveries w Δ1 ++ deliveries w Δ2.
Proof. apply omap_app. Qed.

Lemma deliveries_status op w w' st note tr d :
  deliveries w' (sendEffects op w (processing_status st note tr d)) = [].
Proof.
  unfold sendEffects. destruct (op w); [|done]. simpl. by destruct (decide (w = w')).
Qed.

(** C6 — In a segment's fan-out, an [audio_translation] frame only
    ever goes to the transport of an audio-enabled connection of a
    language other than English, and every open English connection is
    sent the original text with the record of the original.  In the
    event with the three open connections A (English, no audio), B
    and C (one target language, B with audio, C without), when the
    translation and B's synthesis succeed: A gets exactly the
    translation frame with the original, B the translation frame with
    the translated text and then the audio, C the translation frame
    with the translated text and no audio. *)
Theorem text_and_audio_delivery s w eid a t :
  let i := audioFrame w (Some eid) (AudioString a) in
  let Δ := effectsOf s i in
  let conns := default [] (activeConnections s !! eid) in
  EWhisper a (Resolved t) ∈ Δ →
  isEmptyTranscription t = false →
  (∀ w' au x, ESend w' (audio_translation au x) ∈ Δ →
     ∃ c, c ∈ conns ∧ ws c = w' ∧ enableAudio c = true ∧ language c ≠ English)
  ∧ (∀ c, c ∈ conns → language c = English → isOPEN (ws c) s = true →
       ∃ rec, translatedText rec = None ∧ originalText rec = t
              ∧ ESend (ws c) (translation rec t English) ∈ Δ)
  ∧ (∀ A B C lang content audio,
       activeConnections s !! eid = Some [A; B; C] →
       language A = English → enableAudio A = false →
       language B = lang → enableAudio B = true →
       language C = lang → enableAudio C = false →
       lang ≠ English →
       ws A ≠ ws B → ws A ≠ ws C → ws B ≠ ws C →
       isOPEN (ws A) s = true → isOPEN (ws B) s = true → isOPEN (ws C) s = true →
       EChat t lang (Resolved content) ∈ Δ →
       ESpeech (orString content t) nova (Resolved audio) ∈ Δ →
       ∃ recE recL,
         translatedText recE = None ∧ tr_language recE = English
         ∧ originalText recE = t
         ∧ translatedText recL = Some (orString content t)
         ∧ tr_language recL = lang ∧ originalText recL = t
         ∧ deliveries (ws A) Δ = [translation recE t English]
         ∧ deliveries (ws B) Δ
           = [translation recL t English;
              audio_translation audio (orString content t)]
         ∧ deliveries (ws C) Δ = [translation recL t English]).
Proof.
  intros i Δ conns Hin Hne. split_and!.
  - intros w' au x Hsend.
    destruct (segment_sends s w eid a t w' _ Hin Hne Hsend)
      as (_ & [(_ & ? & ? & ? & ? & ?)
              |[(c & rec & _ & _ & _ & ? & _)
               |(c & ? & ? & ? & [(rec & ? & _)|(? & _)])]]); try done.
    by exists c.
  - intros c Hc Hl Hop.
    destruct (segment_shape s w eid a t Hin Hne)
      as (ts & rs & Δjobs & st' & Hacc & Hst & _ & _ & HΔ & Hjobs).
    fold i in HΔ. fold conns in HΔ. fold Δ in HΔ.
    exists (sourceRecord (storage s) eid t ts). split_and!; [done|done|].
    rewrite HΔ. apply elem_of_app; left. unfold segmentPrefix.
    do 4 (apply elem_of_app; right).
    apply originalEffects_text; [by apply list_elem_of_filter|done].
  - intros A B C lang content audio Hgroup HA HAa HB HBa HC HCa Hlang
      HAB HAC HBC HopA HopB HopC Hchat Hspeech.
    destruct (segment_shape s w eid a t Hin Hne)
      as (ts & rs & Δjobs & st' & Hacc & Hst & _ & _ & HΔ & Hjobs).
    fold i in HΔ. fold conns in HΔ, Hjobs. fold Δ in HΔ.
    assert (Hconns : conns = [A; B; C]) by (unfold conns; by rewrite Hgroup).
    rewrite Hconns in HΔ, Hjobs.
    destruct A as [wa la sa aa oa], B as [wb lb sb ab ob], C as [wc lc sc ac oc].
    simpl in HA, HAa, HB, HBa, HC, HCa, HAB, HAC, HBC, HopA, HopB, HopC.
    subst la aa lb ab lc ac.
    set (A := mkEventConnection wa English sa false oa) in *.
    set (B := mkEventConnection wb lang sb true ob) in *.
    set (C := mkEventConnection wc lang sc false oc) in *.
    assert (Htargets : targetsOf [A; B; C] = [lang]).
    { unfold targetsOf, uniqueOf. simpl.
      rewrite (decide_False (P := lang ∈ [English]))
        by (by intros ?%list_elem_of_singleton).
      rewrite (decide_True (P := lang ∈ [English; lang])) by (right; left).
      rewrite filter_cons_False by (by intros ?).
      by rewrite filter_cons_True. }
    assert (HforE : filter (λ c, language c = English) [A; B; C] = [A]).
    { rewrite filter_cons_True by done.
      rewrite !filter_cons_False by (simpl; congruence). done. }
    assert (HforL : filter (λ c, language c = lang) [A; B; C] = [B; C]).
    { rewrite filter_cons_False by (simpl; congruence).
      by rewrite !filter_cons_True by done. }
    assert (Hchat' : EChat t lang (Resolved content) ∈ Δjobs).
    { rewrite HΔ in Hchat. apply elem_of_app in Hchat as [Hchat|Hchat].
      - by apply segmentPrefix_kinds in Hchat.
      - apply elem_of_app in Hchat as [Hchat|Hchat]; [done|].
        by apply sendEffects_kind in Hchat. }
    assert (Hspeech' : ESpeech (orString content t) nova (Resolved audio) ∈ Δjobs).
    { rewrite HΔ in Hspeech. apply elem_of_app in Hspeech as [Hspeech|Hspeech].
      - by apply segmentPrefix_kinds in Hspeech.
      - apply elem_of_app in Hspeech as [Hspeech|Hspeech]; [done|].
        by apply sendEffects_kind in Hspeech. }
    rewrite Htargets in Hjobs.
    inversion Hjobs as [|l ls st0 r Δ1 st1 rs' Δs st2 Hjob Hnil]; subst.
    inversion Hnil; subst. rewrite app_nil_r in *.
    inversion Hjob as [st0 m|st0 content0 ts0 rs0 tt rec clients Hlen]; subst.
    { by apply list_elem_of_singleton in Hchat'. }
    subst clients. rewrite HforL in *.
    destruct rs0 as [|r1 [|r2 [|]]]; try done.
    apply elem_of_cons in Hchat' as [Hc0|Hchat'].
    2:{ apply elem_of_cons in Hchat' as [?|Hchat']; [done|].
        by apply deliverAll_no_chat in Hchat'. }
    injection Hc0 as <-.
    assert (r1 = Resolved audio) as ->.
    { do 2 (apply elem_of_cons in Hspeech' as [?|Hspeech']; [done|]).
      simpl in Hspeech'. unfold deliverEffects, speechEffects in Hspeech'.
      simpl in Hspeech'. fold (opens s wb) (opens s wc) in Hspeech'.
      unfold opens in Hspeech'. rewrite HopB, HopC in Hspeech'.
      apply elem_of_cons in Hspeech' as [?|Hspeech']; [done|].
      apply elem_of_cons in Hspeech' as [Heq|Hspeech']; [by injection Heq|].
      destruct r1; simpl in Hspeech'.
      - apply elem_of_cons in Hspeech' as [?|Hspeech']; [done|].
        by apply elem_of_nil in Hspeech'.
      - do 2 (apply elem_of_cons in Hspeech' as [?|Hspeech']; [done|]).
        by apply elem_of_nil in Hspeech'. }
    exists (sourceRecord (storage s) eid t ts), rec. subst rec tt.
    split_and!; try done.
    all: rewrite HΔ; unfold segmentPrefix; rewrite HforE;
      unfold processingStatus, transcribedStatus, completion;
      rewrite !deliveries_app, !deliveries_status;
      unfold originalEffects, deliverAll, deliverEffects, speechEffects,
        sendEffects, opens; simpl;
      rewrite ?HopA, ?HopB, ?HopC; simpl;
      repeat (case_decide; simpl); congruence.
Qed.

(** ** Segments that stop early *)

Lemma step_accepted s w eid a :
  Accepted s w eid a →
  step s (audioFrame w (Some eid) (AudioString a)) = processAudio w eid a s.
Proof.
  intros (k & c & Hk & Hopen & Heid & Ha & [ev Hev] & Hc & Horg).
  unfold audioFrame, step. rewrite Hk.
  rewrite decide_False by done.
  unfold handleMessage, handleAudioData, truthyNumber.
  rewrite decide_False by done.
  destruct a as [|c0 a]; [done|].
  rewrite Hev, Hc. destruct c as [? ? ? ? org]. simpl in Horg. by rewrite Horg.
Qed.

Lemma transcribeAudio_resolved a s0 t s1 :
  transcribeAudio a s0 = (Resolved t, s1) →
  ∃ Δw, s1 = advance s0 Δw ∧ (Δw = [] ∨ Δw = [EWhisper a (Resolved t)]).
Proof.
  unfold transcribeAudio.
  destruct (base64Length a <? 100)%nat.
  - intros [= <- <-]. exists []. by rewrite advance_nil; auto.
  - destruct (whisper (trace s0) a) as [m|t'] eqn:Hw; [done|].
    intros [= <- <-]. exists [EWhisper a (Resolved t')]. auto.
Qed.

(** C7 — When the transcription of an accepted segment comes back
    empty or made of white space only, the step creates no record
    (the store is unchanged), calls neither the translation nor the
    speech service, leaves the registry as it was, and sends frames to
    the submitter only: the acknowledgement and then one completion
    status saying that no speech was detected. *)
Theorem blank_transcription_stops_the_segment s w eid a t s1 :
  let i := audioFrame w (Some eid) (AudioString a) in
  let Δ := effectsOf s i in
  Accepted s w eid a →
  (50 ≤ length a)%nat →
  transcribeAudio a (ws_send w processingStatus s) = (Resolved t, s1) →
  isEmptyTranscription t = true →
  storage (step s i) = storage s
  ∧ activeConnections (step s i) = activeConnections s
  ∧ created Δ = [] ∧ chatCalls Δ = [] ∧ speechCalls Δ = []
  ∧ (∀ w' m, ESend w' m ∈ Δ → w' = w ∧ (m = processingStatus ∨ m = noSpeech))
  ∧ (isOPEN w s = true → sentTo w Δ = [processingStatus; noSpeech]).
Proof.
  intros i Δ Hacc Hlen Htr Hempty.
  assert (Hstep : ∃ Δw, (Δw = [] ∨ Δw = [EWhisper a (Resolved t)])
            ∧ step s i = advance s (sendEffects (opens s) w processingStatus
                                      ++ Δw ++ sendEffects (opens s) w noSpeech)).
  { unfold i. rewrite (step_accepted _ _ _ _ Hacc). unfold processAudio.
    apply Nat.ltb_ge in Hlen. rewrite Hlen.
    fold processingStatus. rewrite Htr, Hempty. fold noSpeech.
    apply transcribeAudio_resolved in Htr as (Δw & -> & HΔw).
    exists Δw. split; [done|].
    rewrite !ws_send_advance. state_eq. }
  destruct Hstep as (Δw & HΔw & Hstep).
  assert (HΔ : Δ = sendEffects (opens s) w processingStatus
                   ++ Δw ++ sendEffects (opens s) w noSpeech)
    by (by apply (effects_of_advance _ _ _ _ Hstep)).
  rewrite Hstep, HΔ. split_and!; try done.
  - rewrite !created_app, !created_send. by destruct HΔw as [-> | ->].
  - rewrite !chatCalls_app, !chatCalls_send. by destruct HΔw as [-> | ->].
  - rewrite !speechCalls_app, !speechCalls_send. by destruct HΔw as [-> | ->].
  - intros w' m Hin.
    apply elem_of_app in Hin as [Hin|Hin].
    { apply sendEffects_kind in Hin. injection Hin as -> ->. auto. }
    apply elem_of_app in Hin as [Hin|Hin].
    { destruct HΔw as [-> | ->]; [by apply elem_of_nil in Hin|].
      by apply list_elem_of_singleton in Hin. }
    apply sendEffects_kind in Hin. injection Hin as -> ->. auto.
  - intros Hop. rewrite !sentTo_app, !sentTo_send.
    unfold opens. rewrite Hop, !decide_True by done.
    by destruct HΔw as [-> | ->].
Qed.

(** What the authorization check does refuse.  The sender is looked up
    by the session id its transport joined with last, in the group of
    the event the frame names.  When that look-up finds no entry, or an
    entry that is not an organizer's, the frame is answered with one
    [error] frame to the sender and has no other effect: no service is
    called, no record is created, nothing is sent to anyone else, and
    registry, transports and store are left as they were.  For a
    well-formed frame naming an existing event the error is the refusal
    "Only organizers can broadcast audio".  The entry found need not be
    the sender's own. *)
Lemma audio_from_non_organizer_is_refused s w k eventId ab :
  let i := audioFrame w eventId ab in
  sockets s !! w = Some k →
  state k ≠ CLOSED →
  (∀ eid c, eventId = Some eid →
            senderConnection eid (var_sessionId k) s = Some c →
            isOrganizer c = false) →
  ∃ e, step s i = ws_send w (error e) s
       ∧ effectsOf s i = (if isOPEN w s then [ESend w (error e)] else [])
       ∧ activeConnections (step s i) = activeConnections s
       ∧ sockets (step s i) = sockets s
       ∧ storage (step s i) = storage s
       ∧ (∀ eid a, eventId = Some eid → eid ≠ 0 → ab = AudioString a → a ≠ [] →
                   is_Some (getEvent eid (storage s)) →
                   e = Only_organizers_can_broadcast_audio).
Proof.
  intros i Hk Hopen Hnot.
  assert (Hgoal : ∃ e, step s i = ws_send w (error e) s
            ∧ (∀ eid a, eventId = Some eid → eid ≠ 0 → ab = AudioString a → a ≠ [] →
                        is_Some (getEvent eid (storage s)) →
                        e = Only_organizers_can_broadcast_audio)).
  { unfold i, audioFrame, step. rewrite Hk, decide_False by done.
    unfold handleMessage, handleAudioData, truthyNumber.
    destruct eventId as [eid|].
    2:{ eexists. split; [done|]. by intros. }
    destruct (decide (eid = 0)) as [->|Heid].
    { eexists. split; [done|]. intros ? ? [= <-] ?. done. }
    destruct ab as [|[|]|a];
      try (eexists; split; [done|]; by intros ? ? _ _ ?).
    destruct a as [|c0 a].
    { eexists. split; [done|]. intros ? ? _ _ [= <-] ?. done. }
    destruct (getEvent eid (storage s)) as [ev|] eqn:Hev.
    2:{ eexists. split; [done|]. intros ? ? [= <-] _ _ _ [? ?]. congruence. }
    destruct (senderConnection eid (var_sessionId k) s) as [c|] eqn:Hc.
    2:{ eexists. split; [done|]. by intros. }
    pose proof (Hnot eid c eq_refl Hc) as Horg.
    destruct c as [? ? ? ? org]. simpl in Horg. subst org.
    eexists. split; [done|]. by intros. }
  destruct Hgoal as (e & Hstep & He). exists e.
  rewrite Hstep. split_and!; try done; try (by rewrite ws_send_advance).
  unfold effectsOf. rewrite Hstep. unfold ws_send.
  destruct (isOPEN w s); simpl.
  - by rewrite drop_app_length.
  - by rewrite drop_all.
Qed.

(** ** The registry after a join *)

Lemma findIndex_lookup {A} (p : A → bool) (l : list A) i :
  findIndex p l = Some i → ∃ x, l !! i = Some x ∧ p x = true.
Proof.
  revert i. induction l as [|y l IH]; intros i; simpl; [done|].
  destruct (p y) eqn:Hp.
  - intros [= <-]. by exists y.
  - destruct (findIndex p l) as [j|]; [|done]. intros [= <-].
    destruct (IH j eq_refl) as (x & ? & ?). by exists x.
Qed.

Lemma register_connections w eid sid lang audio organizer s :
  activeConnections (register w eid sid lang audio organizer s)
  = joinGroup eid (mkEventConnection w lang sid audio organizer)
      (activeConnections s).
Proof.
  unfold register, pushConnection, joinGroup, removeFirst. simpl.
  unfold ensureGroup, setVars, supersede. simpl.
  destruct (activeConnections s !! eid) as [conns|] eqn:Hg; simpl.
  - rewrite Hg.
    destruct (findIndex _ conns) as [j|] eqn:Hj; simpl.
    + destruct (findIndex_lookup _ _ _ Hj) as (old & Hold & _). rewrite Hold.
      destruct (isOPEN _ _); simpl.
      * apply map_eq. intros e. rewrite lookup_alter.
        destruct (decide (eid = e)) as [->|]; simplify_map_eq; done.
      * apply map_eq. intros e. rewrite lookup_alter.
        destruct (decide (eid = e)) as [->|]; simplify_map_eq; done.
    + apply map_eq. intros e. rewrite lookup_alter.
      destruct (decide (eid = e)) as [->|]; simplify_map_eq; done.
  - rewrite lookup_insert_eq. simpl.
    apply map_eq. intros e. rewrite lookup_alter.
    destruct (decide (eid = e)) as [->|]; simplify_map_eq; done.
Qed.

Lemma broadcastCount_advance cs : ∀ s, ∃ Δ, broadcastCount cs s = advance s Δ.
Proof.
  unfold broadcastCount. generalize (length (filter (λ c, isOrganizer c = false) cs)).
  intros n. induction cs as [|c cs IH]; intros s; simpl.
  - exists []. by rewrite advance_nil.
  - destruct (isOPEN (ws c) s).
    + rewrite ws_send_advance.
      destruct (IH (advance s (sendEffects (opens s) (ws c) (participant_count n))))
        as [Δ ->].
      eexists. by rewrite advance_advance.
    + apply IH.
Qed.

Lemma evolves_refl s : evolves s s.
Proof. exists (storage s), []. by rewrite put_storage_id, advance_nil. Qed.

Lemma evolves_advance s s' Δ : evolves s s' → evolves s (advance s' Δ).
Proof. intros (st' & Δ0 & ->). exists st', (Δ0 ++ Δ). by rewrite advance_advance. Qed.

Lemma evolves_send s s' w m : evolves s s' → evolves s (ws_send w m s').
Proof. intros H. rewrite ws_send_advance. by apply evolves_advance. Qed.

Lemma evolves_broadcast s s' cs : evolves s s' → evolves s (broadcastCount cs s').
Proof.
  intros H. destruct (broadcastCount_advance cs s') as [Δ ->].
  by apply evolves_advance.
Qed.

Lemma evolves_storage s s' f : evolves s s' → evolves s (with_storage f s').
Proof. intros (st' & Δ0 & ->). by exists (f st'), Δ0. Qed.

Lemma announceJoin_advance w eid sid lang organizer s :
  evolves s (announceJoin w eid sid lang organizer s).
Proof.
  unfold announceJoin. cbv zeta.
  apply evolves_broadcast, evolves_send.
  match goal with |- evolves _ (match ?x with _ => _ end) => destruct x end;
    apply evolves_send, evolves_send.
  all: destruct organizer; try apply evolves_refl.
  all: destruct (getParticipantBySessionId sid (storage s)); try apply evolves_refl.
  all: unfold createParticipant; simpl; rewrite emit_advance;
    apply evolves_advance, evolves_storage, evolves_refl.
Qed.

Lemma resolveSessionId_advance sid s :
  ∃ Δ, (resolveSessionId sid s).2 = advance s Δ.
Proof.
  unfold resolveSessionId. destruct sid as [[|]|]; simpl;
    try (exists []; by rewrite advance_nil); by eexists [_].
Qed.

Lemma handleJoin_connections w eventId sid lang audio organizer s :
  activeConnections (handleJoin w eventId sid lang audio organizer s)
  = match truthyNumber eventId with
    | None => activeConnections s
    | Some eid =>
        joinGroup eid
          (mkEventConnection w (orString lang English)
             (resolveSessionId sid s).1 (default false audio)
             (default false organizer))
          (activeConnections s)
    end.
Proof.
  unfold handleJoin. destruct (truthyNumber eventId) as [eid|].
  2:{ by rewrite ws_send_advance. }
  destruct (resolveSessionId_advance sid s) as [Δ0 Hs0].
  destruct (resolveSessionId sid s) as [sid' s0]. simpl in Hs0. subst s0.
  match goal with |- context [announceJoin ?w ?e ?i ?l ?o ?s1] =>
    destruct (announceJoin_advance w e i l o s1) as (st' & Δ & ->) end.
  unfold advance at 1. unfold put_storage, with_storage. cbn [activeConnections].
  by rewrite register_connections.
Qed.

(** *** The invariant of the registry *)

Lemma filter_all {A} (P : A → Prop) `{∀ x, Decision (P x)} (l : list A) :
  (∀ x, x ∈ l → P x) → filter P l = l.
Proof.
  induction l as [|x l IH]; intros Hall; [done|].
  rewrite filter_cons_True by (apply Hall; by left).
  f_equal. apply IH. intros y Hy. apply Hall. by right.
Qed.

Lemma filter_none {A} (P : A → Prop) `{∀ x, Decision (P x)} (l : list A) :
  (∀ x, x ∈ l → ¬ P x) → filter P l = [].
Proof.
  induction l as [|x l IH]; intros Hall; [done|].
  rewrite filter_cons_False by (apply Hall; by left).
  apply IH. intros y Hy. apply Hall. by right.
Qed.

Lemma removeFirst_filter sid conns :
  NoDup (sessionId <$> conns) →
  removeFirst sid conns = filter (λ c, sessionId c ≠ sid) conns.
Proof.
  unfold removeFirst. induction conns as [|c conns IH]; [done|].
  rewrite fmap_cons. intros [Hc Hnd]%NoDup_cons. simpl.
  destruct (decide (sessionId c = sid)) as [Heq|Hne].
  - rewrite bool_decide_eq_true_2 by done. rewrite filter_cons_False by tauto.
    unfold splice1. simpl. rewrite drop_0.
    symmetry. apply filter_all. intros c' Hc' Heq'.
    apply Hc. rewrite Heq, <- Heq'. by apply list_elem_of_fmap_2.
  - rewrite bool_decide_eq_false_2 by done. rewrite filter_cons_True by done.
    specialize (IH Hnd).
    destruct (findIndex _ conns) as [j|]; simpl.
    + unfold splice1 in *. simpl. by rewrite IH.
    + by rewrite <- IH.
Qed.

Lemma NoDup_sessions_filter (P : EventConnection → Prop) `{∀ c, Decision (P c)} conns :
  NoDup (sessionId <$> conns) → NoDup (sessionId <$> filter P conns).
Proof.
  induction conns as [|c conns IH]; [done|].
  rewrite fmap_cons. intros [Hc Hnd]%NoDup_cons.
  destruct (decide (P c)).
  - rewrite filter_cons_True by done. rewrite fmap_cons. apply NoDup_cons.
    split; [|by apply IH].
    intros (c' & Heq & Hc')%list_elem_of_fmap.
    apply list_elem_of_filter in Hc' as [_ Hc'].
    apply Hc. rewrite Heq. by apply list_elem_of_fmap_2.
  - rewrite filter_cons_False by done. by apply IH.
Qed.

Lemma joinGroup_good eid c m : goodGroups m → goodGroups (joinGroup eid c m).
Proof.
  intros Hgood e conns. unfold joinGroup.
  destruct (decide (eid = e)) as [<-|Hne].
  - rewrite lookup_insert_eq. intros [= <-]. split; [by destruct (removeFirst _ _)|].
    assert (NoDup (sessionId <$> default [] (m !! eid))) as Hnd.
    { destruct (m !! eid) as [old|] eqn:Hold; simpl; [|apply NoDup_nil_2].
      by apply (Hgood eid old). }
    rewrite (removeFirst_filter _ _ Hnd), fmap_app. simpl.
    apply NoDup_app. split_and!.
    + by apply NoDup_sessions_filter.
    + intros sid (c' & Heq & Hc')%list_elem_of_fmap Hsid%list_elem_of_singleton.
      apply list_elem_of_filter in Hc' as [Hne _]. congruence.
    + apply NoDup_singleton.
  - rewrite lookup_insert_ne by done. apply Hgood.
Qed.

Lemma updateEntry_good f eid sid s :
  (∀ c, sessionId (f c) = sessionId c) →
  goodGroups (activeConnections s) →
  goodGroups (activeConnections (updateEntry f eid sid s)).
Proof.
  intros Hf Hgood. unfold updateEntry.
  destruct (activeConnections s !! eid) as [conns|] eqn:Hg; [|done].
  destruct (findIndex _ conns) as [j|]; [|done]. simpl.
  intros e conns'. destruct (decide (eid = e)) as [<-|Hne].
  - rewrite lookup_insert_eq. intros [= <-].
    destruct (Hgood eid conns Hg) as [Hne Hnd]. split.
    + intros Hnil. apply (f_equal length) in Hnil.
      rewrite length_alter in Hnil. by destruct conns.
    + rewrite (list_fmap_alter sessionId f id)
        by (apply Forall_forall; intros; apply Hf).
      by rewrite list_alter_id.
  - rewrite lookup_insert_ne by done. apply Hgood.
Qed.

Lemma handleClose_good k s :
  goodGroups (activeConnections s) →
  goodGroups (activeConnections (handleClose k s)).
Proof.
  intros Hgood. unfold handleClose.
  destruct (decide (var_eventId k = 0)); [done|].
  destruct (activeConnections s !! var_eventId k) as [conns|] eqn:Hg; [|done].
  destruct (0 <? length (filter _ conns))%nat eqn:Hlen.
  - destruct (broadcastCount_advance
                (filter (λ c, sessionId c ≠ var_sessionId k) conns)
                (with_connections
                   (<[var_eventId k := filter (λ c, sessionId c ≠ var_sessionId k) conns]>)
                   s)) as [Δ ->].
    simpl. intros e conns'. destruct (decide (var_eventId k = e)) as [<-|Hne].
    + rewrite lookup_insert_eq. intros [= <-]. split.
      * apply Nat.ltb_lt in Hlen. intros Hnil. rewrite Hnil in Hlen. simpl in Hlen. lia.
      * apply NoDup_sessions_filter. by apply (Hgood _ _ Hg).
    + rewrite lookup_insert_ne by done. apply Hgood.
  - simpl. intros e conns'. destruct (decide (var_eventId k = e)) as [<-|Hne].
    + by rewrite lookup_delete_eq.
    + rewrite lookup_delete_ne by done. apply Hgood.
Qed.

Lemma step_good s i :
  goodGroups (activeConnections s) → goodGroups (activeConnections (step s i)).
Proof.
  intros Hgood. destruct i as [w|w f|w].
  - simpl. destruct (sockets s !! w); [done|]. by rewrite ws_send_advance.
  - destruct f as [|[eventId sid lang audio organizer|lang|audio|eventId ab|]].
    + simpl. destruct (sockets s !! w) as [k|]; [|done].
      destruct (decide _); [done|]. simpl. by rewrite ws_send_advance.
    + simpl. destruct (sockets s !! w) as [k|]; [|done].
      destruct (decide _); [done|]. simpl.
      rewrite handleJoin_connections. destruct (truthyNumber eventId); [|done].
      by apply joinGroup_good.
    + simpl. destruct (sockets s !! w) as [k|]; [|done].
      destruct (decide _); [done|]. simpl. unfold handleUpdateLanguage.
      destruct (getParticipantBySessionId _ _); simpl; by apply updateEntry_good.
    + simpl. destruct (sockets s !! w) as [k|]; [|done].
      destruct (decide _); [done|]. simpl. unfold handleToggleAudio.
      by apply updateEntry_good.
    + destruct (audio_step s w eventId ab) as (Δ & st' & Hstep & _).
      unfold audioFrame in Hstep. by rewrite Hstep.
    + simpl. destruct (sockets s !! w) as [k|]; [|done]. by destruct (decide _).
  - simpl. destruct (sockets s !! w) as [k|]; [|done].
    destruct (decide _); [done|]. by apply handleClose_good.
Qed.

Lemma run_good inputs : ∀ s,
  goodGroups (activeConnections s) → goodGroups (activeConnections (run s inputs)).
Proof.
  induction inputs as [|i inputs IH]; intros s Hgood; [done|].
  simpl. apply IH. by apply step_good.
Qed.

Lemma startUp_good st : goodGroups (activeConnections (startUp st)).
Proof. intros e conns. simpl. by rewrite lookup_empty. Qed.

Lemma step_join_connections s w k eid sid lang audio organizer :
  sockets s !! w = Some k → state k ≠ CLOSED → eid ≠ 0 →
  activeConnections
    (step s (Message w (Parsed (join (Some eid) sid lang audio organizer))))
  = joinGroup eid
      (mkEventConnection w (orString lang English) (resolveSessionId sid s).1
         (default false audio) (default false organizer))
      (activeConnections s).
Proof.
  intros Hk Hopen Heid. simpl. rewrite Hk, decide_False by done. simpl.
  rewrite handleJoin_connections. simpl. by rewrite decide_False.
Qed.


(** *** Supersession *)

Lemma supersede_sockets eid sid s w0 k0 :
  sockets s !! w0 = Some k0 →
  ∃ k0', sockets (supersede eid sid s) !! w0 = Some k0' ∧ sameVars k0 k0'.
Proof.
  intros Hk0. unfold supersede.
  assert (∃ k0', sockets s !! w0 = Some k0' ∧ sameVars k0 k0') as Hsame
    by (exists k0; unfold sameVars; auto).
  destruct (activeConnections s !! eid) as [conns|]; [|done].
  destruct (findIndex _ conns) as [j|]; [|done].
  destruct (conns !! j) as [old|]; [|done].
  destruct (isOPEN (ws old) s); [|done]. simpl.
  destruct (decide (ws old = w0)) as [->|Hne].
  - rewrite lookup_alter_eq, Hk0. simpl. eexists. split; [done|].
    unfold sameVars. simpl. auto.
  - rewrite lookup_alter_ne by done. done.
Qed.

Lemma supersede_closes eid sid s conns j old :
  activeConnections s !! eid = Some conns →
  findIndex (λ c, bool_decide (sessionId c = sid)) conns = Some j →
  conns !! j = Some old →
  isOPEN (ws old) (supersede eid sid s) = false.
Proof.
  intros Hg Hj Hold. unfold supersede. rewrite Hg, Hj, Hold.
  destruct (isOPEN (ws old) s) eqn:Hop; [|done].
  unfold isOPEN, readyStateOf. apply bool_decide_eq_false_2.
  simpl. rewrite lookup_alter_eq.
  by destruct (sockets s !! ws old).
Qed.

Lemma step_join_evolves s w k eid sid lang audio organizer :
  sockets s !! w = Some k → state k ≠ CLOSED → eid ≠ 0 →
  ∃ Δ0,
    evolves
      (register w eid (resolveSessionId (Some sid) s).1 (orString lang English)
         (default false audio) (default false organizer) (advance s Δ0))
      (step s (Message w (Parsed (join (Some eid) (Some sid) lang audio organizer)))).
Proof.
  intros Hk Hopen Heid. unfold step. rewrite Hk, decide_False by done.
  unfold handleMessage, handleJoin, truthyNumber. rewrite decide_False by done.
  destruct (resolveSessionId_advance (Some sid) s) as [Δ0 Hs0].
  destruct (resolveSessionId (Some sid) s) as [sid' s0]. simpl in Hs0. subst s0.
  exists Δ0. apply announceJoin_advance.
Qed.

(** After a join that names a session already in the group of a
    reachable registry, the group holds exactly one entry of that
    session, the joiner's, and the transport of the entry it replaced
    is not open. *)
Lemma join_leaves_one_entry s w k eid sid lang audio organizer old :
  goodGroups (activeConnections s) →
  sockets s !! w = Some k → state k ≠ CLOSED → eid ≠ 0 → sid ≠ [] →
  old ∈ group eid s → sessionId old = sid →
  let s' := step s (Message w (Parsed (join (Some eid) (Some sid) lang audio
                                         organizer))) in
  filter (λ c, sessionId c = sid) (group eid s')
  = [mkEventConnection w (orString lang English) sid (default false audio)
       (default false organizer)]
  ∧ isOPEN (ws old) s' = false.
Proof.
  intros Hgood Hk Hopen Heid Hsid Hold Hsess s'.
  assert (Hres : (resolveSessionId (Some sid) s).1 = sid) by (by destruct sid).
  split.
  - unfold s', group.
    rewrite (step_join_connections _ _ _ _ _ _ _ _ Hk Hopen Heid), Hres.
    unfold joinGroup. rewrite lookup_insert_eq. simpl.
    assert (NoDup (sessionId <$> default [] (activeConnections s !! eid))) as Hnd.
    { destruct (activeConnections s !! eid) as [conns|] eqn:Hg; simpl;
        [|apply NoDup_nil_2]. by apply (Hgood eid conns). }
    rewrite (removeFirst_filter _ _ Hnd), filter_app.
    rewrite filter_cons_True by done.
    rewrite filter_none; [done|].
    intros c Hc. by apply list_elem_of_filter in Hc as [? _].
  - destruct (step_join_evolves s w k eid sid lang audio organizer Hk Hopen Heid)
      as (Δ0 & st' & Δ & Hstep).
    unfold s'. rewrite Hstep, Hres.
    unfold isOPEN, readyStateOf, register, pushConnection. simpl.
    unfold group in Hold.
    destruct (activeConnections s !! eid) as [conns|] eqn:Hg; [|by apply elem_of_nil in Hold].
    simpl in Hold.
    set (s1 := ensureGroup eid (setVars w sid eid (orString lang English)
                                 (default false audio) (advance s Δ0))).
    assert (Hg1 : activeConnections s1 !! eid = Some conns).
    { unfold s1, ensureGroup. simpl. by rewrite Hg. }
    destruct (findIndex (λ c, bool_decide (sessionId c = sid)) conns) as [j|] eqn:Hj.
    2:{ exfalso. clear -Hj Hold Hsess.
        induction Hold as [c l|c c' l _ IH]; simpl in Hj.
        - by rewrite bool_decide_eq_true_2 in Hj.
        - destruct (bool_decide _); [done|].
          destruct (findIndex _ l); [done|]. by apply IH. }
    destruct (findIndex_lookup _ _ _ Hj) as (old' & Hold' & Hsess').
    apply bool_decide_eq_true_1 in Hsess'.
    assert (old' = old) as ->.
    { destruct (Hgood eid conns Hg) as [_ Hnd].
      apply list_elem_of_lookup in Hold as [j' Hold].
      assert (j = j') as <-; [|congruence].
      eapply (NoDup_lookup (sessionId <$> conns)); [done| |];
        rewrite list_lookup_fmap; [by rewrite Hold'|by rewrite Hold; simpl; congruence]. }
    pose proof (supersede_closes eid sid s1 conns j old Hg1 Hj Hold') as Hcl.
    unfold isOPEN, readyStateOf in Hcl. exact Hcl.
Qed.

Lemma handleClose_group k s :
  var_eventId k ≠ 0 →
  group (var_eventId k) (handleClose k s)
  = filter (λ c, sessionId c ≠ var_sessionId k) (group (var_eventId k) s).
Proof.
  intros Heid. unfold handleClose, group. rewrite decide_False by done.
  destruct (activeConnections s !! var_eventId k) as [conns|] eqn:Hg; simpl.
  2:{ by rewrite Hg. }
  destruct (0 <? length (filter _ conns))%nat eqn:Hlen.
  - match goal with |- context [broadcastCount ?cs ?s1] =>
      destruct (broadcastCount_advance cs s1) as [Δ ->] end.
    simpl. by rewrite lookup_insert_eq.
  - simpl. rewrite lookup_delete_eq. simpl.
    apply Nat.ltb_ge in Hlen. by destruct (filter _ conns); [|simpl in Hlen; lia].
Qed.

Lemma step_join_sockets s w k eid sid lang audio organizer w0 k0 :
  sockets s !! w = Some k → state k ≠ CLOSED → eid ≠ 0 →
  w ≠ w0 → sockets s !! w0 = Some k0 →
  ∃ k0',
    sockets (step s (Message w (Parsed (join (Some eid) (Some sid) lang audio
                                          organizer)))) !! w0 = Some k0'
    ∧ sameVars k0 k0'.
Proof.
  intros Hk Hopen Heid Hne Hk0.
  destruct (step_join_evolves s w k eid sid lang audio organizer Hk Hopen Heid)
    as (Δ0 & st' & Δ & ->).
  unfold register, pushConnection. simpl.
  apply supersede_sockets. unfold ensureGroup, setVars. simpl.
  destruct (activeConnections s !! eid); simpl; by rewrite lookup_alter_ne.
Qed.

(** The close handler removes by session, so the close event of a
    superseded transport takes the entry of its successor out of the
    registry. *)
Lemma superseded_close_drops_successor s w k w0 k0 eid sid lang audio organizer :
  sockets s !! w = Some k → state k ≠ CLOSED →
  sockets s !! w0 = Some k0 → state k0 ≠ CLOSED →
  var_eventId k0 = eid → var_sessionId k0 = sid →
  eid ≠ 0 → sid ≠ [] → w ≠ w0 →
  let s1 := step s (Message w (Parsed (join (Some eid) (Some sid) lang audio
                                         organizer))) in
  let s2 := step s1 (Close w0) in
  mkEventConnection w (orString lang English) sid (default false audio)
    (default false organizer) ∈ group eid s1
  ∧ ∀ c, c ∈ group eid s2 → sessionId c ≠ sid.
Proof.
  intros Hk Hopen Hk0 Hopen0 Heid0 Hsid0 Heid Hsid Hne s1 s2.
  assert (Hres : (resolveSessionId (Some sid) s).1 = sid) by (by destruct sid).
  split.
  - unfold s1, group.
    rewrite (step_join_connections _ _ _ _ _ _ _ _ Hk Hopen Heid), Hres.
    unfold joinGroup. rewrite lookup_insert_eq. simpl.
    apply elem_of_app. right. by left.
  - destruct (step_join_sockets s w k eid sid lang audio organizer w0 k0
                Hk Hopen Heid Hne Hk0) as (k0' & Hk0' & Hev & Hsess & Hstate).
    fold s1 in Hk0'.
    assert (Hopen0' : state k0' ≠ CLOSED).
    { destruct Hstate as [-> | ->]; done. }
    unfold s2, step. rewrite Hk0', decide_False by done.
    rewrite <- Heid0, <- Hev.
    rewrite handleClose_group by congruence.
    intros c Hc. apply list_elem_of_filter in Hc as [Hc _]. congruence.
Qed.


(** ** Presence pushes *)

Lemma broadcastCount_effects cs s :
  broadcastCount cs s = advance s (countEffects (opens s) cs).
Proof.
  unfold broadcastCount, countEffects, participantCount.
  generalize (length (filter (λ c, isOrganizer c = false) cs)). intros n.
  revert s. induction cs as [|c cs IH]; intros s; simpl.
  - by rewrite advance_nil.
  - unfold sendEffects at 1. unfold opens at 1.
    destruct (isOPEN (ws c) s) eqn:Hop.
    + rewrite ws_send_advance, IH. unfold sendEffects at 1. unfold opens at 1.
      by rewrite Hop, advance_advance.
    + by rewrite IH.
Qed.


(** ** The replies to a join *)

Lemma register_trace w eid sid lang audio organizer s :
  ∃ Δc, Forall quiet Δc
        ∧ trace (register w eid sid lang audio organizer s) = trace s ++ Δc
        ∧ storage (register w eid sid lang audio organizer s) = storage s.
Proof.
  unfold register, pushConnection. simpl.
  unfold ensureGroup, setVars, supersede. simpl.
  destruct (activeConnections s !! eid) as [conns|] eqn:Hg; simpl.
  - rewrite Hg.
    destruct (findIndex _ conns) as [j|]; simpl.
    + destruct (conns !! j) as [old|]; simpl.
      * destruct (isOPEN _ _); simpl.
        -- exists [EClose (ws old)]. split_and!; [by repeat constructor|done|done].
        -- exists []. by rewrite app_nil_r.
      * exists []. by rewrite app_nil_r.
    + exists []. by rewrite app_nil_r.
  - rewrite lookup_insert_eq. simpl. exists []. by rewrite app_nil_r.
Qed.


Lemma announceJoin_effects w eid sid lang organizer s :
  ∃ Δp,
    Forall quiet Δp
    ∧ announceJoin w eid sid lang organizer s
      = advance
          (put_storage
             (recordParticipant eid sid lang organizer (Date_now (trace s))
                (storage s)) s)
          (Δp
           ++ joinReplies (opens s) w eid sid lang organizer (storage s)
                (group eid s)).
Proof.
  unfold announceJoin.
  set (s1 := if organizer then s else _).
  set (st' := recordParticipant eid sid lang organizer (Date_now (trace s)) (storage s)).
  assert (∃ Δp, Forall quiet Δp
            ∧ translations st' = translations (storage s)
            ∧ events st' = events (storage s)
            ∧ s1 = advance (put_storage st' s) Δp) as (Δp & Hq & Ht & He & Hs1).
  { subst s1 st'. unfold recordParticipant. destruct organizer.
    { exists []. by rewrite put_storage_id, advance_nil. }
    destruct (getParticipantBySessionId sid (storage s)).
    { exists []. by rewrite put_storage_id, advance_nil. }
    unfold createParticipant. simpl. eexists [ECreateParticipant _].
    split_and!; [by repeat constructor|done|done|reflexivity]. }
  clearbody s1 st'. subst s1. exists Δp. split; [done|].
  cbv zeta. rewrite broadcastCount_effects, !ws_send_advance.
  unfold joinReplies, eventReply, getEvent, getRecentTranslations, group. simpl.
  rewrite Ht, He.
  destruct (events (storage s) !! eid); rewrite ?ws_send_advance; state_eq.
Qed.

Lemma resolveSessionId_shape sid s :
  ∃ Δ0, Forall quiet Δ0
        ∧ resolveSessionId sid s = (orString sid (nanoid (trace s)), advance s Δ0).
Proof.
  unfold resolveSessionId. destruct sid as [[|c r]|]; simpl.
  - eexists [ENanoid _]. split; [by repeat constructor|done].
  - exists []. by rewrite advance_nil.
  - eexists [ENanoid _]. split; [by repeat constructor|done].
Qed.



(** The whole of a join step: the registry part, then the replies. *)
Lemma join_step s w k eid sid lang audio organizer :
  sockets s !! w = Some k → state k ≠ CLOSED → eid ≠ 0 →
  let session := orString sid (nanoid (trace s)) in
  let organizer' := default false organizer in
  ∃ Δ0 Δa Δp,
    let s1 := register w eid session (orString lang English) (default false audio)
                organizer' (advance s Δ0) in
    let st' := recordParticipant eid session (orString lang English) organizer'
                 (Date_now (trace s1)) (storage s) in
    Forall quiet Δa ∧ Forall quiet Δp
    ∧ trace s1 = trace s ++ Δa
    ∧ step s (Message w (Parsed (join (Some eid) sid lang audio organizer)))
      = advance (put_storage st' s1)
          (Δp ++ joinReplies (opens s1) w eid session (orString lang English)
                   organizer' (storage s) (group eid s1)).
Proof.
  intros Hk Hopen Heid session organizer'.
  unfold step. rewrite Hk, decide_False by done.
  unfold handleMessage, handleJoin, truthyNumber. rewrite decide_False by done.
  destruct (resolveSessionId_shape sid s) as (Δ0 & Hq0 & ->).
  fold session organizer'.
  set (s1 := register w eid session (orString lang English) (default false audio)
               organizer' (advance s Δ0)).
  destruct (register_trace w eid session (orString lang English)
              (default false audio) organizer' (advance s Δ0))
    as (Δc & Hqc & Htrace & Hstore).
  fold s1 in Htrace, Hstore.
  destruct (announceJoin_effects w eid session (orString lang English) organizer' s1)
    as (Δp & Hqp & ->).
  exists Δ0, (Δ0 ++ Δc), Δp. cbv zeta. fold s1.
  split_and!; [by apply Forall_app|done| |].
  - rewrite Htrace. simpl. by rewrite app_assoc.
  - unfold joinReplies. by rewrite Hstore.
Qed.



(** ** Frames that are refused *)

(** X2 — A frame that is not JSON, a join without an event id, and an
    [audio_data] frame that lacks its event id or its payload, whose
    payload is not a string, or that names an event the store does not
    have, are each answered with exactly one [error] frame to the
    sender, which says what was wrong, and leave the registry, the
    transports with the variables of their handlers, and the store as
    they were.  The checks of an [audio_data] frame come in this order,
    all of them before the sender's role is looked at. *)
Theorem malformed_frames_are_refused s w k f e :
  sockets s !! w = Some k → state k ≠ CLOSED →
  Malformed (storage s) f e →
  let s' := step s (Message w f) in
  effectsOf s (Message w f) = sendEffects (opens s) w (error e)
  ∧ activeConnections s' = activeConnections s
  ∧ sockets s' = sockets s
  ∧ storage s' = storage s.
Proof.
  intros Hk Hopen Hbad s'.
  assert (Hstep : step s (Message w f) = ws_send w (error e) s).
  { unfold step. rewrite Hk, decide_False by done.
    unfold handleMessage, handleJoin, handleAudioData.
    destruct Hbad as [|? ? ? ? ? Hno|? ab Hno|eventId ab Hab|eid Heid|eid c a Heid Hev].
    - done.
    - by rewrite Hno.
    - by rewrite Hno.
    - destruct (truthyNumber eventId); [|done].
      by destruct Hab as [->|[->| ->]].
    - unfold truthyNumber. by rewrite decide_False.
    - unfold truthyNumber. by rewrite decide_False, Hev. }
  unfold s'. rewrite Hstep, ws_send_advance in *.
  split_and!; try done.
  by apply (effects_of_advance _ _ _ _ Hstep).
Qed.

(** ** Audio that is not transcribed *)

(** X3 — A chunk from the organizer that is shorter than 50 characters
    is answered with one "skipped" status; a chunk of 50 characters or
    more whose decoded size is under 100 bytes is acknowledged and then
    reported as holding no speech.  In both cases the transcription
    service is not called, no record is created, and registry and
    store are left as they were. *)
Theorem undersized_audio_is_never_transcribed s w eid a :
  let i := audioFrame w (Some eid) (AudioString a) in
  Accepted s w eid a →
  (length a < 50 ∨ base64Length a < 100)%nat →
  effectsOf s i
  = (if (length a <? 50)%nat then sendEffects (opens s) w skippedStatus
     else sendEffects (opens s) w processingStatus
          ++ sendEffects (opens s) w noSpeech)
  ∧ (∀ a' r, EWhisper a' r ∉ effectsOf s i)
  ∧ created (effectsOf s i) = []
  ∧ storage (step s i) = storage s
  ∧ activeConnections (step s i) = activeConnections s.
Proof.
  intros i Hacc Hsmall.
  assert (Hstep : step s i
            = advance s (if (length a <? 50)%nat
                         then sendEffects (opens s) w skippedStatus
                         else sendEffects (opens s) w processingStatus
                              ++ sendEffects (opens s) w noSpeech)).
  { unfold i. rewrite (step_accepted _ _ _ _ Hacc). unfold processAudio.
    destruct (length a <? 50)%nat eqn:Hlen; [by rewrite ws_send_advance|].
    apply Nat.ltb_ge in Hlen. destruct Hsmall as [?|Hbuf]; [lia|].
    unfold transcribeAudio. apply Nat.ltb_lt in Hbuf. rewrite Hbuf.
    replace (isEmptyTranscription []) with true by done.
    rewrite !ws_send_advance. state_eq. }
  rewrite (effects_of_advance _ _ _ _ Hstep eq_refl), Hstep.
  split_and!; try done.
  - intros a' r Hin. destruct (length a <? 50)%nat.
    + by apply sendEffects_kind in Hin.
    + apply elem_of_app in Hin as [Hin|Hin]; by apply sendEffects_kind in Hin.
  - destruct (length a <? 50)%nat; by rewrite ?created_app, !created_send.
Qed.

(** X4 — When the transcription service fails, the submitter, who has
    been sent the acknowledgement, is sent one [error] frame whose text
    is "Failed to transcribe audio: " followed by the message of the
    failure, or by "Unknown error" when that message is empty.  Nothing
    else happens: no record is created, nobody else is sent anything,
    no other service is called. *)
Theorem a_failed_transcription_is_reported s w eventId ab a m :
  let i := audioFrame w eventId ab in
  EWhisper a (Rejected m) ∈ effectsOf s i →
  effectsOf s i
  = sendEffects (opens s) w processingStatus
    ++ [EWhisper a (Rejected m)]
    ++ sendEffects (opens s) w
         (error (Thrown (str "Failed to transcribe audio: "
                         ++ orString (Some m) Unknown_error)))
  ∧ ab = AudioString a
  ∧ storage (step s i) = storage s
  ∧ activeConnections (step s i) = activeConnections s.
Proof.
  intros i Hin.
  destruct (audio_step s w eventId ab) as (Δ & st' & Hstep & Hout).
  fold i in Hstep. rewrite (effects_of_advance _ _ _ _ Hstep eq_refl) in *.
  rewrite Hstep.
  destruct Hout as [| |eid a0 ? ?|eid a0 m0 ? ?|eid a0 ? ? ?|eid a0 t0 ? ? Ht0
                    |eid a0 t0 Δf st' Hacc Hlen Ht0 Hrun].
  - by apply elem_of_nil in Hin.
  - by apply sendEffects_kind in Hin.
  - by apply sendEffects_kind in Hin.
  - assert (a0 = a ∧ m0 = m) as [-> ->].
    { apply elem_of_app in Hin as [Hin|Hin]; [by apply sendEffects_kind in Hin|].
      apply elem_of_cons in Hin as [Heq|Hin]; [by injection Heq|].
      by apply sendEffects_kind in Hin. }
    by rewrite put_storage_id.
  - apply elem_of_app in Hin as [Hin|Hin]; by apply sendEffects_kind in Hin.
  - apply elem_of_app in Hin as [Hin|Hin]; [by apply sendEffects_kind in Hin|].
    apply elem_of_cons in Hin as [Heq|Hin]; [done|by apply sendEffects_kind in Hin].
  - apply elem_of_app in Hin as [Hin|Hin]; [by apply sendEffects_kind in Hin|].
    apply elem_of_cons in Hin as [Heq|Hin]; [done|].
    by apply (fanOut_kinds _ _ _ _ _ _ _ _ _ Hrun) in Hin.
Qed.

(** ** Departures *)

Lemma handleClose_shape k s0 :
  let eid := var_eventId k in
  let rest := filter (λ c, sessionId c ≠ var_sessionId k) (group eid s0) in
  ∃ m,
    handleClose k s0
    = advance (with_connections (λ _, m) s0)
        (if decide (eid = 0) then [] else countEffects (opens s0) rest)
    ∧ (eid = 0 → m = activeConnections s0)
    ∧ (eid ≠ 0 → default [] (m !! eid) = rest)
    ∧ (∀ e, e ≠ eid → m !! e = activeConnections s0 !! e).
Proof.
  intros eid rest. unfold handleClose. fold eid.
  destruct (decide (eid = 0)) as [Hz|Hnz].
  { exists (activeConnections s0). rewrite advance_nil. by destruct s0. }
  unfold rest, group.
  destruct (activeConnections s0 !! eid) as [conns|] eqn:Hg; simpl.
  - destruct (0 <? length (filter _ conns))%nat eqn:Hlen.
    + rewrite broadcastCount_effects.
      exists (<[eid := filter (λ c, sessionId c ≠ var_sessionId k) conns]>
                (activeConnections s0)).
      split_and!; [done|done| |].
      * intros _. by rewrite lookup_insert_eq.
      * intros e He. by rewrite lookup_insert_ne.
    + apply Nat.ltb_ge in Hlen.
      destruct (filter (λ c, sessionId c ≠ var_sessionId k) conns) eqn:Hf;
        [|simpl in Hlen; lia].
      exists (delete eid (activeConnections s0)). rewrite advance_nil.
      split_and!; [done|done| |].
      * intros _. by rewrite lookup_delete_eq.
      * intros e He. by rewrite lookup_delete_ne.
  - exists (activeConnections s0). rewrite advance_nil.
    split_and!; [by destruct s0|done| |done]. intros _. by rewrite Hg.
Qed.

Lemma close_elsewhere s w k :
  sockets s !! w = Some k → state k ≠ CLOSED →
  readyStateOf w (step s (Close w)) = Some CLOSED
  ∧ ∀ e, e ≠ var_eventId k → group e (step s (Close w)) = group e s.
Proof.
  intros Hk Hopen. unfold step. rewrite Hk, decide_False by done.
  destruct (handleClose_shape k (with_sockets (alter (setReadyState CLOSED) w) s))
    as (m & -> & _ & _ & Hother).
  split.
  - unfold readyStateOf. simpl. by rewrite lookup_alter_eq, Hk.
  - intros e He. unfold group. simpl. by rewrite Hother.
Qed.

(** X5 — When a transport that joined an event closes, every entry of
    its session is taken out of the group of that event, and each
    remaining entry whose transport is open is sent the number of
    participants that remain (the organizers not counted); nothing is
    sent when nobody remains.  The store is not touched: the
    participant record of the session stays.  A transport that never
    joined closes without any effect on the registry. *)
Theorem a_close_is_announced_to_the_rest s w k :
  sockets s !! w = Some k → state k ≠ CLOSED →
  let eid := var_eventId k in
  let rest := filter (λ c, sessionId c ≠ var_sessionId k) (group eid s) in
  let s' := step s (Close w) in
  readyStateOf w s' = Some CLOSED
  ∧ storage s' = storage s
  ∧ (eid = 0 → activeConnections s' = activeConnections s ∧ effectsOf s (Close w) = [])
  ∧ (eid ≠ 0 →
       group eid s' = rest
       ∧ (∀ e, e ≠ eid → group e s' = group e s)
       ∧ effectsOf s (Close w) = countEffects (opens s') rest).
Proof.
  intros Hk Hopen eid rest s'.
  set (s0 := with_sockets (alter (setReadyState CLOSED) w) s).
  assert (Hstep : s' = handleClose k s0).
  { unfold s', step. by rewrite Hk, decide_False. }
  destruct (handleClose_shape k s0) as (m & Hrun & Hzero & Hnonzero & Hother).
  fold eid in Hrun, Hzero, Hnonzero, Hother.
  change (group eid s0) with (group eid s) in Hrun, Hnonzero. fold rest in Hrun, Hnonzero.
  assert (Heff : effectsOf s (Close w)
                 = if decide (eid = 0) then [] else countEffects (opens s0) rest).
  { apply (effects_of_advance s (with_connections (λ _, m) s0)); [|done].
    fold s'. by rewrite Hstep. }
  rewrite Heff, Hstep, Hrun.
  split_and!.
  - unfold readyStateOf. simpl. rewrite lookup_alter_eq, Hk. done.
  - done.
  - intros Hz. rewrite decide_True by done. split; [|done]. simpl. by apply Hzero.
  - intros Hnz. rewrite decide_False by done.
    split_and!; [by apply Hnonzero| |done].
    intros e He. unfold group. simpl. by rewrite Hother.
Qed.

(** X6 — A join never touches the group of another event, and the close
    handler cleans only the group of the event its transport joined
    last.  So when a transport that is registered in one event joins a
    second one and then closes, its entry in the first event stays in
    the registry, with a transport that is closed. *)
Theorem switching_events_leaves_the_old_entry s w k e1 e2 sid lang audio organizer :
  sockets s !! w = Some k → state k ≠ CLOSED → e2 ≠ 0 → e1 ≠ e2 →
  let s1 := step s (Message w (Parsed (join (Some e2) sid lang audio organizer))) in
  let s2 := step s1 (Close w) in
  group e1 s1 = group e1 s
  ∧ group e1 s2 = group e1 s
  ∧ ∀ c, c ∈ group e1 s → ws c = w → c ∈ group e1 s2 ∧ isOPEN (ws c) s2 = false.
Proof.
  intros Hk Hopen He2 Hne s1 s2.
  assert (Hg1 : group e1 s1 = group e1 s).
  { unfold s1, group.
    rewrite (step_join_connections _ _ _ _ _ _ _ _ Hk Hopen He2).
    unfold joinGroup. by rewrite lookup_insert_ne. }
  destruct (join_step s w k e2 sid lang audio organizer Hk Hopen He2)
    as (Δ0 & Δa & Δp & _ & _ & _ & Hstep).
  cbv zeta in Hstep. fold s1 in Hstep.
  assert (Hk1 : ∃ k1, sockets s1 !! w = Some k1 ∧ var_eventId k1 = e2
                      ∧ state k1 ≠ CLOSED).
  { rewrite Hstep. unfold register, pushConnection. simpl.
    destruct (supersede_sockets e2 (orString sid (nanoid (trace s)))
                (ensureGroup e2
                   (setVars w (orString sid (nanoid (trace s))) e2
                      (orString lang English) (default false audio)
                      (advance s Δ0)))
                w (mkSocket (state k) (orString sid (nanoid (trace s))) e2
                     (orString lang English) (default false audio)))
      as (k1 & Hk1 & Hev & _ & Hst).
    { unfold ensureGroup, setVars. simpl.
      destruct (activeConnections s !! e2); simpl; by rewrite lookup_alter_eq, Hk. }
    exists k1. split_and!; [done|done|].
    simpl in Hst. destruct Hst as [-> | ->]; done. }
  destruct Hk1 as (k1 & Hk1 & Hev1 & Hopen1).
  destruct (close_elsewhere s1 w k1 Hk1 Hopen1) as (Hclosed & Hgroups).
  assert (Hg2 : group e1 s2 = group e1 s).
  { unfold s2. rewrite Hgroups by congruence. done. }
  split_and!; [done|done|].
  intros c Hc Hw. split; [by rewrite Hg2|].
  rewrite Hw. unfold isOPEN. apply bool_decide_eq_false_2.
  fold s2 in Hclosed. by rewrite Hclosed.
Qed.

(** ** The registry of a reachable state *)

(** X7 — In every state the server can reach, the entries of a group
    have pairwise distinct session ids: an event never holds two
    entries of one session, whatever the order of joins, preference
    updates, audio frames and closes. *)
Theorem sessions_are_distinct_within_a_group st inputs eid :
  NoDup (sessionId <$> group eid (run (startUp st) inputs)).
Proof.
  pose proof (run_good inputs (startUp st) (startUp_good st)) as Hgood.
  unfold group.
  destruct (activeConnections (run (startUp st) inputs) !! eid) as [conns|] eqn:Hg;
    simpl; [|apply NoDup_nil_2].
  by destruct (Hgood eid conns Hg).
Qed.

(** ** The store of a reachable state *)

Lemma sessions_mapSet_elem k (p : Participant) m sid :
  sid ∈ ((λ kv, p_sessionId kv.2) <$> mapSet k p m) →
  sid = p_sessionId p ∨ sid ∈ ((λ kv : Z * Participant, p_sessionId kv.2) <$> m).
Proof.
  induction m as [|[k' p'] m IH]; simpl.
  - intros ?%list_elem_of_singleton. by left.
  - destruct (decide (k' = k)) as [->|Hne]; simpl.
    + intros [->|Hin]%elem_of_cons; [by left|]. right. by right.
    + intros [->|Hin]%elem_of_cons; [right; by left|].
      destruct (IH Hin); [by left|]. right. by right.
Qed.

Lemma sessions_mapSet_new k (p : Participant) m :
  NoDup ((λ kv : Z * Participant, p_sessionId kv.2) <$> m) →
  p_sessionId p ∉ ((λ kv : Z * Participant, p_sessionId kv.2) <$> m) →
  NoDup ((λ kv, p_sessionId kv.2) <$> mapSet k p m).
Proof.
  induction m as [|[k' p'] m IH]; simpl; intros Hnd Hnew.
  - apply NoDup_singleton.
  - apply NoDup_cons in Hnd as [Hp' Hnd].
    apply not_elem_of_cons in Hnew as [Hne Hnew].
    destruct (decide (k' = k)) as [->|Hk]; simpl.
    + apply NoDup_cons. by split.
    + apply NoDup_cons. split; [|by apply IH].
      intros [Heq|Hin]%sessions_mapSet_elem; [by apply Hne|by apply Hp'].
Qed.

Lemma sessions_mapSet_same k (p p0 : Participant) m :
  mapGet k m = Some p0 → p_sessionId p = p_sessionId p0 →
  (λ kv, p_sessionId kv.2) <$> mapSet k p m
  = (λ kv : Z * Participant, p_sessionId kv.2) <$> m.
Proof.
  unfold mapGet. intros Hget Heq.
  induction m as [|[k' p'] m IH]; simpl in *; [done|].
  destruct (decide (k' = k)) as [->|Hk]; simpl.
  - rewrite bool_decide_eq_true_2 in Hget by done. simpl in Hget.
    injection Hget as ->. by rewrite Heq.
  - rewrite bool_decide_eq_false_2 in Hget by done. f_equal. by apply IH.
Qed.

Lemma no_participant_no_session sid st :
  getParticipantBySessionId sid st = None → sid ∉ sessionsOf st.
Proof.
  unfold getParticipantBySessionId, sessionsOf.
  induction (participants st) as [|[k p] m IH]; simpl.
  - intros _ ?%elem_of_nil. done.
  - destruct (bool_decide (p_sessionId p = sid)) eqn:Hp; [done|].
    apply bool_decide_eq_false_1 in Hp.
    intros Hnone [Heq|Hin]%elem_of_cons; [by apply Hp|by apply IH].
Qed.

Lemma extends_refl st : extends st st.
Proof. by split. Qed.

Lemma extends_trans st1 st2 st3 : extends st1 st2 → extends st2 st3 → extends st1 st3.
Proof. intros [? ?] [? ?]. split; auto. Qed.

Lemma recordParticipant_extends eid sid lang organizer now st :
  extends st (recordParticipant eid sid lang organizer now st).
Proof.
  unfold recordParticipant. destruct organizer; [apply extends_refl|].
  destruct (getParticipantBySessionId sid st) eqn:Hp; [apply extends_refl|].
  split.
  - intros Hnd. unfold sessionsOf. simpl.
    apply sessions_mapSet_new; [done|]. by apply no_participant_no_session.
  - intros rec [Hget Hlt]. by split.
Qed.

Lemma updateParticipant_extends id lang st : extends st (updateParticipant id lang st).
Proof.
  unfold updateParticipant.
  destruct (mapGet id (participants st)) as [existing|] eqn:Hget;
    [|apply extends_refl].
  split.
  - unfold sessionsOf. simpl.
    by rewrite (sessions_mapSet_same _ _ existing).
  - intros rec [? ?]. by split.
Qed.

Lemma storeTranslation_extends rec st : extends st (storeTranslation rec st).
Proof. split; [done|]. intros rec'. apply storeTranslation_kept. Qed.

Lemma elem_of_created rec Δ : rec ∈ created Δ ↔ ECreateTranslation rec ∈ Δ.
Proof.
  unfold created. rewrite list_elem_of_omap. split.
  - intros (e & Hin & He). destruct e; try done. by injection He as ->.
  - intros Hin. by exists (ECreateTranslation rec).
Qed.

Lemma job_store op eid t conns l st r Δ st' :
  JobRun op eid t conns l st r Δ st' →
  extends st st' ∧ ∀ rec, ECreateTranslation rec ∈ Δ → Kept rec st'.
Proof.
  destruct 1 as [st m|st content ts rs tt rec clients Hlen].
  - split; [apply extends_refl|].
    by intros rec ?%list_elem_of_singleton.
  - split; [apply storeTranslation_extends|].
    intros rec' Hin%elem_of_created.
    change (created (EChat t l (Resolved content) :: ECreateTranslation rec
                       :: deliverAll op t tt rec clients rs))
      with (rec :: created (deliverAll op t tt rec clients rs)) in Hin.
    destruct (deliverAll_quiet op t tt rec clients rs) as (_ & _ & Hq).
    rewrite Hq in Hin. apply list_elem_of_singleton in Hin as ->.
    by apply storeTranslation_new.
Qed.

Lemma jobs_store op eid t conns targets st rs Δ st' :
  JobsRun op eid t conns targets st rs Δ st' →
  extends st st' ∧ ∀ rec, ECreateTranslation rec ∈ Δ → Kept rec st'.
Proof.
  induction 1 as [|l ls st r Δ st1 rs Δs st2 Hjob _ [IH1 IH2]].
  - split; [apply extends_refl|]. by intros rec ?%elem_of_nil.
  - destruct (job_store _ _ _ _ _ _ _ _ _ Hjob) as [H1 H2].
    split; [by eapply extends_trans|].
    intros rec [Hin|Hin]%elem_of_app; [|by apply IH2].
    apply IH1. by apply H2.
Qed.

Lemma fanOut_store op w eid t conns st Δ st' :
  FanOutRun op w eid t conns st Δ st' →
  extends st st' ∧ ∀ rec, ECreateTranslation rec ∈ Δ → Kept rec st'.
Proof.
  destruct 1 as [ts rs Δjobs st' rec Hjobs].
  destruct (jobs_store _ _ _ _ _ _ _ _ _ Hjobs) as [H1 H2].
  split.
  - eapply extends_trans; [apply storeTranslation_extends|exact H1].
  - intros rec' [Heq|Hin]%elem_of_cons.
    { injection Heq as ->. apply H1. by apply storeTranslation_new. }
    apply elem_of_app in Hin as [Hin|Hin]; [by apply sendEffects_kind in Hin|].
    apply elem_of_app in Hin as [Hin|Hin].
    { by apply originalEffects_sends in Hin as (c & _ & _ & ?). }
    apply elem_of_app in Hin as [Hin|Hin]; [by apply H2|].
    by apply sendEffects_kind in Hin.
Qed.

Lemma audio_store s w eventId ab Δ st' :
  AudioOutcome s w eventId ab Δ st' →
  extends (storage s) st' ∧ ∀ rec, ECreateTranslation rec ∈ Δ → Kept rec st'.
Proof.
  destruct 1 as [| |eid a ? ?|eid a m ? ?|eid a ? ? ?|eid a t ? ? ?
                 |eid a t Δf st' Hacc Hlen Ht Hrun].
  1-6: split; [apply extends_refl|]; intros rec Hin.
  - by apply elem_of_nil in Hin.
  - by apply sendEffects_kind in Hin.
  - by apply sendEffects_kind in Hin.
  - apply elem_of_app in Hin as [Hin|Hin]; [by apply sendEffects_kind in Hin|].
    apply elem_of_cons in Hin as [?|Hin]; [done|by apply sendEffects_kind in Hin].
  - apply elem_of_app in Hin as [Hin|Hin]; by apply sendEffects_kind in Hin.
  - apply elem_of_app in Hin as [Hin|Hin]; [by apply sendEffects_kind in Hin|].
    apply elem_of_cons in Hin as [?|Hin]; [done|by apply sendEffects_kind in Hin].
  - destruct (fanOut_store _ _ _ _ _ _ _ _ Hrun) as [H1 H2].
    split; [done|]. intros rec Hin.
    apply elem_of_app in Hin as [Hin|Hin]; [by apply sendEffects_kind in Hin|].
    apply elem_of_cons in Hin as [?|Hin]; [done|by apply H2].
Qed.

Lemma recordFree_nil : recordFree [].
Proof. intros rec ?%elem_of_nil. done. Qed.

Lemma recordFree_app Δ1 Δ2 : recordFree Δ1 → recordFree Δ2 → recordFree (Δ1 ++ Δ2).
Proof. intros H1 H2 rec [?|?]%elem_of_app; [by eapply H1|by eapply H2]. Qed.

Lemma recordFree_send op w m : recordFree (sendEffects op w m).
Proof. intros rec Hin%sendEffects_kind. done. Qed.

Lemma recordFree_quiet Δ : Forall quiet Δ → recordFree Δ.
Proof.
  intros Hq rec Hin. rewrite Forall_forall in Hq. by apply Hq in Hin.
Qed.

Lemma recordFree_count op cs : recordFree (countEffects op cs).
Proof.
  unfold countEffects. generalize (participantCount cs). intros n.
  induction cs as [|c cs IH]; simpl; [apply recordFree_nil|].
  apply recordFree_app; [apply recordFree_send|exact IH].
Qed.

Lemma recordFree_replies op w eid sid lang organizer st conns :
  recordFree (joinReplies op w eid sid lang organizer st conns).
Proof.
  unfold joinReplies.
  repeat apply recordFree_app; try apply recordFree_send. apply recordFree_count.
Qed.

Lemma grows_refl s : Grows s s.
Proof.
  exists []. rewrite app_nil_r. split_and!; [done|apply extends_refl|].
  by intros rec ?%elem_of_nil.
Qed.

Lemma grows_free s s0 Δ :
  trace s0 = trace s → extends (storage s) (storage s0) → recordFree Δ →
  Grows s (advance s0 Δ).
Proof.
  intros Htrace Hstore Hfree. exists Δ. simpl. rewrite Htrace.
  split_and!; [done|done|]. intros rec Hin. by apply Hfree in Hin.
Qed.

Lemma grows_trans s1 s2 s3 : Grows s1 s2 → Grows s2 s3 → Grows s1 s3.
Proof.
  intros (Δ1 & Ht1 & He1 & Hk1) (Δ2 & Ht2 & He2 & Hk2).
  exists (Δ1 ++ Δ2). rewrite Ht2, Ht1, app_assoc.
  split_and!; [done|by eapply extends_trans|].
  intros rec [Hin|Hin]%elem_of_app; [|by apply Hk2].
  apply He2. by apply Hk1.
Qed.

Lemma updateEntry_frame f eid sid s :
  trace (updateEntry f eid sid s) = trace s
  ∧ storage (updateEntry f eid sid s) = storage s.
Proof.
  unfold updateEntry. destruct (activeConnections s !! eid) as [conns|]; [|done].
  by destruct (findIndex _ conns).
Qed.

Lemma step_grows s i : Grows s (step s i).
Proof.
  destruct i as [w|w f|w]; simpl.
  - destruct (sockets s !! w); [apply grows_refl|].
    rewrite ws_send_advance.
    apply grows_free; [done|apply extends_refl|apply recordFree_send].
  - destruct (sockets s !! w) as [k|] eqn:Hk; [|apply grows_refl].
    destruct (decide (state k = CLOSED)) as [|Hopen]; [apply grows_refl|].
    destruct f as [|[eventId sid lang audio organizer|lang|audio|eventId ab|]]; simpl.
    + rewrite ws_send_advance.
      apply grows_free; [done|apply extends_refl|apply recordFree_send].
    + destruct eventId as [eid|].
      2:{ unfold handleJoin. simpl. rewrite ws_send_advance.
          apply grows_free; [done|apply extends_refl|apply recordFree_send]. }
      destruct (decide (eid = 0)) as [->|Heid].
      { unfold handleJoin. simpl. rewrite ws_send_advance.
        apply grows_free; [done|apply extends_refl|apply recordFree_send]. }
      destruct (join_step s w k eid sid lang audio organizer Hk Hopen Heid)
        as (Δ0 & Δa & Δp & Hqa & Hqp & Htrace & Hstep).
      cbv zeta in Htrace, Hstep. unfold step in Hstep.
      rewrite Hk, decide_False in Hstep by done.
      set (s1 := register _ _ _ _ _ _ _) in *. clearbody s1.
      simpl in Hstep.
      match type of Hstep with _ = advance _ ?Δ =>
        assert (Hfree : recordFree Δ)
          by (apply recordFree_app;
              [by apply recordFree_quiet|apply recordFree_replies]);
        set (Δr := Δ) in *; clearbody Δr end.
      rewrite Hstep. exists (Δa ++ Δr). simpl. rewrite Htrace, <- app_assoc.
      split_and!; [done|apply recordParticipant_extends|].
      intros rec [Hin|Hin]%elem_of_app; exfalso.
      * by apply (recordFree_quiet _ Hqa) in Hin.
      * by apply Hfree in Hin.
    + unfold handleUpdateLanguage.
      match goal with |- context [updateEntry ?f ?e ?i ?s0] =>
        destruct (updateEntry_frame f e i s0) as [Htr Hst];
        set (s1 := updateEntry f e i s0) in * end.
      simpl in Htr, Hst. rewrite Hst.
      destruct (getParticipantBySessionId _ _) as [p|].
      * exists []. simpl. rewrite Htr, Hst, app_nil_r.
        split_and!; [done|apply updateParticipant_extends|].
        by intros rec ?%elem_of_nil.
      * exists []. rewrite Htr, Hst, app_nil_r.
        split_and!; [done|apply extends_refl|]. by intros rec ?%elem_of_nil.
    + unfold handleToggleAudio.
      match goal with |- context [updateEntry ?f ?e ?i ?s0] =>
        destruct (updateEntry_frame f e i s0) as [Htr Hst];
        set (s1 := updateEntry f e i s0) in * end.
      simpl in Htr, Hst.
      exists []. rewrite Htr, Hst, app_nil_r.
      split_and!; [done|apply extends_refl|]. by intros rec ?%elem_of_nil.
    + destruct (audio_step s w eventId ab) as (Δ & st' & Hstep & Hout).
      unfold audioFrame, step in Hstep.
      rewrite Hk, decide_False in Hstep by done. simpl in Hstep. rewrite Hstep.
      destruct (audio_store _ _ _ _ _ _ Hout) as [He Hkept].
      exists Δ. split_and!; done.
    + apply grows_refl.
  - destruct (sockets s !! w) as [k|] eqn:Hk; [|apply grows_refl].
    destruct (decide (state k = CLOSED)) as [|Hopen]; [apply grows_refl|].
    destruct (handleClose_shape k (with_sockets (alter (setReadyState CLOSED) w) s))
      as (m & -> & _).
    apply grows_free; [done|apply extends_refl|].
    destruct (decide _); [apply recordFree_nil|apply recordFree_count].
Qed.

Lemma run_grows inputs : ∀ s, Grows s (run s inputs).
Proof.
  induction inputs as [|i inputs IH]; intros s; [apply grows_refl|].
  simpl. eapply grows_trans; [apply step_grows|apply IH].
Qed.

(** X9 — Every translation record the server has created since it
    started is still in the store, unchanged, under its own id: records
    are never overwritten or dropped, and no two records created by the
    server share an id. *)
Theorem created_records_are_kept st inputs rec :
  let s := run (startUp st) inputs in
  ECreateTranslation rec ∈ trace s →
  mapGet (tr_id rec) (translations (storage s)) = Some rec
  ∧ tr_id rec < translationCurrentId (storage s)
  ∧ ∀ rec', ECreateTranslation rec' ∈ trace s → tr_id rec' = tr_id rec → rec' = rec.
Proof.
  intros s Hin.
  destruct (run_grows inputs (startUp st)) as (Δ & Htrace & _ & Hkept).
  fold s in Htrace, Hkept. simpl in Htrace. rewrite Htrace in *.
  destruct (Hkept rec Hin) as [Hget Hlt]. split_and!; [done|done|].
  intros rec' Hin' Hid. destruct (Hkept rec' Hin') as [Hget' _].
  rewrite Hid in Hget'. congruence.
Qed.

(** ** Preferences *)

Lemma updateEntry_groups f eid sid s e :
  group e (updateEntry f eid sid s)
  = if decide (e = eid)
    then match findIndex (λ c, bool_decide (sessionId c = sid)) (group eid s) with
         | Some j => alter f j (group eid s)
         | None => group eid s
         end
    else group e s.
Proof.
  unfold updateEntry, group.
  destruct (activeConnections s !! eid) as [conns|] eqn:Hg; simpl.
  - destruct (findIndex _ conns) as [j|] eqn:Hj; simpl.
    + destruct (decide (e = eid)) as [->|Hne].
      * by rewrite lookup_insert_eq.
      * by rewrite lookup_insert_ne.
    + destruct (decide (e = eid)) as [->|Hne]; [by rewrite Hg|done].
  - destruct (decide (e = eid)) as [->|Hne]; [by rewrite Hg|done].
Qed.

(** X10 — A language update or an audio toggle changes, in the group of
    the event its transport joined last, the first entry of the
    transport's session and nothing else: the other entries and the
    other groups are as they were, no frame is sent to anybody, and no
    translation record is touched.  When the transport has no entry
    there the registry is unchanged.  After a language update of a
    registered listener the new language, when it is not English, is
    one of the targets of the next segment. *)
Theorem a_preference_update_changes_one_entry s w k f change :
  sockets s !! w = Some k → state k ≠ CLOSED →
  (∃ lang, f = update_language lang ∧ change = setLanguage lang)
  ∨ (∃ audio, f = toggle_audio audio ∧ change = setEnableAudio audio) →
  let eid := var_eventId k in
  let mine := findIndex (λ c, bool_decide (sessionId c = var_sessionId k))
                (group eid s) in
  let s' := step s (Message w (Parsed f)) in
  group eid s' = match mine with
                 | Some j => alter change j (group eid s)
                 | None => group eid s
                 end
  ∧ (∀ e, e ≠ eid → group e s' = group e s)
  ∧ effectsOf s (Message w (Parsed f)) = []
  ∧ translations (storage s') = translations (storage s)
  ∧ (∀ lang, f = update_language lang → is_Some mine → lang ≠ English →
             lang ∈ targetsOf (group eid s')).
Proof.
  intros Hk Hopen Hf eid mine s'.
  assert (Hgroups : ∀ e, group e s'
            = if decide (e = eid)
              then match mine with
                   | Some j => alter change j (group eid s)
                   | None => group eid s
                   end
              else group e s).
  { intros e. unfold s', step. rewrite Hk, decide_False by done.
    destruct Hf as [(lang & -> & ->)|(audio & -> & ->)]; simpl.
    - unfold handleUpdateLanguage.
      match goal with |- context [updateEntry ?f ?e ?i ?s0] =>
        set (s1 := updateEntry f e i s0) end.
      assert (group e (match getParticipantBySessionId (var_sessionId k) (storage s1) with
                       | Some participant =>
                           with_storage (updateParticipant (p_id participant) lang) s1
                       | None => s1
                       end) = group e s1) as ->
        by (by destruct (getParticipantBySessionId _ _)).
      subst s1. rewrite updateEntry_groups. reflexivity.
    - unfold handleToggleAudio. rewrite updateEntry_groups. reflexivity. }
  assert (Hframe : trace s' = trace s
                   ∧ translations (storage s') = translations (storage s)).
  { unfold s', step. rewrite Hk, decide_False by done.
    destruct Hf as [(lang & -> & ->)|(audio & -> & ->)]; simpl.
    - unfold handleUpdateLanguage.
      match goal with |- context [updateEntry ?f ?e ?i ?s0] =>
        destruct (updateEntry_frame f e i s0) as [Htr Hst];
        set (s1 := updateEntry f e i s0) in * end.
      simpl in Htr, Hst. rewrite Hst.
      destruct (getParticipantBySessionId _ _) as [p|]; simpl.
      + rewrite Htr, Hst. split; [done|]. unfold updateParticipant.
        by destruct (mapGet _ _).
      + by rewrite Htr, Hst.
    - unfold handleToggleAudio.
      match goal with |- context [updateEntry ?f ?e ?i ?s0] =>
        destruct (updateEntry_frame f e i s0) as [Htr Hst];
        set (s1 := updateEntry f e i s0) in * end.
      simpl in Htr, Hst. by rewrite Htr, Hst. }
  destruct Hframe as [Htrace Htrans].
  split_and!.
  - by rewrite Hgroups, decide_True.
  - intros e He. by rewrite Hgroups, decide_False.
  - unfold effectsOf. fold s'. rewrite Htrace. apply drop_all.
  - done.
  - intros lang -> [j Hj] Hne.
    destruct Hf as [(lang' & [= <-] & ->)|(audio & ? & _)]; [|done].
    rewrite Hgroups, decide_True by done. fold mine. rewrite Hj.
    apply elem_of_targetsOf. split; [done|].
    destruct (findIndex_lookup _ _ _ Hj) as (c & Hc & _).
    exists (setLanguage lang c). split; [|done].
    apply list_elem_of_lookup. exists j.
    by rewrite list_lookup_alter_eq, Hc.
Qed.

Lemma mapGet_key {V} k (v : V) m : mapGet k m = Some v → k ∈ m.*1.
Proof.
  unfold mapGet. induction m as [|[k' v'] m IH]; simpl; [done|].
  destruct (bool_decide (k' = k)) eqn:Hk.
  - apply bool_decide_eq_true_1 in Hk as ->. intros _. by left.
  - intros Hget. right. by apply IH.
Qed.

Lemma mapGet_own sid m p :
  ownIds m →
  find (λ p, bool_decide (p_sessionId p = sid)) (snd <$> m) = Some p →
  mapGet (p_id p) m = Some p.
Proof.
  intros [Hnd Hown]. induction m as [|[k0 p0] m IH]; simpl; [done|].
  apply NoDup_cons in Hnd as [Hk0 Hnd]. apply Forall_cons in Hown as [Hp0 Hown].
  simpl in Hp0. unfold mapGet. simpl.
  destruct (bool_decide (p_sessionId p0 = sid)).
  - intros [= <-]. by rewrite bool_decide_eq_true_2.
  - intros Hfind. specialize (IH Hnd Hown Hfind).
    rewrite bool_decide_eq_false_2; [exact IH|].
    intros ->. by apply mapGet_key in IH.
Qed.

Lemma find_session_mapSet sid m p p' :
  Forall (λ kv : Z * Participant, p_id kv.2 = kv.1) m →
  find (λ p, bool_decide (p_sessionId p = sid)) (snd <$> m) = Some p →
  p_sessionId p' = sid →
  find (λ p, bool_decide (p_sessionId p = sid)) (snd <$> mapSet (p_id p) p' m)
  = Some p'.
Proof.
  intros Hown Hfind Hsid. induction m as [|[k0 p0] m IH]; simpl in *; [done|].
  apply Forall_cons in Hown as [Hp0 Hown]. simpl in Hp0.
  destruct (decide (k0 = p_id p)) as [Hk|Hk]; simpl.
  - by rewrite bool_decide_eq_true_2.
  - destruct (bool_decide (p_sessionId p0 = sid)).
    + injection Hfind as ->. congruence.
    + by apply IH.
Qed.

(** X11 — A language update also rewrites the stored participant record
    of the transport's session: in a store whose participant rows sit
    under their own ids, the record found for the session afterwards is
    the one found before with its language replaced, the other fields
    (id, event, session, creation time) being kept. *)
Theorem a_language_update_reaches_the_record s w k lang p :
  sockets s !! w = Some k → state k ≠ CLOSED →
  ownIds (participants (storage s)) →
  getParticipantBySessionId (var_sessionId k) (storage s) = Some p →
  getParticipantBySessionId (var_sessionId k)
    (storage (step s (Message w (Parsed (update_language lang)))))
  = Some (mkParticipant (p_id p) (p_eventId p) (p_sessionId p) (Some lang)
            (createdAt p)).
Proof.
  intros Hk Hopen Hown Hp.
  unfold step. rewrite Hk, decide_False by done. simpl.
  unfold handleUpdateLanguage.
  match goal with |- context [updateEntry ?f ?e ?i ?s0] =>
    destruct (updateEntry_frame f e i s0) as [_ Hst];
    set (s1 := updateEntry f e i s0) in * end.
  simpl in Hst. rewrite Hst, Hp. simpl. rewrite Hst.
  unfold updateParticipant.
  unfold getParticipantBySessionId in Hp.
  rewrite (mapGet_own _ _ _ Hown Hp).
  unfold getParticipantBySessionId. simpl.
  apply find_session_mapSet; [by destruct Hown|done|].
  simpl. apply find_some in Hp as [_ Hp]. by apply bool_decide_eq_true_1 in Hp.
Qed.

(** X12 — A language update or an audio toggle that arrives before its
    transport has joined (its session has no group entry and no
    participant record yet) changes neither the registry nor the store
    and is answered with nothing.  It is forgotten: a join that follows
    registers exactly what it would have registered without it, the
    language of the join frame or English, not the language of the
    earlier update. *)
Theorem preferences_before_a_join_are_forgotten s w k f :
  sockets s !! w = Some k → state k ≠ CLOSED →
  (∃ lang, f = update_language lang) ∨ (∃ audio, f = toggle_audio audio) →
  activeConnections s !! var_eventId k = None →
  getParticipantBySessionId (var_sessionId k) (storage s) = None →
  let s1 := step s (Message w (Parsed f)) in
  activeConnections s1 = activeConnections s
  ∧ storage s1 = storage s
  ∧ effectsOf s (Message w (Parsed f)) = []
  ∧ ∀ eventId sid lang audio organizer,
      let j := Message w (Parsed (join eventId sid lang audio organizer)) in
      activeConnections (step s1 j) = activeConnections (step s j).
Proof.
  intros Hk Hopen Hf Hgroup Hrecord s1.
  assert (Hs1 : ∃ l a, s1 = setVars w (var_sessionId k) (var_eventId k) l a s).
  { unfold s1, step. rewrite Hk, decide_False by done.
    destruct Hf as [[lang ->]|[audio ->]]; simpl.
    - unfold handleUpdateLanguage, updateEntry.
      change (activeConnections (setVars ?a ?b ?c ?d ?e s)) with (activeConnections s).
      rewrite Hgroup.
      change (storage (setVars ?a ?b ?c ?d ?e s)) with (storage s).
      rewrite Hrecord. by eexists _, _.
    - unfold handleToggleAudio, updateEntry.
      change (activeConnections (setVars ?a ?b ?c ?d ?e s)) with (activeConnections s).
      rewrite Hgroup. by eexists _, _. }
  destruct Hs1 as (l & a & Hs1). rewrite Hs1.
  split_and!; [done|done| |].
  - unfold effectsOf. fold s1. rewrite Hs1. simpl. apply drop_all.
  - intros eventId sid lang audio organizer j. unfold j, step.
    unfold setVars at 1. simpl. rewrite lookup_alter_eq, Hk. simpl.
    rewrite !decide_False by done. simpl.
    rewrite !handleJoin_connections.
    destruct (truthyNumber eventId); [|done]. by destruct sid as [[|]|].
Qed.

(** ** The order of a segment *)

(** X13 — In a segment that gets past transcription, the listeners in
    English are served first.  The trace of the step splits in two: in
    the first part the original is stored, the submitter is told that
    the audio was transcribed and every open English listener is sent
    the original, the text as it was transcribed, not trimmed; the
    second part holds every call to the translation and to the speech
    service.  So no English listener waits for a translation. *)
Theorem the_original_goes_out_before_any_translation s w eid a t :
  let i := audioFrame w (Some eid) (AudioString a) in
  let conns := group eid s in
  EWhisper a (Resolved t) ∈ effectsOf s i →
  isEmptyTranscription t = false →
  ∃ first rest rec,
    effectsOf s i = first ++ rest
    ∧ chatCalls first = [] ∧ speechCalls first = []
    ∧ created first = [rec]
    ∧ originalText rec = t ∧ tr_language rec = English
    ∧ (isOPEN w s = true → transcribedStatus t ∈ sentTo w first)
    ∧ (∀ c, c ∈ conns → language c = English → isOPEN (ws c) s = true →
            ESend (ws c) (translation rec t English) ∈ first)
    ∧ chatCalls rest = chatCalls (effectsOf s i)
    ∧ speechCalls rest = speechCalls (effectsOf s i).
Proof.
  intros i conns Hin Hne.
  destruct (segment_shape s w eid a t Hin Hne)
    as (ts & rs & Δjobs & st' & _ & _ & _ & _ & HΔ & _).
  fold i in HΔ. cbv zeta in HΔ. fold (group eid s) in HΔ. fold conns in HΔ.
  set (rec := sourceRecord (storage s) eid t ts) in *.
  destruct (segmentPrefix_quiet (opens s) w a t rec conns)
    as (Hchat & _ & _ & Hspeech & Hcreated).
  exists (segmentPrefix (opens s) w a t rec conns),
    (Δjobs ++ sendEffects (opens s) w
                (completion t rs (length (uniqueOf (language <$> conns))))),
    rec.
  split_and!; try done.
  - intros Hop. unfold segmentPrefix. rewrite !sentTo_app, !sentTo_send.
    rewrite !decide_True by done. unfold opens. rewrite Hop.
    apply elem_of_app. right. apply elem_of_app. right. apply elem_of_app. right.
    apply elem_of_app. left. by left.
  - intros c Hc Hlang Hop. unfold segmentPrefix.
    apply elem_of_app. right. apply elem_of_app. right. apply elem_of_app. right.
    apply elem_of_app. right.
    apply originalEffects_text; [|done]. by apply list_elem_of_filter.
  - by rewrite HΔ, !chatCalls_app, Hchat.
  - by rewrite HΔ, !speechCalls_app, Hspeech.
Qed.

End Server.

(** * The record store and the routes *)

(** ** Insertion-ordered maps *)

Lemma mapGet_None {V} k (m : list (Z * V)) : mapGet k m = None ↔ k ∉ m.*1.
Proof.
  unfold mapGet. induction m as [|[k' v'] m IH]; simpl.
  - split; [intros _ ?%elem_of_nil; done|done].
  - destruct (bool_decide (k' = k)) eqn:Hk; simpl.
    + apply bool_decide_eq_true_1 in Hk as ->. split; [done|].
      intros Hn. exfalso. apply Hn. by left.
    + apply bool_decide_eq_false_1 in Hk. rewrite IH, not_elem_of_cons. naive_solver.
Qed.

Lemma mapSet_fresh {V} k (v : V) m : k ∉ m.*1 → mapSet k v m = m ++ [(k, v)].
Proof.
  induction m as [|[k' v'] m IH]; simpl; [done|].
  intros [Hne Hnot]%not_elem_of_cons.
  rewrite decide_False by done. by rewrite IH.
Qed.

Lemma mapSet_keys {V} k (v : V) m : k ∈ m.*1 → (mapSet k v m).*1 = m.*1.
Proof.
  induction m as [|[k' v'] m IH]; simpl; [by intros ?%elem_of_nil|].
  destruct (decide (k' = k)) as [->|Hne]; [done|].
  intros [?|Hin]%elem_of_cons; [done|]. simpl. f_equal. by apply IH.
Qed.

Lemma mapSet_same {V} k (v : V) m : mapGet k m = Some v → mapSet k v m = m.
Proof.
  unfold mapGet. induction m as [|[k' v'] m IH]; simpl; [done|].
  destruct (decide (k' = k)) as [->|Hne].
  - rewrite bool_decide_eq_true_2 by done. simpl. by intros [= ->].
  - rewrite bool_decide_eq_false_2 by done. intros Hget. by rewrite IH.
Qed.

Lemma mapSet_elem {V} k (v : V) m kv :
  kv ∈ mapSet k v m → kv = (k, v) ∨ kv ∈ m.
Proof.
  induction m as [|[k' v'] m IH]; simpl.
  - intros ?%list_elem_of_singleton. by left.
  - destruct (decide (k' = k)) as [->|Hne].
    + intros [->|Hin]%elem_of_cons; [by left|]. right. by right.
    + intros [->|Hin]%elem_of_cons; [right; by left|].
      destruct (IH Hin); [by left|]. right. by right.
Qed.

Lemma mapDelete_gone {V} k (m : list (Z * V)) : mapGet k (Store.mapDelete k m) = None.
Proof.
  apply mapGet_None. unfold Store.mapDelete.
  intros ([k' v] & Hk & Hin%list_elem_of_filter)%list_elem_of_fmap.
  simpl in *. destruct Hin as [Hne _]. by apply Hne.
Qed.

Lemma mapDelete_other {V} k k' (m : list (Z * V)) :
  k' ≠ k → mapGet k' (Store.mapDelete k m) = mapGet k' m.
Proof.
  intros Hne. unfold mapGet, Store.mapDelete.
  induction m as [|[k0 v0] m IH]; [done|].
  destruct (decide (k0 ≠ k)) as [Hk|Hk].
  - rewrite filter_cons_True by done. simpl.
    destruct (bool_decide (k0 = k')); [done|exact IH].
  - rewrite filter_cons_False by done. simpl.
    rewrite bool_decide_eq_false_2; [exact IH|]. intros ->.
    apply Hk. by intros ->.
Qed.

Lemma mapDelete_absent {V} k (m : list (Z * V)) :
  k ∉ m.*1 → Store.mapDelete k m = m.
Proof.
  intros Hnot. unfold Store.mapDelete. apply filter_all.
  intros [k' v] Hin. simpl. intros ->. apply Hnot.
  apply list_elem_of_fmap. by exists (k, v).
Qed.

Lemma mapHas_get {V} k (m : list (Z * V)) :
  Store.mapHas k m = true ↔ is_Some (mapGet k m).
Proof.
  unfold Store.mapHas. rewrite bool_decide_eq_true.
  rewrite <- not_eq_None_Some, mapGet_None.
  split; [by intros ? ?|]. intros Hnn. by destruct (decide (k ∈ m.*1)).
Qed.

(** ** Well-formed tables *)

Lemma tableOk_new {V} (idOf : V → Z) : tableOk idOf [] 1.
Proof. split; [apply NoDup_nil_2|apply Forall_nil_2]. Qed.

Lemma tableOk_fresh {V} (idOf : V → Z) m next : tableOk idOf m next → next ∉ m.*1.
Proof.
  intros [_ Hall] ([k v] & Hk & Hin)%list_elem_of_fmap. simpl in Hk. subst k.
  rewrite Forall_forall in Hall. apply Hall in Hin. simpl in Hin. lia.
Qed.

Lemma tableOk_create {V} (idOf : V → Z) m next v :
  tableOk idOf m next → idOf v = next →
  tableOk idOf (mapSet next v m) (next + 1).
Proof.
  intros Hok Hid. pose proof (tableOk_fresh _ _ _ Hok) as Hfresh.
  rewrite mapSet_fresh by done. destruct Hok as [Hnd Hall]. split.
  - rewrite fmap_app. simpl. apply NoDup_app. split_and!; [done| |apply NoDup_singleton].
    intros k Hin ?%list_elem_of_singleton. by subst k.
  - apply Forall_app. split.
    + eapply Forall_impl; [exact Hall|]. simpl. intros kv [? ?]. split; [done|lia].
    + apply Forall_singleton. simpl. split; [done|lia].
Qed.

Lemma tableOk_update {V} (idOf : V → Z) m next k v :
  tableOk idOf m next → k ∈ m.*1 → idOf v = k →
  tableOk idOf (mapSet k v m) next.
Proof.
  intros [Hnd Hall] Hin Hid. split; [by rewrite mapSet_keys|].
  apply Forall_forall. intros kv [->|Hkv]%mapSet_elem.
  - simpl. split; [done|].
    apply list_elem_of_fmap in Hin as ([k' v'] & Hk & Hin'). simpl in Hk. subst k'.
    rewrite Forall_forall in Hall. apply Hall in Hin'. simpl in Hin'. lia.
  - rewrite Forall_forall in Hall. by apply Hall.
Qed.

Lemma tableOk_delete {V} (idOf : V → Z) m next k :
  tableOk idOf m next → tableOk idOf (Store.mapDelete k m) next.
Proof.
  intros [Hnd Hall]. unfold Store.mapDelete. split.
  - apply (sublist_NoDup _ m.*1); [done|apply fmap_sublist, sublist_filter].
  - apply Forall_forall. intros kv [_ Hin]%list_elem_of_filter.
    rewrite Forall_forall in Hall. by apply Hall.
Qed.

Lemma tableOk_lookup {V} (idOf : V → Z) m next k v :
  tableOk idOf m next → mapGet k m = Some v → idOf v = k ∧ k ∈ m.*1.
Proof.
  intros [_ Hall] Hget. split; [|by eapply mapGet_key].
  unfold mapGet in Hget. destruct (find _ m) as [[k' v']|] eqn:Hfind; [|done].
  simpl in Hget. injection Hget as ->.
  apply find_some in Hfind as [Hin Hk]. apply bool_decide_eq_true_1 in Hk.
  simpl in Hk. subst k'. rewrite Forall_forall in Hall.
  apply list_elem_of_In, Hall in Hin. by destruct Hin.
Qed.

Lemma wellFormed_new : wellFormed Store.new.
Proof. repeat split; try apply NoDup_nil_2; apply Forall_nil_2. Qed.

(** X14 — Every method of the class that writes keeps the store well
    formed: in each of the four tables a row sits under its own id, no
    id is used twice, and every id is below the counter of the table.
    So a create never lands on a row that exists, an update keeps the
    id of the row it rewrites, and a delete frees no id. *)
Theorem the_store_stays_well_formed st :
  wellFormed st →
  (∀ insertUser, wellFormed (Store.createUser insertUser st).2)
  ∧ (∀ insertEvent now, wellFormed (Store.createEvent insertEvent now st).2)
  ∧ (∀ id eventUpdate, wellFormed (Store.updateEvent id eventUpdate st).2)
  ∧ (∀ id, wellFormed (Store.deleteEvent id st).2)
  ∧ (∀ insertParticipant now,
       wellFormed (Store.createParticipant insertParticipant now st).2)
  ∧ (∀ id participantUpdate,
       wellFormed (Store.updateParticipant id participantUpdate st).2)
  ∧ (∀ insertTranslation now,
       wellFormed (Store.createTranslation insertTranslation now st).2).
Proof.
  intros (Hu & He & Hp & Ht). split_and!.
  - intros iu. split_and!; try done. by apply tableOk_create.
  - intros ie now. split_and!; try done. by apply tableOk_create.
  - intros id upd. unfold Store.updateEvent.
    destruct (mapGet id (Store.events st)) as [e|] eqn:Hget; [|done].
    destruct (tableOk_lookup _ _ _ _ _ He Hget) as [Hid Hin].
    split_and!; try done. by apply tableOk_update.
  - intros id. split_and!; try done. by apply tableOk_delete.
  - intros ip now. split_and!; try done. by apply tableOk_create.
  - intros id upd. unfold Store.updateParticipant.
    destruct (mapGet id (Store.participants st)) as [p|] eqn:Hget; [|done].
    destruct (tableOk_lookup _ _ _ _ _ Hp Hget) as [Hid Hin].
    split_and!; try done. by apply tableOk_update.
  - intros it now. split_and!; try done. by apply tableOk_create.
Qed.

Lemma handle_wellFormed now r st : wellFormed st → wellFormed (Api.handle now r st).2.
Proof.
  intros Hwf. pose proof Hwf as (Hu & He & Hp & Ht).
  destruct r as [[m|ie]|oid|id|id [m|upd]|id|[m|ip]|eid|eid]; simpl; try done.
  - split_and!; try done. by apply tableOk_create.
  - by destruct (truthyNumber oid).
  - by destruct (id ≫= _).
  - destruct id as [id|]; [|done]. unfold Store.updateEvent.
    destruct (mapGet id (Store.events st)) as [e|] eqn:Hget; [|done].
    destruct (tableOk_lookup _ _ _ _ _ He Hget) as [Hid Hin].
    split_and!; try done. by apply tableOk_update.
  - destruct id as [id|]; [|done]. unfold Store.deleteEvent.
    destruct (Store.mapHas id (Store.events st));
      (split_and!; try done; by apply tableOk_delete).
  - split_and!; try done. by apply tableOk_create.
Qed.

(** ** Event ids *)

Lemma handle_counter now r st :
  let '(answer, st') := Api.handle now r st in
  (createdEvents [answer] = [] ∧ Store.eventCurrentId st' = Store.eventCurrentId st)
  ∨ (∃ event, createdEvents [answer] = [event]
              ∧ Store.e_id event = Store.eventCurrentId st
              ∧ Store.eventCurrentId st' = Store.eventCurrentId st + 1).
Proof.
  destruct r as [[m|ie]|oid|id|id [m|upd]|id|[m|ip]|eid|eid]; simpl;
    try (by left).
  - right. by eexists.
  - destruct (truthyNumber oid); by left.
  - destruct (id ≫= _); by left.
  - destruct id as [id|]; [|by left]. unfold Store.updateEvent.
    destruct (mapGet id (Store.events st)); by left.
  - destruct id as [id|]; [|by left]. unfold Store.deleteEvent.
    destruct (Store.mapHas id (Store.events st)); by left.
Qed.

Lemma createdEvents_cons answer answers :
  createdEvents (answer :: answers) = createdEvents [answer] ++ createdEvents answers.
Proof. by change (answer :: answers) with ([answer] ++ answers); apply omap_app. Qed.

Lemma serve_ids requests : ∀ st,
  let created := createdEvents (Api.serve requests st).1 in
  Store.e_id <$> created = seqZ (Store.eventCurrentId st) (Z.of_nat (length created))
  ∧ Store.eventCurrentId (Api.serve requests st).2
    = Store.eventCurrentId st + Z.of_nat (length created).
Proof.
  induction requests as [|[now r] requests IH]; intros st; simpl.
  - split; [done|lia].
  - pose proof (handle_counter now r st) as Hone.
    destruct (Api.handle now r st) as [answer st1].
    specialize (IH st1). destruct (Api.serve requests st1) as [answers st2].
    cbn [fst snd] in *. rewrite createdEvents_cons.
    destruct IH as [IH1 IH2].
    destruct Hone as [[-> Hc]|(event & -> & Hid & Hc)]; cbn [app length fmap list_fmap].
    + rewrite Hc in *. done.
    + rewrite Hc in *. split; [|lia].
      rewrite IH1, Hid.
      replace (Z.of_nat (S (length (createdEvents answers))))
        with (Z.succ (Z.of_nat (length (createdEvents answers)))) by lia.
      rewrite (seqZ_cons (Store.eventCurrentId st)) by lia.
      f_equal. f_equal; lia.
Qed.

(** X15 — Whatever requests a new store is driven with, the events that
    [POST /api/events] reports as created carry the ids 1, 2, 3, ... in
    the order of their creation.  Deleting events in between does not
    give an id back: an id is never handed out twice. *)
Theorem event_ids_count_up requests :
  let created := createdEvents (Api.serve requests Store.new).1 in
  Store.e_id <$> created = seqZ 1 (Z.of_nat (length created)).
Proof. intros created. by destruct (serve_ids requests Store.new). Qed.

(** ** The life of an event *)

(** X16 — [POST /api/events] with a valid body answers 201 with the new
    event: the fields of the body, the next id and the time of the
    request.  From then on [GET /api/events/:id] with that id answers
    200 with the same event; the other events are as before, and in a
    well-formed store the new event is the last of the listing. *)
Theorem a_created_event_can_be_fetched now insertEvent st :
  let event := Store.mkEvent (Store.eventCurrentId st) insertEvent now in
  let posted := Api.handle now (Api.POST_events (Resolved insertEvent)) st in
  posted.1 = Api.mkResponse 201 (Api.AnEvent event)
  ∧ (∀ later, Api.handle later (Api.GET_event (Some (Store.e_id event))) posted.2
              = (Api.mkResponse 200 (Api.AnEvent event), posted.2))
  ∧ (∀ id, id ≠ Store.e_id event → Store.getEvent id posted.2 = Store.getEvent id st)
  ∧ (wellFormed st → Store.getAllEvents posted.2 = Store.getAllEvents st ++ [event]).
Proof.
  intros event posted. simpl. split_and!.
  - done.
  - intros later. unfold Store.getEvent. simpl. by rewrite mapGet_mapSet_eq.
  - intros id Hne. unfold Store.getEvent. simpl. by rewrite mapGet_mapSet_ne.
  - intros (_ & He & _). unfold Store.getAllEvents. simpl.
    rewrite mapSet_fresh by (by eapply tableOk_fresh). by rewrite fmap_app.
Qed.

Lemma updatedEvent_noChange event : Store.updatedEvent event noChange = event.
Proof. by destruct event as [id [] created]. Qed.

Lemma updatedEvent_twice event eventUpdate :
  Store.updatedEvent (Store.updatedEvent event eventUpdate) eventUpdate
  = Store.updatedEvent event eventUpdate.
Proof.
  destruct event as [id [] created].
  by destruct eventUpdate as [[] [] [] [] [] [] [] [] [] []].
Qed.

(** X17 — [PUT /api/events/:id] with a valid body on an event of the
    store answers 200 with the event in which the fields the body
    names are replaced and the others, the id and the creation time
    are kept.  The store then holds that event under the id; the other
    events, the order of the listing and the counter are untouched.  A
    body that names no field changes nothing, and the same update
    applied a second time changes nothing more. *)
Theorem an_update_merges_the_given_fields now id eventUpdate event st :
  Store.getEvent id st = Some event →
  let updated := Store.updatedEvent event eventUpdate in
  let put := Api.handle now (Api.PUT_event (Some id) (Resolved eventUpdate)) st in
  put.1 = Api.mkResponse 200 (Api.AnEvent updated)
  ∧ Store.getEvent id put.2 = Some updated
  ∧ (∀ other, other ≠ id → Store.getEvent other put.2 = Store.getEvent other st)
  ∧ (Store.events put.2).*1 = (Store.events st).*1
  ∧ Store.eventCurrentId put.2 = Store.eventCurrentId st
  ∧ Store.e_id updated = Store.e_id event
  ∧ Store.e_createdAt updated = Store.e_createdAt event
  ∧ (eventUpdate = noChange → put.2 = st)
  ∧ Api.handle now (Api.PUT_event (Some id) (Resolved eventUpdate)) put.2 = put.
Proof.
  intros Hget updated put. unfold Store.getEvent in Hget.
  assert (Hput : put = (Api.mkResponse 200 (Api.AnEvent updated),
                        Store.with_events (mapSet id updated (Store.events st))
                          (Store.eventCurrentId st) st)).
  { unfold put. simpl. unfold Store.updateEvent. by rewrite Hget. }
  rewrite Hput. simpl. split_and!; try done.
  - unfold Store.getEvent. simpl. apply mapGet_mapSet_eq.
  - intros other Hne. unfold Store.getEvent. simpl. by rewrite mapGet_mapSet_ne.
  - apply mapSet_keys. by eapply mapGet_key.
  - intros ->. unfold updated. rewrite updatedEvent_noChange.
    rewrite mapSet_same by done. by destruct st.
  - unfold Store.updateEvent. simpl. rewrite mapGet_mapSet_eq.
    unfold updated. rewrite updatedEvent_twice.
    rewrite (mapSet_same id _ (mapSet _ _ _)) by apply mapGet_mapSet_eq. done.
Qed.

Lemma mapHas_false {V} k (m : list (Z * V)) :
  mapGet k m = None → Store.mapHas k m = false.
Proof.
  intros Hnone. apply not_true_is_false. rewrite mapHas_get, Hnone. by intros [? ?].
Qed.

Lemma delete_missing now id st :
  Store.getEvent id st = None →
  Api.handle now (Api.DELETE_event (Some id)) st = (Api.notFound, st).
Proof.
  unfold Store.getEvent. intros Hnone. simpl. rewrite (mapHas_false _ _ Hnone).
  apply mapGet_None in Hnone. rewrite (mapDelete_absent _ _ Hnone). by destruct st.
Qed.

(** X18 — [DELETE /api/events/:id] answers 200 exactly when the store
    has the event, and 404 otherwise, leaving the store as it was.
    After it the event is gone for good: [GET] and a second [DELETE]
    of the id answer 404.  Nothing else goes with it: the other events,
    the participants and the translations of the deleted event stay in
    the store, and the counter of ids is not set back. *)
Theorem a_deleted_event_is_gone now id st :
  let deleted := Api.handle now (Api.DELETE_event (Some id)) st in
  (deleted.1 = Api.mkResponse 200 Api.Success ↔ is_Some (Store.getEvent id st))
  ∧ (Store.getEvent id st = None → deleted = (Api.notFound, st))
  ∧ Store.getEvent id deleted.2 = None
  ∧ (∀ later, Api.handle later (Api.GET_event (Some id)) deleted.2
              = (Api.notFound, deleted.2))
  ∧ (∀ later, Api.handle later (Api.DELETE_event (Some id)) deleted.2
              = (Api.notFound, deleted.2))
  ∧ (∀ other, other ≠ id → Store.getEvent other deleted.2 = Store.getEvent other st)
  ∧ Store.participants deleted.2 = Store.participants st
  ∧ Store.translations deleted.2 = Store.translations st
  ∧ Store.eventCurrentId deleted.2 = Store.eventCurrentId st.
Proof.
  intros deleted.
  assert (Hst : deleted.2 = Store.with_events (Store.mapDelete id (Store.events st))
                              (Store.eventCurrentId st) st).
  { unfold deleted. simpl. by destruct (Store.mapHas id (Store.events st)). }
  assert (Hgone : Store.getEvent id deleted.2 = None).
  { rewrite Hst. unfold Store.getEvent. simpl. apply mapDelete_gone. }
  split_and!.
  - unfold deleted, Store.getEvent. simpl. rewrite <- mapHas_get.
    by destruct (Store.mapHas id (Store.events st)).
  - intros Hnone. by apply delete_missing.
  - done.
  - intros later. simpl. by rewrite Hgone.
  - intros later. by apply delete_missing.
  - intros other Hne. rewrite Hst. unfold Store.getEvent. simpl.
    by apply mapDelete_other.
  - by rewrite Hst.
  - by rewrite Hst.
  - by rewrite Hst.
Qed.

(** X20 — [GET /api/events] without an organizer lists every event, in
    the order of creation, and so does a request with [organizerId=0]
    or with a value that is no number, since the filter is applied
    only for an organizer id that is truthy.  For any other organizer
    id the answer lists exactly the events of that organizer, in the
    order they have in the full listing. *)
Theorem listing_events_by_organizer now st :
  Api.handle now (Api.GET_events None) st
  = (Api.mkResponse 200 (Api.Events (Store.getAllEvents st)), st)
  ∧ Api.handle now (Api.GET_events (Some 0)) st
    = (Api.mkResponse 200 (Api.Events (Store.getAllEvents st)), st)
  ∧ ∀ organizer, organizer ≠ 0 →
      ∃ listed,
        Api.handle now (Api.GET_events (Some organizer)) st
        = (Api.mkResponse 200 (Api.Events listed), st)
        ∧ listed `sublist_of` Store.getAllEvents st
        ∧ ∀ event, event ∈ listed
                   ↔ event ∈ Store.getAllEvents st
                     ∧ Store.organizerId (Store.fields event) = organizer.
Proof.
  split_and!; [done|done|].
  intros organizer Hne. exists (Store.getEventsByOrganizer organizer st).
  simpl. rewrite decide_False by done. split_and!; [done| |].
  - apply sublist_filter.
  - intros event. unfold Store.getEventsByOrganizer, Store.getAllEvents.
    rewrite list_elem_of_filter. tauto.
Qed.

(** ** Sorting *)

Section Sorting.

Context {A : Type} (gt : A → A → bool).
Hypothesis gt_asym : ∀ a b, gt a b = true → gt b a = false.
Hypothesis gt_chain : ∀ a b c, gt b a = true → gt b c = false → gt a c = false.

Lemma insertBy_perm x l : insertBy gt x l ≡ₚ x :: l.
Proof.
  induction l as [|y l IH]; simpl; [done|].
  destruct (gt y x); [done|]. rewrite IH. apply Permutation_swap.
Qed.

Lemma sorting_perm l : ∀ acc, foldl (λ acc x, insertBy gt x acc) acc l ≡ₚ acc ++ l.
Proof.
  induction l as [|x l IH]; intros acc; simpl; [by rewrite app_nil_r|].
  rewrite IH, insertBy_perm. simpl. apply Permutation_middle.
Qed.

Lemma sortBy_perm l : sortBy gt l ≡ₚ l.
Proof. apply (sorting_perm l []). Qed.

Lemma insertBy_sorted x l :
  StronglySorted (λ a b, gt a b = false) l →
  StronglySorted (λ a b, gt a b = false) (insertBy gt x l).
Proof.
  induction 1 as [|y l Hsorted IH Hy]; simpl.
  - repeat constructor.
  - destruct (gt y x) eqn:Hyx.
    + constructor; [by constructor|]. constructor; [by apply gt_asym|].
      eapply Forall_impl; [exact Hy|]. simpl. intros b Hb. by eapply gt_chain.
    + constructor; [done|]. rewrite insertBy_perm. by constructor.
Qed.

Lemma sorting_sorted l : ∀ acc,
  StronglySorted (λ a b, gt a b = false) acc →
  StronglySorted (λ a b, gt a b = false) (foldl (λ acc x, insertBy gt x acc) acc l).
Proof.
  induction l as [|x l IH]; intros acc Hacc; simpl; [done|].
  by apply IH, insertBy_sorted.
Qed.

Lemma sortBy_sorted l : StronglySorted (λ a b, gt a b = false) (sortBy gt l).
Proof. apply sorting_sorted. constructor. Qed.

End Sorting.

Lemma StronglySorted_mono {A} (R R' : relation A) l :
  (∀ a b, R a b → R' a b) → StronglySorted R l → StronglySorted R' l.
Proof.
  intros Himpl. induction 1 as [|x l _ IH Hx]; constructor; [done|].
  eapply Forall_impl; [exact Hx|]. auto.
Qed.

Lemma newest_first_sorted (l : list Translation) :
  StronglySorted (λ a b, timestamp b ≤ timestamp a)
    (sortBy (λ a b, timestamp a <? timestamp b) l).
Proof.
  apply (StronglySorted_mono (λ a b : Translation, (timestamp a <? timestamp b) = false)).
  { intros a b Hab. lia. }
  apply sortBy_sorted.
  - intros a b Hab. lia.
  - intros a b c Hba Hbc. lia.
Qed.

Lemma oldest_first_sorted (l : list Translation) :
  StronglySorted (λ a b, timestamp a ≤ timestamp b)
    (sortBy (λ a b, timestamp b <? timestamp a) l).
Proof.
  apply (StronglySorted_mono (λ a b : Translation, (timestamp b <? timestamp a) = false)).
  { intros a b Hab. lia. }
  apply sortBy_sorted.
  - intros a b Hab. lia.
  - intros a b c Hba Hbc. lia.
Qed.

(** ** The history of an event *)

(** X21 — The history that [GET /api/translations/event/:eventId]
    answers with holds exactly the translation records of the event,
    each as often as the store has it, from the oldest to the newest.
    The records of every language are in it, the originals too. *)
Theorem the_history_is_in_time_order now eventId st :
  let history := Store.getTranslationsByEvent eventId st in
  Api.handle now (Api.GET_translations (Some eventId)) st
  = (Api.mkResponse 200 (Api.Translations history), st)
  ∧ history ≡ₚ filter (λ t, tr_eventId t = eventId) (snd <$> Store.translations st)
  ∧ StronglySorted (λ a b, timestamp a ≤ timestamp b) history.
Proof.
  intros history. split_and!; [done| |].
  - apply sortBy_perm.
  - apply oldest_first_sorted.
Qed.

(** X19 — For an id the store has no event under (or a path segment
    that is no number), [GET /api/events/:id], [PUT] with a valid body
    and [DELETE] answer 404 "Event not found" and leave the store as it
    was; a [PUT] whose body fails validation answers 400 with the
    validation message whether the event exists or not.  The listings
    of participants and of translations of such an event do not fail:
    they answer 200 and leave the store as it was, the first with the
    participants that name the id, in the order of the store, the
    second with the translations that name the id, from the oldest to
    the newest; for a path segment that is no number both are empty. *)
Theorem an_unknown_event_is_not_found now id st :
  id ≫= (λ eventId, Store.getEvent eventId st) = None →
  Api.handle now (Api.GET_event id) st = (Api.notFound, st)
  ∧ (∀ eventUpdate,
       Api.handle now (Api.PUT_event id (Resolved eventUpdate)) st = (Api.notFound, st))
  ∧ Api.handle now (Api.DELETE_event id) st = (Api.notFound, st)
  ∧ (∀ message any,
       Api.handle now (Api.PUT_event any (Rejected message)) st
       = (Api.mkResponse 400 (Api.AMessage message), st))
  ∧ Api.handle now (Api.GET_participants id) st
    = (Api.mkResponse 200
         (Api.Participants
            (filter (λ p, Some (p_eventId p) = id) (snd <$> Store.participants st))),
       st)
  ∧ ∃ history,
      Api.handle now (Api.GET_translations id) st
      = (Api.mkResponse 200 (Api.Translations history), st)
      ∧ history ≡ₚ filter (λ t, Some (tr_eventId t) = id)
                     (snd <$> Store.translations st)
      ∧ StronglySorted (λ a b, timestamp a ≤ timestamp b) history.
Proof.
  intros Hnone. split_and!; try done.
  - simpl. by rewrite Hnone.
  - intros upd. destruct id as [id|]; [|done]. simpl in *.
    unfold Store.updateEvent, Store.getEvent in *. by rewrite Hnone.
  - destruct id as [id|]; [|done]. simpl in Hnone.
    by apply delete_missing.
  - cbn [Api.handle]. do 3 f_equal. destruct id as [id|]; cbn [fmap option_fmap option_map default].
    + unfold Store.getParticipantsByEvent. apply list_filter_iff.
      intros p. split; [by intros ->|by intros [= ->]].
    + symmetry. apply filter_none. by intros p _.
  - destruct id as [id|].
    + exists (Store.getTranslationsByEvent id st). split_and!; [done| |].
      * etrans; [apply sortBy_perm|].
        assert (filter (λ t, tr_eventId t = id) (Store.translations st).*2
                = filter (λ t, Some (tr_eventId t) = Some id) (Store.translations st).*2)
          as ->; [|done].
        apply list_filter_iff. intros t. split; [by intros ->|by intros [= ->]].
      * apply oldest_first_sorted.
    + exists []. split_and!; [done| |constructor].
      rewrite filter_none; [done|]. by intros t _.
Qed.

(** X22 — The recent translations a joiner is sent are the newest
    records of the event, newest first: at most [limit] of them (all of
    them when the event has no more), every one a record of the event
    whatever its language, and no record of the event that was left
    out is newer than one that was sent. *)
Theorem recent_translations_are_the_newest eid limit st :
  let rows := filter (λ t, tr_eventId t = eid) (snd <$> translations st) in
  let recent := getRecentTranslations eid limit st in
  length recent = min limit (length rows)
  ∧ recent ⊆ rows
  ∧ StronglySorted (λ a b, timestamp b ≤ timestamp a) recent
  ∧ ∀ t t', t ∈ recent → t' ∈ rows → t' ∉ recent → timestamp t' ≤ timestamp t.
Proof.
  intros rows recent. unfold recent, getRecentTranslations. fold rows.
  set (sorted := sortBy (λ a b, timestamp a <? timestamp b) rows).
  assert (Hperm : sorted ≡ₚ rows) by apply sortBy_perm.
  assert (Hsorted : StronglySorted (λ a b, timestamp b ≤ timestamp a) sorted)
    by apply newest_first_sorted.
  rewrite <- (take_drop limit sorted) in Hsorted.
  split_and!.
  - by rewrite length_take, Hperm.
  - intros t Ht. rewrite <- Hperm. eapply elem_of_sublist; [exact Ht|apply sublist_take].
  - by apply StronglySorted_app_1_l in Hsorted.
  - intros t t' Ht Ht' Hout.
    rewrite <- Hperm, <- (take_drop limit sorted), elem_of_app in Ht'.
    destruct Ht' as [?|Ht']; [done|].
    by apply (StronglySorted_app_1_elem_of _ _ _ t t' Hsorted).
Qed.

(** ** Look-ups that scan a table *)

Lemma find_snoc {A} (p : A → bool) l x :
  find p (l ++ [x]) = match find p l with
                      | Some y => Some y
                      | None => if p x then Some x else None
                      end.
Proof.
  induction l as [|y l IH]; simpl; [done|]. by destruct (p y).
Qed.

(** X23 — [POST /api/participants] with a valid body always answers 201
    and stores the participant under the next id: it looks neither for
    the event nor for an earlier participant of the same session,
    although the schema declares the session id unique.  In a
    well-formed store the look-up by session then answers with the
    oldest participant of the session: the earlier one when there is
    one, and only otherwise the one just stored; the rows stored before
    are all still there. *)
Theorem the_first_record_of_a_session_wins now insertParticipant st :
  wellFormed st →
  let session := Store.ip_sessionId insertParticipant in
  let second := mkParticipant (Store.participantCurrentId st)
                  (Store.ip_eventId insertParticipant) session
                  (mjoin (Store.ip_language insertParticipant)) now in
  let posted := Api.handle now (Api.POST_participants (Resolved insertParticipant)) st in
  posted.1 = Api.mkResponse 201 (Api.AParticipant second)
  ∧ Store.getParticipant (p_id second) posted.2 = Some second
  ∧ Store.getParticipant (p_id second) st = None
  ∧ (∀ id, id ≠ p_id second →
           Store.getParticipant id posted.2 = Store.getParticipant id st)
  ∧ Store.getParticipantBySessionId session posted.2
    = Some (default second (Store.getParticipantBySessionId session st)).
Proof.
  intros (_ & _ & Hp & _) session second posted.
  pose proof (tableOk_fresh _ _ _ Hp) as Hfresh. simpl.
  split_and!.
  - done.
  - unfold Store.getParticipant. simpl. apply mapGet_mapSet_eq.
  - unfold Store.getParticipant. by apply mapGet_None.
  - intros id Hne. unfold Store.getParticipant. simpl. by apply mapGet_mapSet_ne.
  - unfold Store.getParticipantBySessionId. simpl.
    rewrite mapSet_fresh, fmap_app by done.
    change (snd <$> [(?k, ?v)]) with [v]. rewrite find_snoc. simpl.
    destruct (find _ _); [done|]. by rewrite bool_decide_eq_true_2.
Qed.

(** X24 — [createUser] stores the user under the next id, where
    [getUser] finds it, and leaves the other users as they are.  It
    does not look for an earlier user of the same name: in a
    well-formed store [getUserByUsername] answers with the oldest user
    of a name, so with the new user only when the name was free. *)
Theorem a_created_user_can_be_read_back insertUser st :
  wellFormed st →
  let user := Store.mkUser (Store.userCurrentId st) (Store.iu_username insertUser)
                (Store.iu_password insertUser) in
  let created := Store.createUser insertUser st in
  created.1 = user
  ∧ Store.getUser (Store.u_id user) created.2 = Some user
  ∧ Store.getUser (Store.u_id user) st = None
  ∧ (∀ id, id ≠ Store.u_id user → Store.getUser id created.2 = Store.getUser id st)
  ∧ (∀ name,
       Store.getUserByUsername name created.2
       = match Store.getUserByUsername name st with
         | Some earlier => Some earlier
         | None => if decide (name = Store.iu_username insertUser)
                   then Some user else None
         end).
Proof.
  intros (Hu & _) user created.
  pose proof (tableOk_fresh _ _ _ Hu) as Hfresh. simpl.
  split_and!.
  - done.
  - unfold Store.getUser. simpl. apply mapGet_mapSet_eq.
  - unfold Store.getUser. by apply mapGet_None.
  - intros id Hne. unfold Store.getUser. simpl. by apply mapGet_mapSet_ne.
  - intros name. unfold Store.getUserByUsername. simpl.
    rewrite mapSet_fresh, fmap_app by done.
    change (snd <$> [(?k, ?v)]) with [v]. rewrite find_snoc. simpl.
    destruct (find _ _); [done|].
    destruct (decide (name = _)) as [->|Hne].
    + by rewrite bool_decide_eq_true_2.
    + by rewrite bool_decide_eq_false_2.
Qed.

(** * The client *)

(** ** Reconnection *)

Lemma retryAfter_effects props d s :
  Hook.mayRetry props s = true →
  Hook.effects (Hook.retryAfter d s)
  = Hook.effects s ++ [Hook.SetTimeout (length (Hook.pending s)) d]
  ∧ Hook.reconnectCount (Hook.retryAfter d s) = S (Hook.reconnectCount s)
  ∧ Z.of_nat (Hook.reconnectCount s) < Hook.reconnectAttempts props.
Proof.
  unfold Hook.mayRetry. intros [_ Hlt%Z.ltb_lt]%andb_true_iff. done.
Qed.

(** One event that is not the opening of a socket sets at most one
    timer, and then counts it. *)
Lemma hook_step props s e :
  Hook.isOpened e = false →
  ∃ Δ, Hook.effects (Hook.step props s e) = Hook.effects s ++ Δ
       ∧ ((Hook.timeouts Δ = []
           ∧ Hook.reconnectCount (Hook.step props s e) = Hook.reconnectCount s)
          ∨ (∃ d, Hook.timeouts Δ = [d]
                  ∧ (d = Hook.Flat ∨ d = Hook.Backoff (Hook.reconnectCount s))
                  ∧ Hook.reconnectCount (Hook.step props s e)
                    = S (Hook.reconnectCount s)
                  ∧ Z.of_nat (Hook.reconnectCount s) < Hook.reconnectAttempts props)).
Proof.
  assert (Hsame : ∃ Δ, Hook.effects s = Hook.effects s ++ Δ
            ∧ ((Hook.timeouts Δ = []
                ∧ Hook.reconnectCount s = Hook.reconnectCount s)
               ∨ (∃ d, Hook.timeouts Δ = [d]
                       ∧ (d = Hook.Flat ∨ d = Hook.Backoff (Hook.reconnectCount s))
                       ∧ Hook.reconnectCount s = S (Hook.reconnectCount s)
                       ∧ Z.of_nat (Hook.reconnectCount s)
                         < Hook.reconnectAttempts props))).
  { exists []. rewrite app_nil_r. split; [done|]. by left. }
  assert (Hconnect : ∀ s0 Δ0,
            Hook.timeouts Δ0 = [] →
            Hook.effects s0 = Hook.effects s ++ Δ0 →
            Hook.reconnectCount s0 = Hook.reconnectCount s →
            ∃ Δ, Hook.effects (Hook.connect props s0) = Hook.effects s ++ Δ
              ∧ ((Hook.timeouts Δ = []
                  ∧ Hook.reconnectCount (Hook.connect props s0) = Hook.reconnectCount s)
                 ∨ (∃ d, Hook.timeouts Δ = [d]
                         ∧ (d = Hook.Flat ∨ d = Hook.Backoff (Hook.reconnectCount s))
                         ∧ Hook.reconnectCount (Hook.connect props s0)
                           = S (Hook.reconnectCount s)
                         ∧ Z.of_nat (Hook.reconnectCount s)
                           < Hook.reconnectAttempts props))).
  { intros s0 Δ0 HΔ0 Heff Hcount. unfold Hook.connect.
    destruct (Hook.currentIsOpen s0).
    { exists Δ0. split; [done|]. left. by split. }
    destruct (Hook.constructs props).
    { exists (Δ0 ++ [Hook.NewSocket (length (Hook.sockets s0))]). simpl.
      rewrite Heff, <- app_assoc. split; [done|]. left.
      unfold Hook.timeouts in *. rewrite omap_app, HΔ0. by split. }
    match goal with |- context [Hook.mayRetry props ?s1] =>
      destruct (Hook.mayRetry props s1) eqn:Hretry; set (s1' := s1) in * end.
    - destruct (retryAfter_effects props Hook.Flat s1' Hretry) as (He & Hc & Hlt).
      exists (Δ0 ++ [Hook.SetTimeout (length (Hook.pending s1')) Hook.Flat]).
      split; [rewrite He; simpl; by rewrite Heff, <- app_assoc|]. right.
      exists Hook.Flat. unfold Hook.timeouts in *. rewrite omap_app, HΔ0.
      split_and!; [done|by left| |].
      + rewrite Hc. simpl. by rewrite Hcount.
      + simpl in Hlt. by rewrite Hcount in Hlt.
    - exists Δ0. simpl. split; [done|]. left. by split. }
  intros Hne. destruct e as [| |k|k|k|k|timer]; simpl in *; try done.
  - apply (Hconnect s []); [done|by rewrite app_nil_r|done].
  - unfold Hook.disconnect.
    set (s1 := match Hook.reconnectTimeoutRef s with
               | Some timer => _
               | None => s
               end).
    assert (Hs1 : ∃ Δ1, Hook.timeouts Δ1 = []
                        ∧ Hook.effects s1 = Hook.effects s ++ Δ1
                        ∧ Hook.reconnectCount s1 = Hook.reconnectCount s).
    { subst s1. destruct (Hook.reconnectTimeoutRef s) as [timer|].
      - by exists [Hook.ClearTimeout timer].
      - exists []. by rewrite app_nil_r. }
    destruct Hs1 as (Δ1 & HΔ1 & He1 & Hc1). clearbody s1.
    destruct (Hook.ws_current s1) as [k|].
    2:{ exists Δ1. split; [done|]. left. by split. }
    destruct (Hook.currentIsOpen s1).
    2:{ exists Δ1. split; [done|]. left. by split. }
    exists (Δ1 ++ [Hook.CloseSocket k]). simpl. rewrite He1, <- app_assoc.
    split; [done|]. left. unfold Hook.timeouts in *. rewrite omap_app, HΔ1.
    by split.
  - destruct (Hook.sockets s !! k) as [[]|]; try done; exists []; rewrite app_nil_r;
      (split; [done|]; by left).
  - assert (Hclose : ∀ r,
              ∃ Δ, Hook.effects (Hook.onclose props (Hook.setSocket k r s))
                   = Hook.effects s ++ Δ
                ∧ ((Hook.timeouts Δ = []
                    ∧ Hook.reconnectCount (Hook.onclose props (Hook.setSocket k r s))
                      = Hook.reconnectCount s)
                   ∨ (∃ d, Hook.timeouts Δ = [d]
                           ∧ (d = Hook.Flat ∨ d = Hook.Backoff (Hook.reconnectCount s))
                           ∧ Hook.reconnectCount
                               (Hook.onclose props (Hook.setSocket k r s))
                             = S (Hook.reconnectCount s)
                           ∧ Z.of_nat (Hook.reconnectCount s)
                             < Hook.reconnectAttempts props))).
    { intros r. unfold Hook.onclose.
      match goal with |- context [Hook.mayRetry props ?s1] =>
        destruct (Hook.mayRetry props s1) eqn:Hretry; set (s1' := s1) in * end.
      - destruct (retryAfter_effects props (Hook.Backoff (Hook.reconnectCount s1'))
                    s1' Hretry) as (He & Hc & Hlt).
        eexists [_]. rewrite He. split; [done|]. right.
        eexists. split_and!; [done|by right|by rewrite Hc|done].
      - exists []. rewrite app_nil_r. split; [done|]. by left. }
    destruct (Hook.sockets s !! k) as [[]|]; try done; apply Hclose.
  - destruct (decide (Hook.pending s !! timer = Some true)); [|done].
    apply Hconnect with (Δ0 := []); [done|by rewrite app_nil_r|done].
Qed.

Lemma hook_run props events : ∀ s,
  forallb (λ e, negb (Hook.isOpened e)) events = true →
  ∃ Δ, Hook.effects (Hook.run props s events) = Hook.effects s ++ Δ
       ∧ Hook.reconnectCount (Hook.run props s events)
         = (Hook.reconnectCount s + length (Hook.timeouts Δ))%nat
       ∧ Z.of_nat (length (Hook.timeouts Δ))
         ≤ Z.max 0 (Hook.reconnectAttempts props - Z.of_nat (Hook.reconnectCount s))
       ∧ ∀ j d, Hook.timeouts Δ !! j = Some d →
                d = Hook.Flat ∨ d = Hook.Backoff (Hook.reconnectCount s + j).
Proof.
  induction events as [|e events IH]; intros s Hno; simpl in *.
  - exists []. rewrite app_nil_r. split_and!; [done|simpl; lia|simpl; lia|done].
  - apply andb_true_iff in Hno as [He%negb_true_iff Hno].
    destruct (hook_step props s e He) as (Δ1 & Heff1 & Hone).
    destruct (IH (Hook.step props s e) Hno) as (Δ2 & Heff2 & Hcount2 & Hlen2 & Hd2).
    exists (Δ1 ++ Δ2). unfold Hook.run in *.
    rewrite Heff2, Heff1, <- app_assoc. split; [done|].
    unfold Hook.timeouts in *. rewrite omap_app.
    destruct Hone as [[-> Hc1]|(d & -> & Hd & Hc1 & Hlt)]; simpl.
    + rewrite Hc1 in *. done.
    + rewrite Hc1 in *. split_and!; [lia|lia|].
      intros [|j] d'; simpl.
      * intros [= <-]. by rewrite Nat.add_0_r.
      * intros Hj. apply Hd2 in Hj.
        by replace (Hook.reconnectCount s + S j)%nat
          with (S (Hook.reconnectCount s) + j)%nat by lia.
Qed.

Lemma added_same s s' :
  Hook.effects s' = Hook.effects s → Hook.added s s' = [].
Proof. unfold Hook.added. intros ->. apply drop_all. Qed.

Lemma added_more s s' Δ :
  Hook.effects s' = Hook.effects s ++ Δ → Hook.added s s' = Δ.
Proof. unfold Hook.added. intros ->. apply drop_app_length. Qed.

Ltac hook_added :=
  first [ rewrite added_same by (cbn; reflexivity)
        | erewrite added_more by (cbn; rewrite <- ?app_assoc; reflexivity) ];
  reflexivity.

(** What [connect] adds to the effects. *)
Lemma connect_timers props s0 s :
  Hook.effects s0 = Hook.effects s →
  Hook.timeouts (Hook.added s (Hook.connect props s0))
  = if Hook.currentIsOpen s0 then []
    else if Hook.constructs props then []
    else if Hook.mayRetry props s0 then [Hook.Flat] else [].
Proof.
  intros Heff. unfold Hook.connect.
  destruct (Hook.currentIsOpen s0); [by rewrite added_same|].
  destruct (Hook.constructs props).
  { erewrite added_more; [|cbn; rewrite Heff; reflexivity]. reflexivity. }
  change (Hook.mayRetry props (Hook.mkState _ _ _ _ _ _ _ _))
    with (Hook.mayRetry props s0).
  destruct (Hook.mayRetry props s0).
  - erewrite added_more; [|unfold Hook.retryAfter; cbn; rewrite Heff; reflexivity].
    reflexivity.
  - by rewrite added_same.
Qed.

Lemma close_timers props s k :
  Hook.timeouts (Hook.added s (Hook.step props s (Hook.Closed k)))
  = match Hook.sockets s !! k with
    | Some CLOSED | None => []
    | Some _ => if Hook.mayRetry props s
                then [Hook.Backoff (Hook.reconnectCount s)] else []
    end.
Proof.
  assert (Hclose : ∀ r,
            Hook.timeouts (Hook.added s (Hook.onclose props (Hook.setSocket k r s)))
            = if Hook.mayRetry props s
              then [Hook.Backoff (Hook.reconnectCount s)] else []).
  { intros r. unfold Hook.onclose.
    change (Hook.mayRetry props (Hook.mkState _ _ _ _ _ _ _ _))
      with (Hook.mayRetry props s).
    destruct (Hook.mayRetry props s).
    - erewrite added_more; [|unfold Hook.retryAfter; cbn; reflexivity]. reflexivity.
    - by rewrite added_same. }
  cbn [Hook.step].
  destruct (Hook.sockets s !! k) as [[]|]; try apply Hclose; by rewrite added_same.
Qed.

Lemma step_timers props s e :
  let timers := Hook.timeouts (Hook.added s (Hook.step props s e)) in
  timers = []
  ∨ ((∃ k, e = Hook.Closed k) ∧ timers = [Hook.Backoff (Hook.reconnectCount s)])
  ∨ ((e = Hook.Connect ∨ ∃ timer, e = Hook.Fired timer)
     ∧ Hook.constructs props = false ∧ timers = [Hook.Flat]).
Proof.
  intros timers. subst timers.
  assert (Hconnect : ∀ s0, Hook.effects s0 = Hook.effects s →
            Hook.timeouts (Hook.added s (Hook.connect props s0)) = []
            ∨ (Hook.constructs props = false
               ∧ Hook.timeouts (Hook.added s (Hook.connect props s0)) = [Hook.Flat])).
  { intros s0 Heff. rewrite (connect_timers props s0 s Heff).
    destruct (Hook.currentIsOpen s0); [by left|].
    destruct (Hook.constructs props); [by left|].
    destruct (Hook.mayRetry props s0); [by right|by left]. }
  destruct e as [| |k|k|k|k|timer].
  - destruct (Hconnect s eq_refl) as [?|[? ?]]; [by left|].
    right; right. split_and!; [by left|done|done].
  - left. cbn [Hook.step]. unfold Hook.disconnect.
    destruct (Hook.reconnectTimeoutRef s) as [t|]; cbn [Hook.ws_current].
    + destruct (Hook.ws_current s) as [k|]; [|hook_added].
      match goal with |- context [if ?b then _ else _] => destruct b end; hook_added.
    + destruct (Hook.ws_current s) as [k|]; [|hook_added].
      destruct (Hook.currentIsOpen s); hook_added.
  - left. cbn [Hook.step]. destruct (decide _); by rewrite added_same.
  - left. by rewrite added_same.
  - left. cbn [Hook.step]. destruct (Hook.sockets s !! k) as [[]|]; by rewrite added_same.
  - rewrite close_timers.
    destruct (Hook.sockets s !! k) as [[]|]; try (by left);
      (destruct (Hook.mayRetry props s); [right; left; split; [by eexists|done]|by left]).
  - cbn [Hook.step]. destruct (decide _); [|left; by rewrite added_same].
    match goal with |- context [Hook.connect props ?s0] =>
      destruct (Hconnect s0 eq_refl) as [?|[? ?]] end; [by left|].
    right; right. split_and!; [right; by eexists|done|done].
Qed.

Lemma retry_timers props s e :
  Hook.autoReconnect props = true →
  Z.of_nat (Hook.reconnectCount s) < Hook.reconnectAttempts props →
  let timers := Hook.timeouts (Hook.added s (Hook.step props s e)) in
  (∀ k r, e = Hook.Closed k → Hook.sockets s !! k = Some r → r ≠ CLOSED →
          timers = [Hook.Backoff (Hook.reconnectCount s)])
  ∧ (e = Hook.Connect
     ∨ (∃ timer, e = Hook.Fired timer ∧ Hook.pending s !! timer = Some true) →
     Hook.constructs props = false → Hook.currentIsOpen s = false →
     timers = [Hook.Flat]).
Proof.
  intros Hauto Hleft timers. subst timers.
  assert (Hretry : Hook.mayRetry props s = true).
  { unfold Hook.mayRetry. rewrite Hauto. by apply Z.ltb_lt. }
  split.
  - intros k r -> Hk Hr. rewrite close_timers, Hk, Hretry. by destruct r.
  - intros [->|(timer & -> & Htimer)] Hconstructs Hopen.
    + cbn [Hook.step]. by rewrite (connect_timers props s s eq_refl), Hopen, Hconstructs, Hretry.
    + cbn [Hook.step]. rewrite decide_True by done.
      rewrite connect_timers by done.
      change (Hook.currentIsOpen (Hook.mkState _ _ _ _ _ _ _ _))
        with (Hook.currentIsOpen s).
      change (Hook.mayRetry props (Hook.mkState _ _ _ _ _ _ _ _))
        with (Hook.mayRetry props s).
      by rewrite Hopen, Hconstructs, Hretry.
Qed.

(** X25 — As long as none of its sockets opens, the hook sets at most
    [reconnectAttempts] timers, counting from the attempts it has
    already made: whatever the order of closes, errors, timers going
    off and calls of [connect] and [disconnect].  An event sets at most
    one timer, and only a close or a failure to construct the socket
    (in [connect], called or run by a timer) sets one: after [n]
    attempts in a row the timer of a close waits
    [reconnectInterval * 1.5 ^ n], the timer of a failure to construct
    waits [reconnectInterval].  While retries are allowed and not used
    up, every close of a socket that was not closed sets its timer,
    and so does every failure to construct.  The opening of a socket
    sets the count back to zero. *)
Theorem retries_are_bounded props s events :
  forallb (λ e, negb (Hook.isOpened e)) events = true →
  let made := Hook.reconnectCount s in
  ∃ Δ, Hook.effects (Hook.run props s events) = Hook.effects s ++ Δ
       ∧ Z.of_nat (length (Hook.timeouts Δ))
         ≤ Z.max 0 (Hook.reconnectAttempts props - Z.of_nat made)
       ∧ (∀ j d, Hook.timeouts Δ !! j = Some d →
                 d = Hook.Flat ∨ d = Hook.Backoff (made + j))
       ∧ (∀ before e after, events = before ++ e :: after →
            let s1 := Hook.run props s before in
            let n := length (Hook.timeouts (Hook.added s s1)) in
            let timers := Hook.timeouts (Hook.added s1 (Hook.step props s1 e)) in
            (timers = []
             ∨ ((∃ k, e = Hook.Closed k) ∧ timers = [Hook.Backoff (made + n)])
             ∨ ((e = Hook.Connect ∨ ∃ timer, e = Hook.Fired timer)
                ∧ Hook.constructs props = false ∧ timers = [Hook.Flat]))
            ∧ (Hook.autoReconnect props = true →
               Z.of_nat (made + n) < Hook.reconnectAttempts props →
               (∀ k r, e = Hook.Closed k → Hook.sockets s1 !! k = Some r →
                       r ≠ CLOSED → timers = [Hook.Backoff (made + n)])
               ∧ (e = Hook.Connect
                  ∨ (∃ timer, e = Hook.Fired timer
                              ∧ Hook.pending s1 !! timer = Some true) →
                  Hook.constructs props = false → Hook.currentIsOpen s1 = false →
                  timers = [Hook.Flat])))
       ∧ ∀ k, Hook.sockets (Hook.run props s events) !! k = Some CONNECTING →
              Hook.reconnectCount
                (Hook.step props (Hook.run props s events) (Hook.Opened k)) = 0%nat.
Proof.
  intros Hno made.
  destruct (hook_run props events s Hno) as (Δ & Heff & _ & Hlen & Hd).
  exists Δ. split_and!; [done|done|done| |].
  - intros before e after -> s1 n timers.
    rewrite forallb_app in Hno. apply andb_true_iff in Hno as [Hbefore _].
    destruct (hook_run props before s Hbefore) as (Δb & Heffb & Hcount & _).
    assert (Hn : Hook.reconnectCount s1 = (made + n)%nat).
    { subst n s1. by rewrite (added_more _ _ Δb Heffb). }
    subst timers. rewrite <- Hn. split.
    + apply step_timers.
    + intros Hauto Hleft. by apply retry_timers.
  - intros k Hk. simpl. by rewrite decide_True.
Qed.

(** X26 — [disconnect] does not stop the hook from reconnecting.  When
    it is called with the current socket open, retries allowed and not
    used up, the socket is closed; the close event that follows sets a
    timer, as after any close; and when that timer goes off the hook
    makes a new socket, which becomes its current one. *)
Theorem a_disconnect_does_not_stop_the_retries props s k :
  Hook.autoReconnect props = true → Hook.constructs props = true →
  Z.of_nat (Hook.reconnectCount s) < Hook.reconnectAttempts props →
  Hook.ws_current s = Some k → Hook.sockets s !! k = Some OPEN →
  let timer := length (Hook.pending s) in
  let fresh := length (Hook.sockets s) in
  let s1 := Hook.step props s Hook.Disconnect in
  let s2 := Hook.step props s1 (Hook.Closed k) in
  let s3 := Hook.step props s2 (Hook.Fired timer) in
  Hook.sockets s1 !! k = Some CLOSING
  ∧ Hook.pending s1 = match Hook.reconnectTimeoutRef s with
                      | Some t => <[t := false]> (Hook.pending s)
                      | None => Hook.pending s
                      end
  ∧ Hook.pending s2 !! timer = Some true
  ∧ Hook.timeouts (drop (length (Hook.effects s1)) (Hook.effects s2))
    = [Hook.Backoff (Hook.reconnectCount s)]
  ∧ Hook.ws_current s3 = Some fresh
  ∧ Hook.sockets s3 !! fresh = Some CONNECTING
  ∧ Hook.sockets s3 !! k = Some CLOSED.
Proof.
  intros Hauto Hcons Hlt Hcur Hopen timer fresh s1 s2 s3.
  pose proof (lookup_lt_Some _ _ _ Hopen) as Hk.
  assert (Hs1 : ∃ p Δ r,
            s1 = Hook.mkState (<[k := CLOSING]> (Hook.sockets s)) (Some k)
                   (Hook.reconnectCount s) r p (Hook.connected s) (Hook.error s)
                   (Hook.effects s ++ Δ)
            ∧ length p = length (Hook.pending s)
            ∧ p = match Hook.reconnectTimeoutRef s with
                  | Some t => <[t := false]> (Hook.pending s)
                  | None => Hook.pending s
                  end).
  { unfold s1. cbn [Hook.step]. unfold Hook.disconnect, Hook.currentIsOpen.
    destruct (Hook.reconnectTimeoutRef s) as [t|];
      cbn [Hook.ws_current Hook.sockets]; rewrite Hcur;
      cbn [mbind option_bind]; rewrite Hopen, bool_decide_eq_true_2 by done.
    - eexists _, _, _. cbn. split; [by rewrite <- app_assoc|].
      split; [by rewrite length_insert|done].
    - eexists _, _, _. split; [done|]. done. }
  destruct Hs1 as (p & Δ & r & Hs1 & Hlen & Hp).
  assert (Hs2 : s2 = Hook.mkState (<[k := CLOSED]> (<[k := CLOSING]> (Hook.sockets s)))
                       (Some k) (S (Hook.reconnectCount s)) (Some timer)
                       (p ++ [true]) None (Hook.error s)
                       ((Hook.effects s ++ Δ)
                        ++ [Hook.SetTimeout timer
                              (Hook.Backoff (Hook.reconnectCount s))])).
  { unfold s2. rewrite Hs1. simpl.
    rewrite list_lookup_insert_eq by done.
    unfold Hook.onclose, Hook.mayRetry. simpl. rewrite Hauto. simpl.
    apply Z.ltb_lt in Hlt. rewrite Hlt.
    unfold Hook.retryAfter. simpl. by rewrite Hlen. }
  assert (Hs3 : Hook.ws_current s3 = Some fresh
                ∧ Hook.sockets s3
                  = <[k := CLOSED]> (<[k := CLOSING]> (Hook.sockets s)) ++ [CONNECTING]).
  { unfold s3. rewrite Hs2. simpl.
    assert ((p ++ [true]) !! timer = Some true) as Hpending.
    { unfold timer. rewrite <- Hlen. apply list_lookup_middle. done. }
    rewrite decide_True by done.
    unfold Hook.connect, Hook.currentIsOpen. simpl.
    rewrite list_lookup_insert_eq by (by rewrite length_insert).
    rewrite bool_decide_eq_false_2 by done. rewrite Hcons. simpl.
    by rewrite !length_insert. }
  destruct Hs3 as [Hcur3 Hsock3].
  split_and!.
  - rewrite Hs1. simpl. by apply list_lookup_insert_eq.
  - by rewrite Hs1.
  - rewrite Hs2. simpl. unfold timer. rewrite <- Hlen. by apply list_lookup_middle.
  - rewrite Hs1, Hs2. simpl. by rewrite drop_app_length.
  - done.
  - rewrite Hsock3. unfold fresh.
    replace (length (Hook.sockets s))
      with (length (<[k := CLOSED]> (<[k := CLOSING]> (Hook.sockets s))))
      by (by rewrite !length_insert).
    by apply list_lookup_middle.
  - rewrite Hsock3, lookup_app_l by (by rewrite !length_insert).
    apply list_lookup_insert_eq. by rewrite length_insert.
Qed.

(** ** The list of translations a participant sees *)

Lemma existsb_ids (prev : list Translation) id :
  existsb (λ t, bool_decide (tr_id t = id)) prev = false → id ∉ tr_id <$> prev.
Proof.
  induction prev as [|t prev IH]; simpl; [by intros _ ?%elem_of_nil|].
  intros [Ht Hrest]%orb_false_iff. apply bool_decide_eq_false_1 in Ht.
  intros [?|?]%elem_of_cons; [congruence|by apply IH].
Qed.

(** X27 — The list a participant sees never holds two translations of
    one id: a frame of recent translations (themselves of distinct
    ids, as the server sends them) replaces the list by these, oldest
    first, and a live translation is added at the end only when its id
    is new.  So a record that comes both in the recent translations
    and live is shown once, and the same live translation received
    again changes nothing. *)
Theorem a_record_is_shown_once frames : ∀ shown,
  NoDup (tr_id <$> shown) →
  Forall (λ f, match f with
               | Page.RecentTranslations translations => NoDup (tr_id <$> translations)
               | Page.ATranslation _ => True
               end) frames →
  NoDup (tr_id <$> foldl Page.receive shown frames)
  ∧ ∀ incoming,
      Page.onTranslation (Page.onTranslation shown incoming) incoming
      = Page.onTranslation shown incoming.
Proof.
  induction frames as [|f frames IH]; intros shown Hnd Hframes.
  - split; [done|]. intros incoming. unfold Page.onTranslation.
    destruct (existsb _ shown) eqn:Hex; [by rewrite Hex|].
    rewrite existsb_app, Hex. simpl. by rewrite bool_decide_eq_true_2.
  - apply Forall_cons in Hframes as [Hf Hframes]. split.
    + simpl. apply IH; [|done].
      destruct f as [translations|incoming]; simpl.
      * unfold Page.onRecentTranslations. by rewrite sortBy_perm.
      * unfold Page.onTranslation.
        destruct (existsb _ shown) eqn:Hex; [done|].
        rewrite fmap_app. apply NoDup_app. split_and!; [done| |apply NoDup_singleton].
        intros id Hin ?%list_elem_of_singleton. subst id.
        by apply existsb_ids in Hex.
    + intros incoming. unfold Page.onTranslation.
      destruct (existsb _ shown) eqn:Hex; [by rewrite Hex|].
      rewrite existsb_app, Hex. simpl. by rewrite bool_decide_eq_true_2.
Qed.

(** * The theorems at the concrete event *)

Import Example.

Abbreviation step' :=
  (step nanoid Date_now base64Length whisper chat speech toLowerCase).
Abbreviation effectsOf' :=
  (effectsOf nanoid Date_now base64Length whisper chat speech toLowerCase).
Abbreviation reached inputs :=
  (run nanoid Date_now base64Length whisper chat speech toLowerCase
     (startUp store) inputs).

Ltac by_computation :=
  match goal with |- ?P => apply (bool_decide_unpack P) end; vm_compute; exact I.

Ltac evaluate :=
  vm_compute;
  lazymatch goal with
  | |- _ = _ => reflexivity
  | |- _ → False => discriminate
  | |- ¬ _ => discriminate
  | |- _ => eauto
  end.

Lemma translation_jobs_are_isolated_witness :
  chatCalls (effectsOf' (reached threeLanguages) spoken) = [(Hello, Spanish); (Hello, French)]
  ∧ Served (opens (reached threeLanguages)) 1 Hello
      (default [] (activeConnections (reached threeLanguages) !! 1)) Spanish
      (effectsOf' (reached threeLanguages) spoken) (storage (step' (reached threeLanguages) spoken)).
Proof.
  destruct (translation_jobs_are_isolated nanoid Date_now base64Length whisper chat
              speech toLowerCase (reached threeLanguages) 1 1 segment Hello)
    as (Hcalls & _ & Hisolated).
  - by_computation.
  - reflexivity.
  - split.
    + exact Hcalls.
    + destruct (Hisolated French) as (_ & Hserved & _); [reflexivity|].
      apply Hserved; [by_computation|discriminate].
Defined.

Lemma source_record_comes_first_witness :
  ∃ before rec after,
    effectsOf' (reached threeLanguages) spoken = before ++ ECreateTranslation rec :: after
    ∧ tr_language rec = English ∧ translatedText rec = None
    ∧ chatCalls before = [] ∧ created before = [].
Proof.
  destruct (source_record_comes_first nanoid Date_now base64Length whisper chat
              speech toLowerCase (reached threeLanguages) 1 1 segment Hello)
    as (before & rec & after & HΔ & Hl & Ht & _ & _ & Hc & Hr & _).
  - by_computation.
  - reflexivity.
  - exists before, rec, after. repeat split; assumption.
Defined.

Lemma completion_status_counts_witness :
  ∃ d, aggregates 1 (effectsOf' (reached threeLanguages) spoken) = [d]
       ∧ (successfulTranslations d + failedTranslations d)%nat = 2%nat
       ∧ totalLanguages d = 3%nat.
Proof.
  destruct (completion_status_counts nanoid Date_now base64Length whisper chat
              speech toLowerCase (reached threeLanguages) 1 1 segment Hello)
    as (d & Hd & _ & Hsum & _ & Htotal & _).
  - by_computation.
  - reflexivity.
  - reflexivity.
  - exists d. split; [exact Hd|]. split.
    + rewrite Hsum. vm_compute. reflexivity.
    + rewrite Htotal. vm_compute. reflexivity.
Defined.

(** The claim C5 as stated fails: with the organizer in English and
    listeners in Spanish and French, two languages are attempted and the
    status reports a total of three. *)
Lemma total_is_not_the_attempted_count :
  ¬ TotalIsAttempted nanoid Date_now base64Length whisper chat speech toLowerCase
      (reached threeLanguages) 1 1 segment.
Proof.
  intros H. specialize (H (mkDetails 1 1 3)).
  assert (totalLanguages (mkDetails 1 1 3) = 2%nat) as Habsurd.
  { rewrite H; [vm_compute; reflexivity|]. by_computation. }
  discriminate Habsurd.
Qed.

Lemma synthesis_is_per_connection_witness :
  let Δ := effectsOf nanoid Date_now base64Length whisper chat hoarse toLowerCase
             (reached twoListeners) spoken in
  speechCalls Δ ≡ₚ [(Hola, nova); (Hola, nova)]
  ∧ (audioFrames Δ).*2 ≡ₚ [(sound, Hola)]
  ∧ ∃ rec r, spokenTo 2 rec Hello Hola r `sublist_of` Δ.
Proof.
  intros Δ.
  destruct (synthesis_is_per_connection nanoid Date_now base64Length whisper chat
              hoarse toLowerCase (reached twoListeners) 1 1 segment Hello)
    as (Hplan & _ & Hspoken & Hanswers & _).
  - by_computation.
  - reflexivity.
  - split_and!.
    + etrans; [exact Hplan|]. vm_compute. reflexivity.
    + etrans; [exact Hanswers|]. vm_compute. reflexivity.
    + destruct (Hspoken Spanish (Some Hola)) as (rec & _ & _ & Hclients);
        [by_computation|].
      destruct (Hclients (mkEventConnection 2 Spanish (str "p-1") true false))
        as (r & Hsub); [by_computation|reflexivity|reflexivity|reflexivity|].
      by exists rec, r.
Defined.

(** The claim C2 as stated fails: with two Spanish listeners who both
    enabled audio there is one target language and the speech service
    is called twice. *)
Lemma synthesis_is_not_once_per_language :
  ¬ SynthesizedOncePerLanguage nanoid Date_now base64Length whisper chat speech
      toLowerCase (reached twoListeners) 1 1 segment.
Proof.
  unfold SynthesizedOncePerLanguage. intros H. vm_compute in H.
  repeat match goal with H : (S _ ≤ _)%nat |- _ => apply le_S_n in H end.
  inversion H.
Qed.

Lemma text_and_audio_delivery_witness :
  ∃ recE recL,
    translatedText recE = None ∧ translatedText recL = Some Hola
    ∧ deliveries 1 (effectsOf' (reached scenario) spoken) = [translation recE Hello English]
    ∧ deliveries 2 (effectsOf' (reached scenario) spoken)
      = [translation recL Hello English; audio_translation sound Hola]
    ∧ deliveries 3 (effectsOf' (reached scenario) spoken) = [translation recL Hello English].
Proof.
  destruct (text_and_audio_delivery nanoid Date_now base64Length whisper chat
              speech toLowerCase (reached scenario) 1 1 segment Hello)
    as (_ & _ & Hscenario).
  - by_computation.
  - reflexivity.
  - destruct (Hscenario
                (mkEventConnection 1 English (str "A") false true)
                (mkEventConnection 2 Spanish (str "B") true false)
                (mkEventConnection 3 Spanish (str "C") false false)
                Spanish (Some Hola) sound)
      as (recE & recL & HE & _ & _ & HL & _ & _ & HA & HB & HC);
      [evaluate..|by_computation|by_computation|].
    exists recE, recL. repeat split; assumption.
Defined.

Lemma blank_transcription_stops_the_segment_witness :
  created (effectsOf nanoid Date_now base64Length silence chat speech toLowerCase
             (reached threeLanguages) spoken) = []
  ∧ sentTo 1 (effectsOf nanoid Date_now base64Length silence chat speech toLowerCase
                (reached threeLanguages) spoken)
    = [processingStatus; noSpeech].
Proof.
  destruct (blank_transcription_stops_the_segment nanoid Date_now base64Length
              silence chat speech toLowerCase (reached threeLanguages) 1 1 segment (str "  ")
              (advance (reached threeLanguages)
                 [ESend 1 processingStatus; EWhisper segment (Resolved (str "  "))]))
    as (_ & _ & Hcreated & _ & _ & _ & Hsent).
  - exists (mkSocket OPEN (str "organizer-1") 1 English false),
      (mkEventConnection 1 English (str "organizer-1") false true).
    split_and!; evaluate.
  - vm_compute. lia.
  - evaluate.
  - evaluate.
  - split; [exact Hcreated|]. apply Hsent. evaluate.
Defined.

Lemma audio_from_non_organizer_is_refused_witness :
  effectsOf' (reached threeLanguages) (audioFrame 2 (Some 1) (AudioString segment))
  = [ESend 2 (error Only_organizers_can_broadcast_audio)].
Proof.
  destruct (audio_from_non_organizer_is_refused nanoid Date_now base64Length whisper
              chat speech toLowerCase (reached threeLanguages) 2
              (mkSocket OPEN (str "p-es") 1 Spanish false)
              (Some 1) (AudioString segment))
    as (e & _ & Heffects & _ & _ & _ & He).
  - evaluate.
  - evaluate.
  - intros eid c [= <-] Hc.
    assert (senderConnection 1
              (var_sessionId (mkSocket OPEN (str "p-es") 1 Spanish false))
              (reached threeLanguages)
            = Some (mkEventConnection 2 Spanish (str "p-es") false false)) as Hs
      by evaluate.
    rewrite Hs in Hc. by injection Hc as <-.
  - assert (e = Only_organizers_can_broadcast_audio) as ->.
    { apply (He 1 segment); [reflexivity|discriminate|reflexivity|discriminate|].
      evaluate. }
    rewrite Heffects. evaluate.
Defined.


Lemma empty_completion_echoes_source_witness :
  (translateText chat Hello German (startUp store)).1 = Resolved Hello
  ∧ ∃ rec, translatedText rec = Some Hello ∧ tr_language rec = German
           ∧ ECreateTranslation rec ∈ effectsOf' (reached germanListener) spoken.
Proof.
  destruct (empty_completion_echoes_source nanoid Date_now base64Length whisper chat
              speech toLowerCase (reached germanListener) 1 1 segment Hello German None Hello
              (startUp store))
    as (Hecho & Hstored).
  - left. reflexivity.
  - split; [apply Hecho; evaluate|].
    destruct Hstored as (rec & Ht & _ & Hl & _ & Hin & _).
    + by_computation.
    + evaluate.
    + by_computation.
    + exists rec. repeat split; assumption.
Defined.

(** C3 — A join that names a session already in the group replaces its
    entry and closes the replaced transport; the close event of that
    transport then runs the close handler, which removes by session and
    so takes the new entry out too.  Here transport 1 joins event 1 as
    session "s", transport 2 joins with the same session: the group
    holds exactly the entry of transport 2 and transport 1 is closing;
    after the close event of transport 1 the event has no group left
    although transport 2 is still open. *)
Theorem superseded_close_unregisters_the_new_connection :
  let rejoined := reached rejoin in
  activeConnections rejoined !! 1
  = Some [mkEventConnection 2 Spanish (str "s") false false]
  ∧ readyStateOf 1 rejoined = Some CLOSING
  ∧ EClose 1 ∈ trace rejoined
  ∧ isOPEN 2 (step' rejoined (Close 1)) = true
  ∧ activeConnections (step' rejoined (Close 1)) !! 1 = None.
Proof.
  intros rejoined. split_and!; [evaluate|evaluate|by_computation|evaluate|evaluate].
Qed.

(** C8 — The authorization check of [audio_data] finds the sender by
    the session id its transport joined with last, in the group of the
    event the frame names, and not by the transport.  Here transport 2
    is a Spanish listener of event 1 and then joins event 2 under the
    session id of the organizer of event 1.  It is flagged organizer
    in no group, and event 1 exists; yet its [audio_data] frame for
    event 1 is not refused: the look-up finds the entry of the
    organizer, the audio is transcribed and translated, two records are
    stored, and the translation is sent out. *)
Theorem a_listener_broadcasts_under_the_organizers_session :
  let s := reached borrowed in
  let i := audioFrame 2 (Some 1) (AudioString segment) in
  let Δ := effectsOf' s i in
  activeConnections s
  = {[ 1 := [mkEventConnection 1 English (str "organizer-1") false true;
             mkEventConnection 2 Spanish (str "p-es") false false];
       2 := [mkEventConnection 2 Spanish (str "organizer-1") false false] ]}
  ∧ is_Some (getEvent 1 (storage s))
  ∧ senderConnection 1 (str "organizer-1") s
    = Some (mkEventConnection 1 English (str "organizer-1") false true)
  ∧ (∀ e, error e ∉ sentTo 2 Δ)
  ∧ EWhisper segment (Resolved Hello) ∈ Δ
  ∧ chatCalls Δ = [(Hello, Spanish)]
  ∧ (tr_language <$> created Δ) = [English; Spanish]
  ∧ (snd <$> translations (storage (step' s i))) = created Δ
  ∧ translations (storage s) = []
  ∧ deliveries 2 Δ
    = [translation (mkTranslation 2 1 Hello (Some Hola) Spanish 1700000000023)
         Hello English].
Proof.
  intros s i Δ. split_and!.
  - evaluate.
  - evaluate.
  - evaluate.
  - intros e He.
    assert (Hsent : Forall (λ m, match m with error _ => False | _ => True end)
                      (sentTo 2 Δ)) by (vm_compute; repeat constructor).
    by apply (proj1 (Forall_forall _ _) Hsent) in He.
  - by_computation.
  - evaluate.
  - evaluate.
  - evaluate.
  - evaluate.
  - evaluate.
Qed.

(** * The further theorems at the concrete event *)


Lemma malformed_frames_are_refused_witness :
  effectsOf' (reached lobby) (Message 2 NotJSON)
  = [ESend 2 (error Invalid_message_format)]
  ∧ effectsOf' (reached lobby)
      (Message 2 (Parsed (audio_data (Some 5) (AudioString segment))))
    = [ESend 2 (error (Event_not_found 5))].
Proof.
  split.
  - destruct (malformed_frames_are_refused nanoid Date_now base64Length whisper
                chat speech toLowerCase (reached lobby) 2 newSocket NotJSON
                Invalid_message_format) as (Heffects & _).
    + reflexivity.
    + discriminate.
    + constructor.
    + rewrite Heffects. evaluate.
  - destruct (malformed_frames_are_refused nanoid Date_now base64Length whisper
                chat speech toLowerCase (reached lobby) 2 newSocket
                (Parsed (audio_data (Some 5) (AudioString segment)))
                (Event_not_found 5)) as (Heffects & _).
    + reflexivity.
    + discriminate.
    + by constructor.
    + rewrite Heffects. evaluate.
Defined.

Lemma undersized_audio_is_never_transcribed_witness :
  effectsOf' (reached threeLanguages)
    (audioFrame 1 (Some 1) (AudioString blip))
  = [ESend 1 skippedStatus]
  ∧ storage (step' (reached threeLanguages)
               (audioFrame 1 (Some 1) (AudioString blip)))
    = storage (reached threeLanguages).
Proof.
  destruct (undersized_audio_is_never_transcribed nanoid Date_now base64Length
              whisper chat speech toLowerCase (reached threeLanguages) 1 1 blip)
    as (Heffects & _ & _ & Hstore & _).
  - exists (mkSocket OPEN (str "organizer-1") 1 English false),
      (mkEventConnection 1 English (str "organizer-1") false true).
    split_and!; evaluate.
  - left. vm_compute. lia.
  - split; [|exact Hstore]. rewrite Heffects. evaluate.
Defined.

Lemma a_failed_transcription_is_reported_witness :
  effectsOf nanoid Date_now base64Length deaf chat speech toLowerCase
    (reached threeLanguages) spoken
  = [ESend 1 processingStatus; EWhisper segment (Rejected (str "timeout"));
     ESend 1 (error (Thrown (str "Failed to transcribe audio: timeout")))].
Proof.
  destruct (a_failed_transcription_is_reported nanoid Date_now base64Length deaf
              chat speech toLowerCase (reached threeLanguages) 1 (Some 1)
              (AudioString segment) segment (str "timeout"))
    as (Heffects & _).
  - by_computation.
  - unfold spoken, audioFrame in *. rewrite Heffects. evaluate.
Defined.

Lemma a_close_is_announced_to_the_rest_witness :
  group 1 (step' (reached threeLanguages) (Close 2))
  = [mkEventConnection 1 English (str "organizer-1") false true;
     mkEventConnection 3 French (str "p-fr") false false]
  ∧ effectsOf' (reached threeLanguages) (Close 2)
    = [ESend 1 (participant_count 1); ESend 3 (participant_count 1)].
Proof.
  destruct (a_close_is_announced_to_the_rest nanoid Date_now base64Length whisper
              chat speech toLowerCase (reached threeLanguages) 2
              (mkSocket OPEN (str "p-es") 1 Spanish false))
    as (_ & _ & _ & Hjoined).
  - reflexivity.
  - discriminate.
  - destruct Hjoined as (Hgroup & _ & Heffects); [discriminate|].
    split.
    + etrans; [exact Hgroup|]. evaluate.
    + etrans; [exact Heffects|]. evaluate.
Defined.

Lemma switching_events_leaves_the_old_entry_witness :
  let moved := step' (reached lobby)
                 (Message 1 (Parsed (join (Some 2) (Some (str "organizer-1")) None None
                                       (Some true)))) in
  group 1 (step' moved (Close 1))
  = [mkEventConnection 1 English (str "organizer-1") false true]
  ∧ isOPEN 1 (step' moved (Close 1)) = false.
Proof.
  intros moved.
  destruct (switching_events_leaves_the_old_entry nanoid Date_now base64Length
              whisper chat speech toLowerCase (reached lobby) 1
              (mkSocket OPEN (str "organizer-1") 1 English false) 1 2
              (Some (str "organizer-1")) None None (Some true))
    as (_ & Hgroup & Hstale).
  - reflexivity.
  - discriminate.
  - discriminate.
  - discriminate.
  - split.
    + etrans; [exact Hgroup|]. evaluate.
    + apply (Hstale (mkEventConnection 1 English (str "organizer-1") false true));
        [by_computation|reflexivity].
Defined.

Lemma created_records_are_kept_witness :
  mapGet 1 (translations (storage (reached (threeLanguages ++ [spoken]))))
  = Some (mkTranslation 1 1 Hello None English 1700000000022).
Proof.
  destruct (created_records_are_kept nanoid Date_now base64Length whisper chat
              speech toLowerCase store (threeLanguages ++ [spoken])
              (mkTranslation 1 1 Hello None English 1700000000022))
    as (Hkept & _).
  - by_computation.
  - exact Hkept.
Defined.

Lemma a_preference_update_changes_one_entry_witness :
  group 1 (step' (reached threeLanguages) (Message 2 (Parsed (update_language German))))
  = [mkEventConnection 1 English (str "organizer-1") false true;
     mkEventConnection 2 German (str "p-es") false false;
     mkEventConnection 3 French (str "p-fr") false false]
  ∧ effectsOf' (reached threeLanguages) (Message 2 (Parsed (update_language German)))
    = [].
Proof.
  destruct (a_preference_update_changes_one_entry nanoid Date_now base64Length
              whisper chat speech toLowerCase (reached threeLanguages) 2
              (mkSocket OPEN (str "p-es") 1 Spanish false)
              (update_language German) (setLanguage German))
    as (Hgroup & _ & Heffects & _).
  - reflexivity.
  - discriminate.
  - left. by exists German.
  - split; [|exact Heffects].
    cbn [var_eventId var_sessionId] in Hgroup. rewrite Hgroup. evaluate.
Defined.

Lemma a_language_update_reaches_the_record_witness :
  getParticipantBySessionId (str "p-es")
    (storage (step' (reached threeLanguages)
                (Message 2 (Parsed (update_language German)))))
  = Some (mkParticipant 1 1 (str "p-es") (Some German) 1700000000006).
Proof.
  apply (a_language_update_reaches_the_record nanoid Date_now base64Length whisper
           chat speech toLowerCase (reached threeLanguages) 2
           (mkSocket OPEN (str "p-es") 1 Spanish false) German
           (mkParticipant 1 1 (str "p-es") (Some Spanish) 1700000000006)).
  - reflexivity.
  - discriminate.
  - split; by_computation.
  - reflexivity.
Defined.

Lemma preferences_before_a_join_are_forgotten_witness :
  let early := step' (reached lobby) (Message 2 (Parsed (update_language German))) in
  group 1 (step' early (Message 2 (Parsed (join (Some 1) (Some (str "p-1")) None None
                                             None))))
  = [mkEventConnection 1 English (str "organizer-1") false true;
     mkEventConnection 2 English (str "p-1") false false].
Proof.
  intros early.
  destruct (preferences_before_a_join_are_forgotten nanoid Date_now base64Length
              whisper chat speech toLowerCase (reached lobby) 2 newSocket
              (update_language German))
    as (_ & _ & _ & Hjoin).
  - reflexivity.
  - discriminate.
  - left. by exists German.
  - reflexivity.
  - reflexivity.
  - unfold group, early.
    rewrite (Hjoin (Some 1) (Some (str "p-1")) None None None). evaluate.
Defined.

Lemma the_store_stays_well_formed_witness :
  wellFormed Store.new ∧ wellFormed (Store.deleteEvent 1 opened).2.
Proof.
  assert (Hnew : wellFormed Store.new) by (repeat split; by_computation).
  split; [exact Hnew|].
  destruct (the_store_stays_well_formed Store.new Hnew) as (_ & Hcreate & _).
  destruct (the_store_stays_well_formed opened (Hcreate proposal 1700000000000))
    as (_ & _ & _ & Hdelete & _).
  apply Hdelete.
Defined.

Lemma an_update_merges_the_given_fields_witness :
  let put := Api.handle 1700000000100 (Api.PUT_event (Some 1) (Resolved renaming))
               opened in
  (λ event, Store.name (Store.fields event)) <$> Store.getEvent 1 put.2
  = Some (str "Summit")
  ∧ (λ event, Store.organizerId (Store.fields event)) <$> Store.getEvent 1 put.2
    = Some 7.
Proof.
  destruct (an_update_merges_the_given_fields 1700000000100 1 renaming
              (Store.mkEvent 1 proposal 1700000000000) opened)
    as (_ & Hget & _).
  - reflexivity.
  - intros put. subst put. rewrite Hget. split; reflexivity.
Defined.

Lemma an_unknown_event_is_not_found_witness :
  let st := (Api.handle 1700000000100 (Api.POST_participants (Resolved stranger))
               opened).2 in
  Api.handle 1700000000200 (Api.GET_event (Some 7)) st = (Api.notFound, st)
  ∧ Api.handle 1700000000200 (Api.DELETE_event None) st = (Api.notFound, st)
  ∧ Api.handle 1700000000200 (Api.GET_participants (Some 7)) st
    = (Api.mkResponse 200
         (Api.Participants [mkParticipant 1 7 (str "p-7") None 1700000000100]), st).
Proof.
  intros st. split_and!.
  - destruct (an_unknown_event_is_not_found 1700000000200 (Some 7) st)
      as (Hget & _); [reflexivity|exact Hget].
  - destruct (an_unknown_event_is_not_found 1700000000200 None st)
      as (_ & _ & Hdelete & _); [reflexivity|exact Hdelete].
  - destruct (an_unknown_event_is_not_found 1700000000200 (Some 7) st)
      as (_ & _ & _ & _ & Hlisted & _); [reflexivity|].
    etrans; [exact Hlisted|]. vm_compute. reflexivity.
Defined.

Lemma the_first_record_of_a_session_wins_witness :
  let once := (Api.handle 1700000000100 (Api.POST_participants (Resolved visitor))
                 opened).2 in
  let twice := (Api.handle 1700000000200 (Api.POST_participants (Resolved visitor))
                  once).2 in
  Store.getParticipantBySessionId (str "p-es") twice
  = Some (mkParticipant 1 1 (str "p-es") (Some Spanish) 1700000000100)
  ∧ (λ p, p_id p) <$> Store.getParticipantsByEvent 1 twice = [1; 2].
Proof.
  intros once twice.
  assert (Honce : wellFormed once) by (repeat split; by_computation).
  destruct (the_first_record_of_a_session_wins 1700000000200 visitor once Honce)
    as (_ & _ & _ & _ & Hfirst).
  split; [|reflexivity].
  etrans; [exact Hfirst|]. reflexivity.
Defined.

Lemma a_created_user_can_be_read_back_witness :
  Store.getUser 1
    (Store.createUser (Store.mkInsertUser (str "ada") (str "secret")) Store.new).2
  = Some (Store.mkUser 1 (str "ada") (str "secret")).
Proof.
  assert (Hnew : wellFormed Store.new) by (repeat split; by_computation).
  destruct (a_created_user_can_be_read_back
              (Store.mkInsertUser (str "ada") (str "secret")) Store.new Hnew)
    as (_ & Hget & _).
  exact Hget.
Defined.

Lemma the_original_goes_out_before_any_translation_witness :
  ∃ first rest rec,
    effectsOf' (reached scenario) spoken = first ++ rest
    ∧ chatCalls first = []
    ∧ ESend 1 (translation rec Hello English) ∈ first
    ∧ chatCalls rest = [(Hello, Spanish)].
Proof.
  destruct (the_original_goes_out_before_any_translation nanoid Date_now
              base64Length whisper chat speech toLowerCase (reached scenario) 1 1
              segment Hello)
    as (first & rest & rec & Hsplit & Hchat & _ & _ & _ & _ & _ & Henglish & Hrest & _).
  - by_computation.
  - reflexivity.
  - exists first, rest, rec. split_and!; [exact Hsplit|exact Hchat| |].
    + apply (Henglish (mkEventConnection 1 English (str "A") false true));
        [by_computation|reflexivity|reflexivity].
    + rewrite Hrest. evaluate.
Defined.

Lemma retries_are_bounded_witness :
  (length (Hook.timeouts (Hook.effects (Hook.run defaults Hook.initial outage))) ≤ 5)%nat
  ∧ Hook.timeouts
      (Hook.added
         (Hook.run defaults Hook.initial
            [Hook.Connect; Hook.Failed 0; Hook.Closed 0; Hook.Fired 0; Hook.Failed 1])
         (Hook.run defaults Hook.initial outage))
    = [Hook.Backoff 1].
Proof.
  destruct (retries_are_bounded defaults Hook.initial outage)
    as (Δ & Heffects & Hbound & _ & Hcause & _).
  - reflexivity.
  - split.
    + rewrite Heffects. simpl in *. lia.
    + destruct (Hcause [Hook.Connect; Hook.Failed 0; Hook.Closed 0; Hook.Fired 0;
                        Hook.Failed 1] (Hook.Closed 1) [] eq_refl)
        as (_ & Hretry).
      destruct Hretry as (Hclose & _); [reflexivity|vm_compute; reflexivity|].
      apply (Hclose 1%nat CONNECTING); [reflexivity|reflexivity|discriminate].
Defined.

Lemma a_disconnect_does_not_stop_the_retries_witness :
  Hook.ws_current
    (Hook.run defaults online [Hook.Disconnect; Hook.Closed 0; Hook.Fired 0])
  = Some 1%nat.
Proof.
  destruct (a_disconnect_does_not_stop_the_retries defaults online 0)
    as (_ & _ & _ & _ & Hcurrent & _).
  - reflexivity.
  - reflexivity.
  - vm_compute. reflexivity.
  - reflexivity.
  - reflexivity.
  - exact Hcurrent.
Defined.

Lemma a_record_is_shown_once_witness :
  let original := mkTranslation 1 1 Hello None English 1700000000022 in
  let spanish := mkTranslation 2 1 Hello (Some Hola) Spanish 1700000000026 in
  NoDup (tr_id <$> foldl Page.receive []
                     [Page.RecentTranslations [spanish; original];
                      Page.ATranslation spanish]).
Proof.
  intros original spanish.
  destruct (a_record_is_shown_once
              [Page.RecentTranslations [spanish; original]; Page.ATranslation spanish]
              []) as (Hshown & _).
  - apply NoDup_nil_2.
  - repeat constructor; by_computation.
  - exact Hshown.
Defined.
